(** * LiveTest: the chat view of geminihub (src/views/LiveTest.tsx)

    A shallow embedding of the state handling and text processing of the
    [LiveTest] component: the streaming [send], the note handlers, the
    reset handler, the persistence effects, [getFilenameFromCode] and
    [renderMessageContent].

    JavaScript strings are sequences of UTF-16 code units; a code unit is
    a number in [N].  Regular expressions are embedded as a small syntax
    with the backtracking semantics of ECMAScript (greedy and lazy
    repetition, ordered alternatives, capture groups, lookahead). *)

From Stdlib Require Import NArith ZArith Ascii String DecimalString.
From Stdlib Require Import DecimalPos DecimalN DecimalZ.
From stdpp Require Import base list gmap.

Local Open Scope list_scope.

(** ** The string primitives of the platform *)

Module JS.

Abbreviation jsstring := (list N).

(** The code units of an ASCII literal. *)
Definition u (s : string) : jsstring :=
  List.map N_of_ascii (list_ascii_of_string s).
Global Arguments u : simpl never.

(** [s.startsWith(p)] *)
Fixpoint startsWith (p s : jsstring) : bool :=
  match p, s with
  | [], _ => true
  | _ :: _, [] => false
  | a :: p', b :: s' => (a =? b)%N && startsWith p' s'
  end.

(** [s.includes(p)] *)
Fixpoint includes (p s : jsstring) : bool :=
  startsWith p s ||
  match s with
  | [] => false
  | _ :: s' => includes p s'
  end.

(** WhiteSpace and LineTerminator code points: what [\s] matches and what
    [String.prototype.trim] removes. *)
Definition isSpace (c : N) : bool :=
  (((9 <=? c) && (c <=? 13)) || (c =? 32) || (c =? 160) || (c =? 0x1680)
   || ((0x2000 <=? c) && (c <=? 0x200A)) || (c =? 0x2028) || (c =? 0x2029)
   || (c =? 0x202F) || (c =? 0x205F) || (c =? 0x3000) || (c =? 0xFEFF))%N.

(** LineTerminator: what [.] does not match. *)
Definition isLineTerminator (c : N) : bool :=
  ((c =? 10) || (c =? 13) || (c =? 0x2028) || (c =? 0x2029))%N.

(** [\w] *)
Definition isWord (c : N) : bool :=
  (((48 <=? c) && (c <=? 57)) || ((65 <=? c) && (c <=? 90))
   || ((97 <=? c) && (c <=? 122)) || (c =? 95))%N.

Fixpoint dropSpaces (s : jsstring) : jsstring :=
  match s with
  | [] => []
  | c :: s' => if isSpace c then dropSpaces s' else s
  end.

(** The units of [l] after, and up to, the first one outside [p]. *)
Definition skipWhile (p : N -> bool) : jsstring -> jsstring :=
  fix skip (l : jsstring) : jsstring :=
    match l with
    | [] => []
    | x :: l' => if p x then skip l' else l
    end.

Definition takeWhile (p : N -> bool) : jsstring -> jsstring :=
  fix keep (l : jsstring) : jsstring :=
    match l with
    | [] => []
    | x :: l' => if p x then x :: keep l' else []
    end.

(** [s.trim()] *)
Definition trim (s : jsstring) : jsstring :=
  rev (dropSpaces (rev (dropSpaces s))).

(** [s.split(sep)] for a separator of one code unit; the result is never
    empty, [""] splits into [[""]]. *)
Fixpoint splitOn (sep : N) (s : jsstring) : list jsstring :=
  match s with
  | [] => [[]]
  | c :: s' =>
    if (c =? sep)%N then [] :: splitOn sep s'
    else match splitOn sep s' with
         | l :: ls => (c :: l) :: ls
         | [] => [[c]]
         end
  end.

(** [s.split(sep)[0]] *)
Definition firstPiece (sep : N) (s : jsstring) : jsstring :=
  match splitOn sep s with
  | l :: _ => l
  | [] => []
  end.

(** The upper and lower case mappings on the ASCII letters.  Code units
    outside the ASCII letters are left as they are: none of them folds to
    an ASCII letter that occurs in a pattern or a key below (the only code
    points whose case mapping reaches ASCII are U+212A, to k, and U+0130,
    to i followed by U+0307). *)
Definition lowerUnit (c : N) : N :=
  if ((65 <=? c) && (c <=? 90))%N then (c + 32)%N else c.

Definition upperUnit (c : N) : N :=
  if ((97 <=? c) && (c <=? 122))%N then (c - 32)%N else c.

(** [s.toLowerCase()] *)
Definition toLowerCase (s : jsstring) : jsstring := List.map lowerUnit s.

(** [n.toString()] for an integral number. *)
Definition toString (n : Z) : jsstring :=
  u (NilZero.string_of_int (Z.to_int n)).

(** ** Regular expressions *)

Inductive regex : Type :=
| Empty                               (* the empty pattern *)
| Class (p : N -> bool)               (* one code unit of a class *)
| Cat (r1 r2 : regex)                 (* r1 r2 *)
| Or (r1 r2 : regex)                  (* r1|r2, r1 tried first *)
| Maybe (r : regex)                   (* r?, greedy *)
| Many (p : N -> bool)                (* [p]*, greedy *)
| Few (p : N -> bool)                 (* [p]*?, lazy *)
| Group (i : nat) (r : regex)         (* capture group number i *)
| Ahead (r : regex)                   (* (?=r) *)
| EndOfInput.                         (* $ *)

(** The captures of a match: the newest binding of a group comes first. *)
Definition captures : Type := list (nat * jsstring).

Fixpoint capture (i : nat) (c : captures) : option jsstring :=
  match c with
  | [] => None
  | (j, s) :: c' => if Nat.eqb i j then Some s else capture i c'
  end.

(** A continuation receives what is left of the input and the captures. *)
Definition cont : Type := jsstring -> captures -> option (jsstring * captures).

Fixpoint many (p : N -> bool) (s : jsstring) (c : captures) (k : cont)
  : option (jsstring * captures) :=
  match s with
  | x :: s' =>
    if p x then
      match many p s' c k with
      | Some r => Some r
      | None => k s c
      end
    else k s c
  | [] => k [] c
  end.

Fixpoint few (p : N -> bool) (s : jsstring) (c : captures) (k : cont)
  : option (jsstring * captures) :=
  match k s c with
  | Some r => Some r
  | None =>
    match s with
    | x :: s' => if p x then few p s' c k else None
    | [] => None
    end
  end.

(** The backtracking matcher, in continuation-passing style. *)
Fixpoint run (r : regex) (s : jsstring) (c : captures) (k : cont)
  : option (jsstring * captures) :=
  match r with
  | Empty => k s c
  | Class p =>
    match s with
    | x :: s' => if p x then k s' c else None
    | [] => None
    end
  | Cat r1 r2 => run r1 s c (fun s1 c1 => run r2 s1 c1 k)
  | Or r1 r2 =>
    match run r1 s c k with
    | Some res => Some res
    | None => run r2 s c k
    end
  | Maybe r1 =>
    match run r1 s c k with
    | Some res => Some res
    | None => k s c
    end
  | Many p => many p s c k
  | Few p => few p s c k
  | Group i r1 =>
    run r1 s c
      (fun s1 c1 => k s1 ((i, take (length s - length s1) s) :: c1))
  | Ahead r1 =>
    match run r1 s c (fun s1 c1 => Some (s1, c1)) with
    | Some (_, c1) => k s c1
    | None => None
    end
  | EndOfInput =>
    match s with
    | [] => k s c
    | _ :: _ => None
    end
  end.

(** A match that starts at the head of [s]: the number of code units it
    takes and its captures. *)
Definition matchHere (r : regex) (s : jsstring) : option (nat * captures) :=
  match run r s [] (fun s1 c1 => Some (s1, c1)) with
  | Some (s1, c1) => Some (length s - length s1, c1)
  | None => None
  end.

(** The result of [RegExp.prototype.exec]: the text before the match, the
    match, the text after it and the captures. *)
Record found : Type := Found {
  before : jsstring;
  matched : jsstring;
  after : jsstring;
  groups : captures
}.

(** The leftmost match, every start position from the head of [s] to its
    end being tried in turn. *)
Fixpoint execFrom (r : regex) (pre : jsstring) (s : jsstring) : option found :=
  match matchHere r s with
  | Some (n, c) => Some (Found (rev pre) (take n s) (drop n s) c)
  | None =>
    match s with
    | [] => None
    | x :: s' => execFrom r (x :: pre) s'
    end
  end.

(** [s.match(r)] for a regex without the [g] flag. *)
Definition exec (r : regex) (s : jsstring) : option found := execFrom r [] s.

(** [s.replace(r, "")] for a regex with the [g] flag: the matches are
    looked for from left to right, each search resuming where the previous
    match ended, one code unit further after an empty match.  [skip]
    counts the code units of the current match still to be dropped. *)
Fixpoint removeAllFrom (r : regex) (skip : nat) (s : jsstring) : jsstring :=
  match skip with
  | S k =>
    match s with
    | [] => []
    | _ :: s' => removeAllFrom r k s'
    end
  | O =>
    match matchHere r s with
    | Some (S n, _) =>
      match s with
      | [] => []
      | _ :: s' => removeAllFrom r n s'
      end
    | _ =>
      match s with
      | [] => []
      | x :: s' => x :: removeAllFrom r O s'
      end
    end
  end.

Definition removeAll (r : regex) (s : jsstring) : jsstring :=
  removeAllFrom r O s.

(** [s.split(r)] for a regex of the form [/(R)/g], whose group 1 is the
    whole match: the pieces between the matches alternate with the matches
    themselves.  [cur] holds, reversed, the piece being read; a match that
    is empty and starts where the previous one ended is passed over, as
    the split algorithm of the language does. *)
Fixpoint splitFrom (r : regex) (skip : nat) (cur : jsstring) (s : jsstring)
  : list jsstring :=
  match s with
  | [] => [rev cur]
  | x :: s' =>
    match skip with
    | S k => splitFrom r k cur s'
    | O =>
      match matchHere r s with
      | Some (S n, _) => rev cur :: take (S n) s :: splitFrom r n [] s'
      | Some (O, _) =>
        match cur with
        | [] => splitFrom r O [x] s'
        | _ :: _ => rev cur :: [] :: splitFrom r O [x] s'
        end
      | None => splitFrom r O (x :: cur) s'
      end
    end
  end.

Definition split (r : regex) (s : jsstring) : list jsstring :=
  match s with
  | [] => match matchHere r [] with Some _ => [] | None => [[]] end
  | _ :: _ => splitFrom r O [] s
  end.

(** *** Pattern notation *)

Definition chr (a : ascii) : regex := Class (N.eqb (N_of_ascii a)).

(** A character of a pattern with the [i] flag. *)
Definition chrI (a : ascii) : regex :=
  Class (fun c => (upperUnit c =? upperUnit (N_of_ascii a))%N).

Fixpoint lit (s : string) : regex :=
  match s with
  | EmptyString => Empty
  | String a s' => Cat (chr a) (lit s')
  end.

Fixpoint litI (s : string) : regex :=
  match s with
  | EmptyString => Empty
  | String a s' => Cat (chrI a) (litI s')
  end.

(** [[p]+] *)
Definition Some1 (p : N -> bool) : regex := Cat (Class p) (Many p).

Definition anyUnit (c : N) : bool := true.            (* [\s\S] *)
Definition dot (c : N) : bool := negb (isLineTerminator c).
Definition oneOf (s : string) (c : N) : bool :=
  existsb (N.eqb c) (u s).
Definition alnum (c : N) : bool :=
  (((48 <=? c) && (c <=? 57)) || ((65 <=? c) && (c <=? 90))
   || ((97 <=? c) && (c <=? 122)))%N.

End JS.

Import JS.

(** ** JSON *)

(** A reading of JSON texts, used where a property is tried on a stored
    text.  Numbers are kept as they are written. *)
Module JSON.

#[local] Unset Elimination Schemes.

Inductive json : Type :=
| Null
| Bool (b : bool)
| Number (literal : jsstring)
| String (s : jsstring)
| Array (elements : list json)
| Object (members : list (jsstring * json)).

#[local] Set Elimination Schemes.

Definition isWs (c : N) : bool :=
  ((c =? 32) || (c =? 9) || (c =? 10) || (c =? 13))%N.

Definition isDigit (c : N) : bool := ((48 <=? c) && (c <=? 57))%N.

Definition hexValue (c : N) : option N :=
  if isDigit c then Some (c - 48)%N
  else if ((65 <=? c) && (c <=? 70))%N then Some (c - 55)%N
  else if ((97 <=? c) && (c <=? 102))%N then Some (c - 87)%N
  else None.

Definition hex4 (a b c d : N) : option N :=
  match hexValue a, hexValue b, hexValue c, hexValue d with
  | Some x, Some y, Some z, Some w => Some (((x * 16 + y) * 16 + z) * 16 + w)%N
  | _, _, _, _ => None
  end.

(** The unit written by a one-letter escape. *)
Definition escaped (e : N) : option N :=
  if ((e =? 34) || (e =? 92) || (e =? 47))%N then Some e
  else if (e =? 98)%N then Some 8%N
  else if (e =? 102)%N then Some 12%N
  else if (e =? 110)%N then Some 10%N
  else if (e =? 114)%N then Some 13%N
  else if (e =? 116)%N then Some 9%N
  else None.

Definition push (c : N) (r : option (jsstring * jsstring))
  : option (jsstring * jsstring) :=
  match r with
  | Some (s, rest) => Some (c :: s, rest)
  | None => None
  end.

(** The units of a string, read after its opening quote, and what follows
    its closing quote. *)
Fixpoint chars (s : jsstring) : option (jsstring * jsstring) :=
  match s with
  | [] => None
  | c :: rest =>
    if (c =? 34)%N then Some ([], rest)
    else if (c =? 92)%N then
      match rest with
      | [] => None
      | e :: rest1 =>
        if (e =? 117)%N then
          match rest1 with
          | a :: b :: c1 :: d :: rest2 =>
            match hex4 a b c1 d with
            | Some n => push n (chars rest2)
            | None => None
            end
          | _ => None
          end
        else
          match escaped e with
          | Some n => push n (chars rest1)
          | None => None
          end
      end
    else if (c <? 32)%N then None
    else push c (chars rest)
  end.

(** A run of digits that must not be empty. *)
Definition digits (s : jsstring) : option (jsstring * jsstring) :=
  match takeWhile isDigit s with
  | [] => None
  | d => Some (d, skipWhile isDigit s)
  end.

(** A number: an optional minus, an integer without leading zero, an
    optional fraction and an optional exponent. *)
Definition number (s : jsstring) : option (jsstring * jsstring) :=
  let signed := match s with
                | 45%N :: r => ([45%N], r)
                | _ => ([], s)
                end in
  let whole := match signed.2 with
               | 48%N :: r => Some ([48%N], r)
               | r => digits r
               end in
  match whole with
  | None => None
  | Some (w, r1) =>
    let fraction := match r1 with
                    | 46%N :: r =>
                      match digits r with
                      | Some (f, r') => Some (46%N :: f, r')
                      | None => None
                      end
                    | _ => Some ([], r1)
                    end in
    match fraction with
    | None => None
    | Some (f, r2) =>
      let exponent :=
        match r2 with
        | e :: r =>
          if ((e =? 101) || (e =? 69))%N then
            let sign := match r with
                        | g :: r' =>
                          if ((g =? 43) || (g =? 45))%N then ([g], r')
                          else ([], r)
                        | [] => ([], r)
                        end in
            match digits sign.2 with
            | Some (x, r') => Some (e :: sign.1 ++ x, r')
            | None => None
            end
          else Some ([], r2)
        | [] => Some ([], r2)
        end in
      match exponent with
      | None => None
      | Some (x, r3) => Some (signed.1 ++ w ++ f ++ x, r3)
      end
    end
  end.

(** A value, and what follows it.  [fuel] bounds the number of nested
    calls. *)
Fixpoint value (fuel : nat) (s : jsstring) : option (json * jsstring) :=
  match fuel with
  | O => None
  | S fuel =>
    match skipWhile isWs s with
    | [] => None
    | c :: rest =>
      if (c =? 34)%N then
        match chars rest with
        | Some (str, r) => Some (String str, r)
        | None => None
        end
      else if (c =? 91)%N then
        match skipWhile isWs rest with
        | 93%N :: r => Some (Array [], r)
        | _ =>
          match elements fuel rest with
          | Some (l, r) => Some (Array l, r)
          | None => None
          end
        end
      else if (c =? 123)%N then
        match skipWhile isWs rest with
        | 125%N :: r => Some (Object [], r)
        | _ =>
          match members fuel rest with
          | Some (l, r) => Some (Object l, r)
          | None => None
          end
        end
      else if startsWith (u "true") (c :: rest)
      then Some (Bool true, drop 4 (c :: rest))
      else if startsWith (u "false") (c :: rest)
      then Some (Bool false, drop 5 (c :: rest))
      else if startsWith (u "null") (c :: rest)
      then Some (Null, drop 4 (c :: rest))
      else
        match number (c :: rest) with
        | Some (n, r) => Some (Number n, r)
        | None => None
        end
    end
  end

(** The elements of an array, read after its opening bracket or after a
    comma, up to its closing bracket. *)
with elements (fuel : nat) (s : jsstring) : option (list json * jsstring) :=
  match fuel with
  | O => None
  | S fuel =>
    match value fuel s with
    | None => None
    | Some (v, r) =>
      match skipWhile isWs r with
      | 93%N :: r' => Some ([v], r')
      | 44%N :: r' =>
        match elements fuel r' with
        | Some (l, r'') => Some (v :: l, r'')
        | None => None
        end
      | _ => None
      end
    end
  end

(** The members of an object, likewise. *)
with members (fuel : nat) (s : jsstring)
  : option (list (jsstring * json) * jsstring) :=
  match fuel with
  | O => None
  | S fuel =>
    match skipWhile isWs s with
    | 34%N :: r0 =>
      match chars r0 with
      | None => None
      | Some (k, r1) =>
        match skipWhile isWs r1 with
        | 58%N :: r2 =>
          match value fuel r2 with
          | None => None
          | Some (v, r) =>
            match skipWhile isWs r with
            | 125%N :: r' => Some ([(k, v)], r')
            | 44%N :: r' =>
              match members fuel r' with
              | Some (l, r'') => Some ((k, v) :: l, r'')
              | None => None
              end
            | _ => None
            end
          end
        | _ => None
        end
      end
    | _ => None
    end
  end.

(** [JSON.parse(s)], [None] where it throws.  The reading is given fuel
    for two nested calls per code unit of the text. *)
Definition parse (s : jsstring) : option json :=
  match value (2 * length s + 2) s with
  | Some (v, r) =>
    match skipWhile isWs r with
    | [] => Some v
    | _ :: _ => None
    end
  | None => None
  end.

End JSON.

(** ** Values *)

(** What an expression of the component can evaluate to where a string is
    expected: a string, [undefined], or an object or function of the
    platform reached through the prototype of an object literal. *)
Inductive value : Type :=
| Str (s : jsstring)
| Undefined
| Inherited (property : jsstring).

Definition truthy (v : value) : bool :=
  match v with
  | Str [] => false
  | Str (_ :: _) => true
  | Undefined => false
  | Inherited _ => true
  end.

(** The properties every object literal inherits from [Object.prototype]. *)
Definition objectPrototype : list jsstring :=
  [u "constructor"; u "__defineGetter__"; u "__defineSetter__";
   u "hasOwnProperty"; u "__lookupGetter__"; u "__lookupSetter__";
   u "isPrototypeOf"; u "propertyIsEnumerable"; u "toString"; u "valueOf";
   u "__proto__"; u "toLocaleString"].

Fixpoint ownProperty (o : list (jsstring * jsstring)) (k : jsstring)
  : option jsstring :=
  match o with
  | [] => None
  | (k', v) :: o' => if bool_decide (k = k') then Some v else ownProperty o' k
  end.

(** [o[k]] for an object literal [o] with string-valued own properties. *)
Definition getProperty (o : list (jsstring * jsstring)) (k : jsstring) : value :=
  match ownProperty o k with
  | Some v => Str v
  | None => if bool_decide (k ∈ objectPrototype) then Inherited k else Undefined
  end.

(** ** File names of code blocks *)

(** [[a-zA-Z0-9._-]] *)
Definition nameUnit (c : N) : bool := alnum c || oneOf "._-" c.

(** [/\/\/\s*filename:\s*([a-zA-Z0-9._-]+)/i] *)
Definition filenameDirective : regex :=
  Cat (litI "//") (Cat (Many isSpace) (Cat (litI "filename:")
    (Cat (Many isSpace) (Group 1 (Some1 nameUnit))))).

Definition extMap : list (jsstring * jsstring) :=
  [(u "html", u "index.html"); (u "js", u "script.js");
   (u "css", u "style.css")].

Definition getFilenameFromCode (code lang : jsstring) : value :=
  match exec filenameDirective (firstPiece 10 code) with
  | Some found =>
    match capture 1 (groups found) with
    | Some name => Str name
    | None => Undefined
    end
  | None =>
    let byLang := getProperty extMap (toLowerCase lang) in
    if truthy byLang then byLang
    else Str (u "file." ++ match lang with [] => u "txt" | _ :: _ => lang end)
  end.


(** ** The data model *)

Module Role.
Inductive t : Type := user | model.
End Role.
Abbreviation Role := Role.t.

Module MediaType.
Inductive t : Type := image | text.
End MediaType.
Abbreviation MediaType := MediaType.t.

Module Busy.
Inductive t : Type := image | video.
End Busy.
Abbreviation Busy := Busy.t.

Module Source.
Inductive t : Type := bot | user.
End Source.
Abbreviation Source := Source.t.

Inductive PanelTab : Type := files | images | pano.

Global Instance Role_eq_dec : EqDecision Role.
Proof. solve_decision. Defined.
Global Instance MediaType_eq_dec : EqDecision MediaType.
Proof. solve_decision. Defined.
Global Instance Source_eq_dec : EqDecision Source.
Proof. solve_decision. Defined.

Module Message.
(** Modelled from the spec: the [Message] type of [types.ts], which is
    not part of the sources at hand.  A message has an identifier, a
    role, a text, a timestamp, an optional media URL and type, and
    optional grounding citations; a citation is a source reference.
    Timestamps are milliseconds since the epoch. *)
Record t : Type := Make {
  id : jsstring;
  role : Role;
  text : jsstring;
  timestamp : Z;
  mediaUrl : option jsstring;
  type : option MediaType;
  groundingChunks : option (list jsstring)
}.
End Message.
Abbreviation Message := Message.t.

Module Bot.
(** Modelled from the spec: the [Bot] type of [types.ts], which is not
    part of the sources at hand; the fields the component reads. *)
Record t : Type := Make {
  id : jsstring;
  name : jsstring;
  hasImageGen : bool
}.
End Bot.
Abbreviation Bot := Bot.t.

Module Attachment.
(** A pending file, by its name, with its preview URL, its payload in
    base 64 and its media type. *)
Record t : Type := Make {
  file : jsstring;
  preview : jsstring;
  base64 : jsstring;
  type : jsstring
}.
End Attachment.
Abbreviation Attachment := Attachment.t.

Module PanoNote.
(** A note.  The source tag is optional: the notes that the reload effect
    reads back keep the tag they were stored with, if any. *)
Record t : Type := Make {
  id : jsstring;
  text : jsstring;
  timestamp : Z;
  source : option Source
}.
End PanoNote.
Abbreviation PanoNote := PanoNote.t.

(** Modelled from the spec: the chat backend of [geminiService.ts], which
    is not part of the sources at hand.  A session is created from a bot
    definition, the prior turns and a model identifier; the streaming send
    calls back once per text fragment, with an optional citation list, and
    then resolves or rejects; image generation takes a prompt and returns
    a media URL or rejects. *)
Record Chat : Type := createBotChat {
  chatBot : Bot;
  chatHistory : list (Role * jsstring);
  chatModel : jsstring
}.

(** A thrown value, with its [message] property when it has one. *)
Record Thrown : Type := Throw { message : option jsstring }.

Inductive Payload : Type :=
| PlainText (userText : jsstring)
| Parts (textPart : jsstring) (inlineData : list (jsstring * jsstring)).

Inductive Request : Type :=
| SendMessage (session : Chat) (payload : Payload)
| GenerateImage (prompt : jsstring).

(** ** The state of the component *)

(** The route parameter, the [bots] property, the state variables the
    handlers below read or write, and the key-value storage of the
    browser. *)
Record State : Type := MkState {
  id : option jsstring;
  bots : list Bot;
  messages : list Message;
  input : jsstring;
  attachments : list Attachment;
  isLoading : bool;
  isGeneratingMedia : option Busy;
  chatSession : option Chat;
  selectedModel : jsstring;
  showResetModal : bool;
  isProjectPanelOpen : bool;
  activePanelTab : PanelTab;
  manualNoteText : jsstring;
  panoNotes : list PanoNote;
  localStorage : gmap jsstring jsstring
}.

Definition setMessages (f : list Message -> list Message) (s : State) : State :=
  MkState (id s) (bots s) (f (messages s)) (input s) (attachments s)
    (isLoading s) (isGeneratingMedia s) (chatSession s) (selectedModel s)
    (showResetModal s) (isProjectPanelOpen s) (activePanelTab s)
    (manualNoteText s) (panoNotes s) (localStorage s).

Definition setInput (v : jsstring) (s : State) : State :=
  MkState (id s) (bots s) (messages s) v (attachments s)
    (isLoading s) (isGeneratingMedia s) (chatSession s) (selectedModel s)
    (showResetModal s) (isProjectPanelOpen s) (activePanelTab s)
    (manualNoteText s) (panoNotes s) (localStorage s).

Definition setAttachments (v : list Attachment) (s : State) : State :=
  MkState (id s) (bots s) (messages s) (input s) v
    (isLoading s) (isGeneratingMedia s) (chatSession s) (selectedModel s)
    (showResetModal s) (isProjectPanelOpen s) (activePanelTab s)
    (manualNoteText s) (panoNotes s) (localStorage s).

Definition setIsLoading (v : bool) (s : State) : State :=
  MkState (id s) (bots s) (messages s) (input s) (attachments s)
    v (isGeneratingMedia s) (chatSession s) (selectedModel s)
    (showResetModal s) (isProjectPanelOpen s) (activePanelTab s)
    (manualNoteText s) (panoNotes s) (localStorage s).

Definition setIsGeneratingMedia (v : option Busy) (s : State) : State :=
  MkState (id s) (bots s) (messages s) (input s) (attachments s)
    (isLoading s) v (chatSession s) (selectedModel s)
    (showResetModal s) (isProjectPanelOpen s) (activePanelTab s)
    (manualNoteText s) (panoNotes s) (localStorage s).

Definition setChatSession (v : option Chat) (s : State) : State :=
  MkState (id s) (bots s) (messages s) (input s) (attachments s)
    (isLoading s) (isGeneratingMedia s) v (selectedModel s)
    (showResetModal s) (isProjectPanelOpen s) (activePanelTab s)
    (manualNoteText s) (panoNotes s) (localStorage s).

Definition setSelectedModel (v : jsstring) (s : State) : State :=
  MkState (id s) (bots s) (messages s) (input s) (attachments s)
    (isLoading s) (isGeneratingMedia s) (chatSession s) v
    (showResetModal s) (isProjectPanelOpen s) (activePanelTab s)
    (manualNoteText s) (panoNotes s) (localStorage s).

Definition setShowResetModal (v : bool) (s : State) : State :=
  MkState (id s) (bots s) (messages s) (input s) (attachments s)
    (isLoading s) (isGeneratingMedia s) (chatSession s) (selectedModel s)
    v (isProjectPanelOpen s) (activePanelTab s)
    (manualNoteText s) (panoNotes s) (localStorage s).

Definition setIsProjectPanelOpen (v : bool) (s : State) : State :=
  MkState (id s) (bots s) (messages s) (input s) (attachments s)
    (isLoading s) (isGeneratingMedia s) (chatSession s) (selectedModel s)
    (showResetModal s) v (activePanelTab s)
    (manualNoteText s) (panoNotes s) (localStorage s).

Definition setActivePanelTab (v : PanelTab) (s : State) : State :=
  MkState (id s) (bots s) (messages s) (input s) (attachments s)
    (isLoading s) (isGeneratingMedia s) (chatSession s) (selectedModel s)
    (showResetModal s) (isProjectPanelOpen s) v
    (manualNoteText s) (panoNotes s) (localStorage s).

Definition setManualNoteText (v : jsstring) (s : State) : State :=
  MkState (id s) (bots s) (messages s) (input s) (attachments s)
    (isLoading s) (isGeneratingMedia s) (chatSession s) (selectedModel s)
    (showResetModal s) (isProjectPanelOpen s) (activePanelTab s)
    v (panoNotes s) (localStorage s).

Definition setPanoNotes (f : list PanoNote -> list PanoNote) (s : State) : State :=
  MkState (id s) (bots s) (messages s) (input s) (attachments s)
    (isLoading s) (isGeneratingMedia s) (chatSession s) (selectedModel s)
    (showResetModal s) (isProjectPanelOpen s) (activePanelTab s)
    (manualNoteText s) (f (panoNotes s)) (localStorage s).

Definition withStorage (f : gmap jsstring jsstring -> gmap jsstring jsstring)
  (s : State) : State :=
  MkState (id s) (bots s) (messages s) (input s) (attachments s)
    (isLoading s) (isGeneratingMedia s) (chatSession s) (selectedModel s)
    (showResetModal s) (isProjectPanelOpen s) (activePanelTab s)
    (manualNoteText s) (panoNotes s) (f (localStorage s)).

(** Navigation to another bot changes the route parameter. *)
Definition navigate (v : option jsstring) (s : State) : State :=
  MkState v (bots s) (messages s) (input s) (attachments s)
    (isLoading s) (isGeneratingMedia s) (chatSession s) (selectedModel s)
    (showResetModal s) (isProjectPanelOpen s) (activePanelTab s)
    (manualNoteText s) (panoNotes s) (localStorage s).

(** [bots.find(b => b.id === id)] *)
Definition currentBot (s : State) : option Bot :=
  match id s with
  | Some i => List.find (fun b => bool_decide (Bot.id b = i)) (bots s)
  | None => None
  end.

(** A value interpolated in a template literal. *)
Definition interpolate (v : option jsstring) : jsstring :=
  match v with
  | Some i => i
  | None => u "undefined"
  end.

Definition CHAT_STORAGE_KEY (i : option jsstring) : jsstring :=
  u "geminihub_chat_history_" ++ interpolate i.
Definition MODEL_STORAGE_KEY (i : option jsstring) : jsstring :=
  u "geminihub_selected_model_" ++ interpolate i.
Definition PANO_STORAGE_KEY (i : option jsstring) : jsstring :=
  u "geminihub_pano_" ++ interpolate i.

(** ** Generation directives *)

(** [/\[GENERATE_(IMAGE|VIDEO):\s*.*?\]/g] *)
Definition generationDirective : regex :=
  Cat (lit "[GENERATE_") (Cat (Group 1 (Or (lit "IMAGE") (lit "VIDEO")))
    (Cat (chr ":") (Cat (Many isSpace) (Cat (Few dot) (chr "]"))))).

(** [/\[GENERATE_IMAGE:\s*(.*?)\]/] *)
Definition imageDirective : regex :=
  Cat (lit "[GENERATE_IMAGE:") (Cat (Many isSpace)
    (Cat (Group 1 (Few dot)) (chr "]"))).

(** [text.replace(/\[GENERATE_(IMAGE|VIDEO):\s*.*?\]/g, '').trim()] *)
Definition cleanText (t : jsstring) : jsstring :=
  trim (removeAll generationDirective t).

(** ** Notes *)

Definition handleSaveToPano (now date : Z) (t : jsstring) (s : State) : State :=
  let cleanText := cleanText t in
  match cleanText with
  | [] => s
  | _ :: _ =>
    let s := setPanoNotes
      (fun prev => PanoNote.Make (toString now) cleanText date (Some Source.bot)
                   :: prev) s in
    let s := setIsProjectPanelOpen true s in
    setActivePanelTab pano s
  end.

Definition handleManualNoteSave (now date : Z) (s : State) : State :=
  match trim (manualNoteText s) with
  | [] => s
  | _ :: _ =>
    let s := setPanoNotes
      (fun prev => PanoNote.Make (toString now) (trim (manualNoteText s)) date
                     (Some Source.user) :: prev) s in
    setManualNoteText [] s
  end.

(** ** Sending *)

(** 'API kotası doldu. Lütfen bekleyin.' *)
Definition quotaExceeded : jsstring :=
  u "API kotas" ++ [0x131%N] ++ u " doldu. L" ++ [0xFC%N] ++ u "tfen bekleyin.".

(** 'Bağlantı hatası oluştu.' *)
Definition connectionError : jsstring :=
  u "Ba" ++ [0x11F%N] ++ u "lant" ++ [0x131%N] ++ u " hatas" ++ [0x131%N]
  ++ u " olu" ++ [0x15F%N] ++ u "tu.".

(** 'Görsel üretildi.' *)
Definition imageProduced : jsstring :=
  u "G" ++ [0xF6%N] ++ u "rsel " ++ [0xFC%N] ++ u "retildi.".

(** What the outside world does during one send: the clock readings taken
    for the two messages, the fragments the chat backend streams with the
    citations that come with each, how the stream ends, and, if an image
    is asked for, how its generation ends and the clock readings taken for
    its message. *)
Record Outside : Type := MkOutside {
  nowUser : Z;             (* Date.now() of the user message *)
  dateUser : Z;            (* new Date() of the user message *)
  nowBot : Z;              (* Date.now() of the placeholder *)
  dateBot : Z;             (* new Date() of the placeholder *)
  chunks : list (jsstring * option (list jsstring));
  rejected : option Thrown;
  generated : Thrown + jsstring;
  nowImage : Z;
  dateImage : Z
}.

(** The guard of [send]: true when [send] returns at once. *)
Definition sendRefused (s : State) : bool :=
  (bool_decide (trim (input s) = []) && bool_decide (length (attachments s) = 0))
  || bool_decide (chatSession s = None) || isLoading s.

Definition userMessage (now date : Z) (userText : jsstring)
  (currentAttachments : list Attachment) : Message :=
  Message.Make (toString now) Role.user userText date
    (Attachment.preview <$> head currentAttachments)
    (Some (match head currentAttachments with
           | Some a =>
             if startsWith (u "image") (Attachment.type a)
             then MediaType.image else MediaType.text
           | None => MediaType.text
           end))
    None.

Definition placeholder (botMsgId : jsstring) (date : Z) : Message :=
  Message.Make botMsgId Role.model [] date None None (Some []).

(** The synchronous part of [send], up to the request. *)
Definition sendBegin (w : Outside) (s : State) : State :=
  let userText := input s in
  let currentAttachments := attachments s in
  let s := setIsLoading true (setAttachments [] (setInput [] s)) in
  let userMsg := userMessage (nowUser w) (dateUser w) userText currentAttachments in
  let s := setMessages (fun prev => prev ++ [userMsg]) s in
  let botMsgId := toString (nowBot w + 1) in
  setMessages (fun prev => prev ++ [placeholder botMsgId (dateBot w)]) s.

Definition buildPayload (userText : jsstring)
  (currentAttachments : list Attachment) : Payload :=
  match currentAttachments with
  | [] => PlainText userText
  | _ :: _ =>
    Parts (match userText with [] => u "Analiz et." | _ :: _ => userText end)
          (List.map (fun a => (Attachment.base64 a, Attachment.type a))
                    currentAttachments)
  end.

(** The streaming callback: [fullText] is the variable of the closure. *)
Definition onChunk (botMsgId : jsstring) (acc : jsstring * State)
  (c : jsstring * option (list jsstring)) : jsstring * State :=
  let fullText := acc.1 ++ c.1 in
  (fullText,
   setMessages
     (List.map (fun m =>
        if bool_decide (Message.id m = botMsgId)
        then Message.Make (Message.id m) (Message.role m) fullText
               (Message.timestamp m) (Message.mediaUrl m) (Message.type m)
               (match c.2 with
                | Some grounding => Some grounding
                | None => Message.groundingChunks m
                end)
        else m))
     acc.2).

(** The [catch] clause. *)
Definition sendFailed (botMsgId : jsstring) (e : Thrown) (s : State) : State :=
  let errorMsg :=
    if bool_decide (message e = Some (u "SYSTEM_BUSY"))
    then quotaExceeded else connectionError in
  setMessages
    (List.map (fun m =>
       if bool_decide (Message.id m = botMsgId)
       then Message.Make (Message.id m) (Message.role m) errorMsg
              (Message.timestamp m) (Message.mediaUrl m) (Message.type m)
              (Message.groundingChunks m)
       else m))
    s.

Definition imageMessage (now date : Z) (url : jsstring) : Message :=
  Message.Make (toString now) Role.model imageProduced date (Some url)
    (Some MediaType.image) None.

(** What follows the stream when it resolves. *)
Definition afterStream (w : Outside) (botMsgId fullText : jsstring) (s : State)
  : State * list Request :=
  match exec imageDirective fullText with
  | Some imgMatch =>
    if match currentBot s with Some b => Bot.hasImageGen b | None => false end
    then
      let prompt := default [] (capture 1 (groups imgMatch)) in
      let s := setIsGeneratingMedia (Some Busy.image) s in
      match generated w with
      | inr url =>
        let s := setMessages
          (fun prev => prev ++ [imageMessage (nowImage w) (dateImage w) url]) s in
        (setIsGeneratingMedia None s, [GenerateImage prompt])
      | inl e => (sendFailed botMsgId e s, [GenerateImage prompt])
      end
    else (s, [])
  | None => (s, [])
  end.

(** [send], run to the end: the state it leaves and the requests it
    issued. *)
Definition send (w : Outside) (s : State) : State * list Request :=
  if sendRefused s then (s, [])
  else
    match chatSession s with
    | None => (s, [])
    | Some session =>
      let userText := input s in
      let currentAttachments := attachments s in
      let botMsgId := toString (nowBot w + 1) in
      let s := sendBegin w s in
      let payload := buildPayload userText currentAttachments in
      let streamed := foldl (onChunk botMsgId) ([], s) (chunks w) in
      let fullText := streamed.1 in
      let s := streamed.2 in
      let done :=
        match rejected w with
        | Some e => (sendFailed botMsgId e s, [])
        | None => afterStream w botMsgId fullText s
        end in
      (setIsLoading false done.1, SendMessage session payload :: done.2)
    end.

(** ** Reset *)

(** The confirm button of the reset dialog. *)
Definition confirmReset (s : State) : State :=
  let s := setMessages (fun _ => []) s in
  let s := withStorage (delete (CHAT_STORAGE_KEY (id s))) s in
  setShowResetModal false s.

(** ** Rendering *)

(** [/(```[\s\S]*?```)/g] *)
Definition fencedRegion : regex :=
  Group 1 (Cat (lit "```") (Cat (Few anyUnit) (lit "```"))).

(** [/```(\w+)?\n?([\s\S]*?)```/] *)
Definition codeBlock : regex :=
  Cat (lit "```") (Cat (Maybe (Group 1 (Some1 isWord)))
    (Cat (Maybe (Class (N.eqb 10))) (Cat (Group 2 (Few anyUnit)) (lit "```")))).

(** [/\[([^\]]+)\]\(([^)]+)\)/] *)
Definition markdownLink : regex :=
  Cat (chr "[") (Cat (Group 1 (Some1 (fun c => negb (c =? 93)%N)))
    (Cat (lit "](") (Cat (Group 2 (Some1 (fun c => negb (c =? 41)%N)))
      (chr ")")))).

(** The pattern [combinedRegex] of [renderFormattedLines]: bold, italic,
    a markdown link to an http(s) address, or a bare address that runs up
    to punctuation, white space or the end of the line.  The code unit 34
    is the double quote and 39 the single quote. *)
Definition combinedRegex : regex :=
  Group 1
    (Or (Cat (lit "**") (Cat (Few dot) (lit "**")))
    (Or (Cat (chr "*") (Cat (Few dot) (chr "*")))
    (Or (Cat (chr "[") (Cat (Some1 (fun c => negb (c =? 93)%N))
          (Cat (lit "](http") (Cat (Maybe (chr "s")) (Cat (lit "://")
            (Cat (Some1 (fun c => negb (isSpace c) && negb (c =? 41)%N))
                 (chr ")")))))))
        (Cat (Or (Cat (lit "http") (Cat (Maybe (chr "s")) (lit "://")))
                 (lit "www."))
          (Cat (Some1 (fun c => alnum c || (c =? 45)%N))
          (Cat (chr ".")
          (Cat (Some1 (fun c => alnum c || oneOf ".-" c))
          (Cat (Few (fun c => negb (isSpace c || oneOf ",<>" c || (c =? 34)%N)))
               (Ahead (Or (Class (fun c => oneOf ",.!?:;" c || (c =? 39)%N
                                           || (c =? 34)%N || isSpace c))
                          EndOfInput)))))))))).

Inductive Inline : Type :=
| Strong (content : jsstring)
| Em (content : jsstring)
| Link (href : jsstring) (label : jsstring)
| BareLink (href : jsstring) (label : jsstring)
| Plain (content : jsstring).

Record Line : Type := MkLine {
  className : jsstring;
  spans : list Inline
}.

(** [s.endsWith(p)] *)
Definition endsWith (p s : jsstring) : bool := startsWith (rev p) (rev s).

(** [s.slice(n, -n)] *)
Definition sliceBoth (n : nat) (s : jsstring) : jsstring :=
  take (length s - n - n) (drop n s).

Definition renderSpan (part : jsstring) : option Inline :=
  match part with
  | [] => None
  | _ :: _ =>
    if startsWith (u "**") part && endsWith (u "**") part
    then Some (Strong (sliceBoth 2 part))
    else if startsWith (u "*") part && endsWith (u "*") part
    then Some (Em (sliceBoth 1 part))
    else if startsWith (u "[") part && includes (u "](") part
    then match exec markdownLink part with
         | Some m =>
           Some (Link (default [] (capture 2 (groups m)))
                      (default [] (capture 1 (groups m))))
         | None => Some (Plain part)
         end
    else if startsWith (u "http") part || startsWith (u "www.") part
    then Some (BareLink (if startsWith (u "www.") part
                         then u "https://" ++ part else part) part)
    else Some (Plain part)
  end.

Definition renderLine (line : jsstring) : Line :=
  let headed :=
    if startsWith (u "### ") line
    then (drop 4 line, u "mb-1.5 block" ++ u " font-bold text-black")
    else if startsWith (u "## ") line
    then (drop 3 line, u "mb-1.5 block"
            ++ u " font-extrabold text-black border-b border-zinc-50 pb-1 mb-2")
    else if startsWith (u "# ") line
    then (drop 2 line, u "mb-1.5 block" ++ u " font-black text-black text-lg mb-3")
    else (line, u "mb-1.5 block") in
  MkLine headed.2 (omap renderSpan (split combinedRegex headed.1)).

Definition renderFormattedLines (t : jsstring) : list Line :=
  List.map renderLine (splitOn 10 t).

Inductive Block : Type :=
| CodeBlock (blockId : jsstring) (label : value) (expanded : option jsstring)
| Formatted (lines : list Line).

Inductive Rendered : Type :=
| Pending
| Content (userMedia : option jsstring) (blocks : list Block)
          (modelMedia : option jsstring).

(** One element of [parts], at index [i]. *)
Definition renderPart (expandedBlocks : list jsstring) (msgId : jsstring)
  (i : nat) (part : jsstring) : Block :=
  match exec codeBlock part with
  | Some codeMatch =>
    let blockId := msgId ++ u "-" ++ toString (Z.of_nat i) in
    let code := default [] (capture 2 (groups codeMatch)) in
    let lang := match capture 1 (groups codeMatch) with
                | Some ((_ :: _) as l) => l
                | _ => u "code"
                end in
    CodeBlock blockId (getFilenameFromCode code lang)
      (if bool_decide (blockId ∈ expandedBlocks) then Some (trim code) else None)
  | None => Formatted (renderFormattedLines part)
  end.

(** A media URL that is shown: one that is present and not empty. *)
Definition shown (url : option jsstring) : option jsstring :=
  match url with
  | Some (_ :: _) => url
  | _ => None
  end.

Definition renderMessageContent (isLoading : bool)
  (expandedBlocks : list jsstring) (msg : Message) : Rendered :=
  if bool_decide (Message.text msg = []) && isLoading
     && bool_decide (Message.role msg = Role.model)
  then Pending
  else
    let cleanText := cleanText (Message.text msg) in
    let parts := split fencedRegion cleanText in
    Content
      (if bool_decide (Message.role msg = Role.user)
       then shown (Message.mediaUrl msg) else None)
      (imap (renderPart expandedBlocks (Message.id msg)) parts)
      (if bool_decide (Message.role msg = Role.model)
          && bool_decide (Message.type msg = Some MediaType.image)
       then shown (Message.mediaUrl msg) else None).

(** ** Persistence *)

(** What the component does with a parsed text, and the writing of its
    two lists.  [asMessages] and [asNotes] stand for the [.map(...)] that
    follows [JSON.parse], which takes the elements of the parsed value as
    messages or notes without any check and revives their timestamps;
    they are [None] where that throws (the value is not an array, an
    element is [null]).  [stringifyMessages] and [stringifyNotes] are
    [JSON.stringify] on the two lists. *)
Class Codec : Type := MkCodec {
  asMessages : JSON.json -> option (list Message);
  asNotes : JSON.json -> option (list PanoNote);
  stringifyMessages : list Message -> jsstring;
  stringifyNotes : list PanoNote -> jsstring
}.

Section Persistence.

Context `{Codec}.

(** [localStorage.getItem(k)] followed by the test [if (saved)]: an
    absent entry and an empty string are both passed over. *)
Definition getSaved (storage : gmap jsstring jsstring) (k : jsstring)
  : option jsstring :=
  match storage !! k with
  | Some ((_ :: _) as saved) => Some saved
  | _ => None
  end.

(** [JSON.parse(saved).map(...)] on a chat history, [None] when it
    throws. *)
Definition parseMessages (saved : jsstring) : option (list Message) :=
  match JSON.parse saved with
  | Some v => asMessages v
  | None => None
  end.

Definition parseNotes (saved : jsstring) : option (list PanoNote) :=
  match JSON.parse saved with
  | Some v => asNotes v
  | None => None
  end.

(** The initializer of [messages]. *)
Definition initialMessages (storage : gmap jsstring jsstring)
  (i : option jsstring) : list Message :=
  match getSaved storage (CHAT_STORAGE_KEY i) with
  | Some saved =>
    match parseMessages saved with
    | Some l => l
    | None => []
    end
  | None => []
  end.

(** The initializer of [panoNotes]; a note without a source counts as a
    note of the bot. *)
Definition initialPanoNotes (storage : gmap jsstring jsstring)
  (i : option jsstring) : list PanoNote :=
  match getSaved storage (PANO_STORAGE_KEY i) with
  | Some saved =>
    match parseNotes saved with
    | Some l =>
      List.map (fun n => PanoNote.Make (PanoNote.id n) (PanoNote.text n)
                  (PanoNote.timestamp n)
                  (Some (default Source.bot (PanoNote.source n)))) l
    | None => []
    end
  | None => []
  end.

(** The initializer of [selectedModel]. *)
Definition initialModel (storage : gmap jsstring jsstring)
  (i : option jsstring) : jsstring :=
  default (u "gemini-3-pro-preview") (getSaved storage (MODEL_STORAGE_KEY i)).

(** The state of the component when it is mounted. *)
Definition mount (i : option jsstring) (bots : list Bot)
  (storage : gmap jsstring jsstring) : State :=
  MkState i bots (initialMessages storage i) [] [] false None None
    (initialModel storage i) false false files [] (initialPanoNotes storage i)
    storage.

Definition initMessage (b : Bot) (date : Z) : Message :=
  Message.Make (u "init") Role.model
    (u "Session initialized for " ++ Bot.name b ++ u ".") date None None None.

(** The effect on [[id, bot]] that reloads the three stored items. *)
Definition rehydrate (date : Z) (s : State) : State :=
  match currentBot s with
  | None => s
  | Some b =>
    let s :=
      match getSaved (localStorage s) (CHAT_STORAGE_KEY (id s)) with
      | Some savedChat =>
        match parseMessages savedChat with
        | Some l => setMessages (fun _ => l) s
        | None => setMessages (fun _ => [initMessage b date]) s
        end
      | None => setMessages (fun _ => [initMessage b date]) s
      end in
    let s :=
      match getSaved (localStorage s) (PANO_STORAGE_KEY (id s)) with
      | Some savedPano =>
        match parseNotes savedPano with
        | Some l => setPanoNotes (fun _ => l) s
        | None => s
        end
      | None => s
      end in
    match getSaved (localStorage s) (MODEL_STORAGE_KEY (id s)) with
    | Some savedModel => setSelectedModel savedModel s
    | None => s
    end
  end.

(** 'kotası doldu' *)
Definition quotaMark : jsstring := u "kotas" ++ [0x131%N] ++ u " doldu".

(** The effect on [[bot, id, selectedModel]] that opens a chat session. *)
Definition openChatSession (s : State) : State :=
  match currentBot s with
  | None => s
  | Some b =>
    let history :=
      List.map (fun m => (Message.role m, Message.text m))
        (List.filter
           (fun m => negb (bool_decide (Message.id m = u "init"))
                     && negb (bool_decide (Message.text m = []))
                     && negb (includes quotaMark (Message.text m)))
           (messages s)) in
    setChatSession (Some (createBotChat b history (selectedModel s))) s
  end.

(** The effect on [[messages, id]] that saves the chat history.
    [writable] tells whether [localStorage.setItem] succeeds; when it
    throws, the exception is swallowed. *)
Definition persistHistory (writable : bool) (s : State) : State :=
  match messages s with
  | [] => s
  | _ :: _ =>
    if writable
    then withStorage
           (insert (CHAT_STORAGE_KEY (id s)) (stringifyMessages (messages s))) s
    else s
  end.

(** The effect on [[selectedModel, panoNotes, id]] that saves the model
    and the notes; it does nothing for an absent or empty [id]. *)
Definition persistSettings (s : State) : State :=
  match id s with
  | Some (_ :: _) =>
    let s := withStorage (insert (MODEL_STORAGE_KEY (id s)) (selectedModel s)) s in
    withStorage (insert (PANO_STORAGE_KEY (id s)) (stringifyNotes (panoNotes s))) s
  | _ => s
  end.

(** ** The component as a transition system *)

(** What can happen to a mounted component: a user action, an effect run
    by the framework, or a step of a send in flight.  The steps of a send
    carry the variables of its closure. *)
Inductive event : Type :=
| Navigate (i : option jsstring)
| Rehydrate (date : Z)
| OpenChatSession
| PersistHistory (writable : bool)
| PersistSettings
| TypeInput (v : jsstring)
| Attach (a : Attachment)
| TypeNote (v : jsstring)
| SelectModel (m : jsstring)
| SaveToPano (now date : Z) (t : jsstring)
| ManualNoteSave (now date : Z)
| AskReset
| CancelReset
| ConfirmReset
| SendBegin (w : Outside)
| Chunk (botMsgId fullText : jsstring) (c : jsstring * option (list jsstring))
| Failed (botMsgId : jsstring) (e : Thrown)
| ImageStarted
| ImageReady (now date : Z) (url : jsstring)
| Settled.

Definition step (s : State) (e : event) : State :=
  match e with
  | Navigate i => navigate i s
  | Rehydrate date => rehydrate date s
  | OpenChatSession => openChatSession s
  | PersistHistory writable => persistHistory writable s
  | PersistSettings => persistSettings s
  | TypeInput v => setInput v s
  | Attach a => setAttachments (attachments s ++ [a]) s
  | TypeNote v => setManualNoteText v s
  | SelectModel m => setSelectedModel m s
  | SaveToPano now date t => handleSaveToPano now date t s
  | ManualNoteSave now date => handleManualNoteSave now date s
  | AskReset => setShowResetModal true s
  | CancelReset => setShowResetModal false s
  | ConfirmReset => confirmReset s
  | SendBegin w => if sendRefused s then s else sendBegin w s
  | Chunk botMsgId fullText c => (onChunk botMsgId (fullText, s) c).2
  | Failed botMsgId e => sendFailed botMsgId e s
  | ImageStarted => setIsGeneratingMedia (Some Busy.image) s
  | ImageReady now date url =>
    setIsGeneratingMedia None
      (setMessages (fun prev => prev ++ [imageMessage now date url]) s)
  | Settled => setIsLoading false s
  end.

Definition steps (s : State) (evs : list event) : State := foldl step s evs.

End Persistence.

(** ** Vocabulary of the properties *)

(** The text assembled from a list of fragments. *)
Definition assembled (cs : list (jsstring * option (list jsstring))) : jsstring :=
  concat cs.*1.

(** The exception that [send] catches, if any: the rejection of the
    stream, or else the rejection of the image generation when the
    assembled text asks for an image and the bot can generate one. *)
Definition caught (w : Outside) (s : State) : option Thrown :=
  match rejected w with
  | Some e => Some e
  | None =>
    match exec imageDirective (assembled (chunks w)), currentBot s,
          generated w with
    | Some _, Some b, inl e => if Bot.hasImageGen b then Some e else None
    | _, _, _ => None
    end
  end.

(** ** Concrete inputs *)

Definition sampleBot : Bot := Bot.Make (u "b1") (u "Helper") true.

Definition sampleSession : Chat :=
  createBotChat sampleBot [] (u "gemini-3-pro-preview").

(** A mounted component with a live session, an empty history and the
    given text in the input field. *)
Definition sampleState (typed : jsstring) : State :=
  MkState (Some (u "b1")) [sampleBot] [] typed [] false None
    (Some sampleSession) (u "gemini-3-pro-preview") false false files [] []
    ∅.

(** A send at time 1000 whose stream delivers the given fragments. *)
Definition sampleOutside (fragments : list jsstring) (rejected : option Thrown)
  : Outside :=
  MkOutside 1000 1000 1000 1000 ((fun f => (f, None)) <$> fragments) rejected
    (inr (u "blob:1")) 5000 5000.

(** ** What a pattern matches *)

(** [Matches r a rest]: the pattern [r] can match the code units [a] when
    [rest] follows them in the input. *)
Inductive Matches : regex -> jsstring -> jsstring -> Prop :=
| MEmpty rest : Matches Empty [] rest
| MClass p x rest : p x = true -> Matches (Class p) [x] rest
| MCat r1 r2 a b rest :
    Matches r1 a (b ++ rest) -> Matches r2 b rest ->
    Matches (Cat r1 r2) (a ++ b) rest
| MOrL r1 r2 a rest : Matches r1 a rest -> Matches (Or r1 r2) a rest
| MOrR r1 r2 a rest : Matches r2 a rest -> Matches (Or r1 r2) a rest
| MMaybeYes r a rest : Matches r a rest -> Matches (Maybe r) a rest
| MMaybeNo r rest : Matches (Maybe r) [] rest
| MMany p a rest : forallb p a = true -> Matches (Many p) a rest
| MFew p a rest : forallb p a = true -> Matches (Few p) a rest
| MGroup i r a rest : Matches r a rest -> Matches (Group i r) a rest
| MAhead r a rest : Matches r a rest -> Matches (Ahead r) [] (a ++ rest)
| MEnd : Matches EndOfInput [] [].

(** ** Generation directives, declaratively *)

(** A generation directive: the opening ['[GENERATE_IMAGE:'] or
    ['[GENERATE_VIDEO:'], then, up to the first [']'], a text that has no
    line terminator once its leading white space is dropped. *)
Definition Directive (d : jsstring) : Prop :=
  exists opening inner,
    d = opening ++ inner ++ [93%N]
    /\ (opening = u "[GENERATE_IMAGE:" \/ opening = u "[GENERATE_VIDEO:")
    /\ (93%N ∉ inner)
    /\ forallb dot (dropSpaces inner) = true.

(** The first [']'] of a text, when only units that [.] matches come
    before it. *)
Fixpoint closingBracket (s : jsstring) : option nat :=
  match s with
  | [] => None
  | x :: s' =>
    if (x =? 93)%N then Some 0
    else if dot x then S <$> closingBracket s' else None
  end.

(** The length of the directive at the head of a text, if there is
    one. *)
Definition directiveLength (s : jsstring) : option nat :=
  if startsWith (u "[GENERATE_IMAGE:") s || startsWith (u "[GENERATE_VIDEO:") s
  then
    let body := dropSpaces (drop 16 s) in
    (fun j => length s - length body + S j) <$> closingBracket body
  else None.

(** [Stripped t r]: [r] is [t] read from left to right with every
    directive met on the way left out. *)
Inductive Stripped : jsstring -> jsstring -> Prop :=
| StrippedEnd : Stripped [] []
| StrippedDirective d rest r :
    Directive d -> Stripped rest r -> Stripped (d ++ rest) r
| StrippedUnit x t r :
    (forall d rest, x :: t = d ++ rest -> ~ Directive d) ->
    Stripped t r -> Stripped (x :: t) (x :: r).

(** ** File-name directives, declaratively *)

(** [startsWith] up to the case of the ASCII letters. *)
Fixpoint startsWithI (p s : jsstring) : bool :=
  match p, s with
  | [], _ => true
  | _ :: _, [] => false
  | a :: p', b :: s' => (upperUnit b =? upperUnit a)%N && startsWithI p' s'
  end.

(** The name given by a directive that starts at the head of a line:
    two slashes, optional white space, the word [filename:] in any case,
    optional white space, and then the name, the longest run of letters,
    digits, dots, underscores and hyphens, which must not be empty. *)
Definition directiveAt (l : jsstring) : option jsstring :=
  if startsWithI (u "//") l then
    let l1 := dropSpaces (drop 2 l) in
    if startsWithI (u "filename:") l1 then
      match dropSpaces (drop 9 l1) with
      | x :: l3 => if nameUnit x then Some (x :: takeWhile nameUnit l3) else None
      | [] => None
      end
    else None
  else None.

(** The name given by the first directive of a line. *)
Fixpoint directiveIn (l : jsstring) : option jsstring :=
  match directiveAt l with
  | Some name => Some name
  | None =>
    match l with
    | [] => None
    | _ :: l' => directiveIn l'
    end
  end.

(** ** Fenced regions, declaratively *)

Definition ticks : jsstring := u "```".

(** [s.indexOf(t)] *)
Fixpoint indexOf (t s : jsstring) : option nat :=
  if startsWith t s then Some 0
  else match s with
       | [] => None
       | _ :: s' => S <$> indexOf t s'
       end.

(** A fenced region: an opening fence, a body, and the closing fence,
    which is the first fence met after the opening one. *)
Definition Fence (f : jsstring) : Prop :=
  exists body,
    f = ticks ++ body ++ ticks
    /\ indexOf ticks (body ++ ticks) = Some (length body).

(** A text that holds a pair of fences, one after the other. *)
Definition HasFencePair (p : jsstring) : Prop :=
  exists a b c, p = a ++ ticks ++ b ++ ticks ++ c.

(** The length of the fenced region at the head of a text, if there is
    one. *)
Definition fenceLength (s : jsstring) : option nat :=
  if startsWith ticks s
  then (fun i => i + 6) <$> indexOf ticks (drop 3 s)
  else None.

(** The parts of a split text: pieces without a pair of fences, with a
    fenced region between each two of them. *)
Inductive FencedPieces : list jsstring -> Prop :=
| FencedLast t : ~ HasFencePair t -> FencedPieces [t]
| FencedCons gap f parts :
    ~ HasFencePair gap -> Fence f -> FencedPieces parts ->
    FencedPieces (gap :: f :: parts).

(** ** Identifiers and the clock *)

(** An identifier issued up to the clock reading [hi]: that of the
    opening message, or the decimal form of a reading up to [hi]. *)
Definition issued (hi : Z) (i : jsstring) : Prop :=
  i = u "init" \/ exists n, i = toString n /\ (n <= hi)%Z.

(** The identifiers of a message list are distinct and were issued up to
    [hi]. *)
Definition UniqueIds (hi : Z) (l : list Message) : Prop :=
  NoDup (Message.id <$> l) /\ Forall (fun m => issued hi (Message.id m)) l.


Section Discipline.

Context `{Codec}.

(** A run in which the clock readings taken for identifiers increase:
    the reading of a user message is later than every identifier issued
    before, that of its placeholder is not earlier, that of an image
    message is later than the identifier of the placeholder; and in which
    every stored history that is reloaded has distinct identifiers,
    issued before. *)
Fixpoint disciplined (hi : Z) (s : State) (evs : list event) : Prop :=
  match evs with
  | [] => True
  | e :: evs' =>
    let s' := step s e in
    match e with
    | SendBegin w =>
      (hi < nowUser w <= nowBot w)%Z /\ disciplined (nowBot w + 1) s' evs'
    | ImageReady now _ _ => (hi < now)%Z /\ disciplined now s' evs'
    | Rehydrate _ =>
      (forall saved l,
         getSaved (localStorage s) (CHAT_STORAGE_KEY (id s)) = Some saved ->
         parseMessages saved = Some l -> UniqueIds hi l)
      /\ disciplined hi s' evs'
    | _ => disciplined hi s' evs'
    end
  end.

End Discipline.

(** A codec for trying the properties on stored texts that do not parse:
    no parsed value is ever read back, and what is written is a fixed
    text. *)
Definition opaqueCodec : Codec :=
  MkCodec (fun _ => None) (fun _ => None) (fun _ => u "[...]") (fun _ => u "[...]").

(** The sample state with a broken chat history in the storage. *)
Definition brokenHistory : State :=
  withStorage (insert (CHAT_STORAGE_KEY (Some (u "b1"))) (u "{oops"))
    (sampleState []).

(** A reply with a closed fenced region followed by a lone fence. *)
Definition sampleReply : Message :=
  Message.Make (u "7") Role.model
    (u "a```js" ++ [10%N] ++ u "x```b```c") 0 None None None.

(** The same state with, besides, a stored history for another bot. *)
Definition twoHistories : State :=
  withStorage (insert (CHAT_STORAGE_KEY (Some (u "b2"))) (u "[]"))
    brokenHistory.

(** * The rest of the component *)

(** ** Artifacts *)

Module ProjectGroup.
Record t : Type := Make {
  id : jsstring;
  title : jsstring;
  files : gmap jsstring jsstring;
  timestamp : Z
}.
End ProjectGroup.
Abbreviation ProjectGroup := ProjectGroup.t.

(** A value used as a property key: a string is its own key, the object
    [Object.prototype] is ['[object Object]'], and a function of the
    platform is the text of its source. *)
Definition propertyKey (v : value) : jsstring :=
  match v with
  | Str s => s
  | Undefined => u "undefined"
  | Inherited p =>
    if bool_decide (p = u "__proto__") then u "[object Object]"
    else u "function "
         ++ (if bool_decide (p = u "constructor") then u "Object" else p)
         ++ u "() { [native code] }"
  end.

(** [files[k] = v] on an object literal: the key ['__proto__'] names the
    prototype, and giving it a string leaves the object as it is. *)
Definition assign (files : gmap jsstring jsstring) (k v : jsstring)
  : gmap jsstring jsstring :=
  if bool_decide (k = u "__proto__") then files else <[k := v]> files.

(** The files of one message: [currentFiles] once every part is read. *)
Definition currentFiles (t : jsstring) : gmap jsstring jsstring :=
  foldl
    (fun files part =>
       match exec codeBlock part with
       | Some found =>
         let lang := toLowerCase (default [] (capture 1 (groups found))) in
         let content := trim (default [] (capture 2 (groups found))) in
         let fileName := getFilenameFromCode content lang in
         assign files (propertyKey fileName) content
       | None => files
       end)
    ∅ (split fencedRegion t).

(** One turn of the loop over the messages. *)
Definition addGroup (groups : list ProjectGroup) (msg : Message)
  : list ProjectGroup :=
  if bool_decide (Message.role msg = Role.model)
     && includes (u "```") (Message.text msg)
  then
    let files := currentFiles (Message.text msg) in
    if bool_decide (files = ∅) then groups
    else groups
         ++ [ProjectGroup.Make (Message.id msg)
               (u "Artifact #" ++ toString (Z.of_nat (length groups) + 1))
               files (Message.timestamp msg)]
  else groups.

Definition projectGroups (messages : list Message) : list ProjectGroup :=
  rev (foldl addGroup [] messages).

(** ** Gallery *)

Module GalleryImage.
Record t : Type := Make {
  id : jsstring;
  url : jsstring;
  timestamp : Z
}.
End GalleryImage.
Abbreviation GalleryImage := GalleryImage.t.

Definition generatedImages (messages : list Message) : list GalleryImage :=
  rev (List.map
         (fun m => GalleryImage.Make (Message.id m)
                     (default [] (Message.mediaUrl m)) (Message.timestamp m))
         (List.filter
            (fun m => bool_decide (Message.type m = Some MediaType.image)
                      && bool_decide (shown (Message.mediaUrl m) <> None))
            messages)).

(** ** The compose form *)

(** [recognition.onresult]: the transcript is added to the input, after a
    space when the input is not empty. *)
Definition onSpeechResult (transcript : jsstring) (s : State) : State :=
  setInput (input s ++ match input s with [] => [] | _ :: _ => u " " end
            ++ transcript) s.

(** [(reader.result as string).split(',')[1]], [None] for [undefined]. *)
Definition dataUrlPayload (result : jsstring) : option jsstring :=
  splitOn 44 result !! 1.

(** The button on the preview of attachment [i]:
    [prev.filter((_, idx) => idx !== i)]. *)
Definition removeAttachment (i : nat) (s : State) : State :=
  setAttachments
    (omap (M := list) (fun kept => kept) (imap (fun idx a => if bool_decide (idx = i) then None else Some a)
                (attachments s)))
    s.

(** The [disabled] attribute of the send button. *)
Definition sendDisabled (s : State) : bool :=
  isLoading s
  || (bool_decide (trim (input s) = [])
      && bool_decide (length (attachments s) = 0)).

(** ** Code blocks: expanding and collapsing *)

(** The identifier of the block at index [i] of a message. *)
Definition blockIdOf (msgId : jsstring) (i : nat) : jsstring :=
  msgId ++ u "-" ++ toString (Z.of_nat i).

(** The click on the header of a block, on the set [expandedBlocks]. *)
Definition toggleBlock (blockId : jsstring) (prev : gset jsstring)
  : gset jsstring :=
  if bool_decide (blockId ∈ prev) then prev ∖ {[blockId]} else prev ∪ {[blockId]}.

(** ** Links *)

Record Click : Type := MkClick {
  button : Z;
  ctrlKey : bool;
  metaKey : bool;
  shiftKey : bool;
  altKey : bool
}.

(** [handleLinkClick]: the address put up for confirmation, the default
    action of the click being prevented, or [None] when the click is left
    to the browser. *)
Definition handleLinkClick (e : Click) (url : jsstring) : option jsstring :=
  if bool_decide (button e = 0%Z) && negb (ctrlKey e) && negb (metaKey e)
     && negb (shiftKey e) && negb (altKey e)
  then Some (if startsWith (u "www.") url then u "https://" ++ url else url)
  else None.

(** ** Pinned chats *)

(** The elements that [...v] spreads: those of an array, or the code
    points of a string; every other parsed value is not iterable. *)
Fixpoint codePoints (s : jsstring) : list jsstring :=
  match s with
  | [] => []
  | hi :: rest =>
    match rest with
    | lo :: rest' =>
      if ((0xD800 <=? hi) && (hi <=? 0xDBFF)
          && (0xDC00 <=? lo) && (lo <=? 0xDFFF))%N
      then [hi; lo] :: codePoints rest'
      else [hi] :: codePoints rest
    | [] => [[hi]]
    end
  end.

Definition spread (v : JSON.json) : option (list JSON.json) :=
  match v with
  | JSON.Array l => Some l
  | JSON.String s => Some (JSON.String <$> codePoints s)
  | _ => None
  end.

Definition PINNED_KEY : jsstring := u "geminihub_global_pinned".

Section Pinned.

(** [JSON.stringify] on a parsed value. *)
Variable JSON_stringify : JSON.json -> jsstring.

(** [handlePinChat]: [now] is [Date.now()], [clockTime] the time of day
    as [toLocaleTimeString] words it and [iso] the date as [toISOString]
    does.  The result is [None] when the handler throws, which leaves the
    storage as it is. *)
Definition handlePinChat (now : Z) (clockTime iso : jsstring) (s : State)
  : option State :=
  let stored := default (u "[]") (getSaved (localStorage s) PINNED_KEY) in
  match JSON.parse stored with
  | None => None
  | Some globalPinned =>
    match spread globalPinned with
    | None => None
    | Some old =>
      let newItem :=
        JSON.Object
          ([(u "id", JSON.String (toString now))]
           ++ match id s with
              | Some i => [(u "botId", JSON.String i)]
              | None => []
              end
           ++ [(u "name",
                JSON.String (interpolate (Bot.name <$> currentBot s)
                             ++ u " - " ++ clockTime));
               (u "timestamp", JSON.String iso)]) in
      Some (withStorage
              (insert PINNED_KEY
                 (JSON_stringify (JSON.Array (take 10 (newItem :: old)))))
              s)
    end
  end.

End Pinned.

(** ** Vocabulary for the properties of the inline markup *)

(** A text without inline markup: no asterisk, no opening bracket, and
    neither ['http'] nor ['www.'] anywhere in it. *)
Definition unmarked (t : jsstring) : Prop :=
  (42%N ∉ t) /\ (91%N ∉ t)
  /\ includes (u "http") t = false /\ includes (u "www.") t = false.

(** The span that shows a text without markup: none for the empty text. *)
Definition plainSpan (t : jsstring) : list Inline :=
  match t with
  | [] => []
  | _ :: _ => [Plain t]
  end.

(** ** Vocabulary for the properties of the form and of code blocks *)



(** The tag of a fenced region with the given body: its longest prefix
    of word characters. *)
Definition fenceTag (body : jsstring) : jsstring := takeWhile isWord body.

(** The code of a fenced region: what follows the tag, less one line
    feed at its head. *)
Definition fenceCode (body : jsstring) : jsstring :=
  match skipWhile isWord body with
  | 10%N :: code => code
  | code => code
  end.

(** * Properties *)

(** ** Streaming *)

Lemma assembled_snoc cs c : assembled (cs ++ [c]) = assembled cs ++ c.1.
Proof.
  unfold assembled. rewrite fmap_app, concat_app. simpl.
  by rewrite app_nil_r.
Qed.

Lemma onChunk_fullText b cs : forall acc,
  (foldl (onChunk b) acc cs).1 = acc.1 ++ assembled cs.
Proof.
  induction cs as [|c cs IH]; intros acc; cbn [foldl].
  - by rewrite app_nil_r.
  - rewrite IH. unfold assembled. simpl. by rewrite app_assoc.
Qed.

Lemma onChunk_length b cs : forall acc,
  length (messages (foldl (onChunk b) acc cs).2) = length (messages acc.2).
Proof.
  induction cs as [|c cs IH]; intros acc; cbn [foldl]; [done|].
  rewrite IH. simpl. by rewrite length_map.
Qed.

(** A message that carries the identifier of the placeholder holds, after
    the callbacks, the text accumulated by the closure. *)
Lemma onChunk_placeholder b cs : forall acc i m,
  messages acc.2 !! i = Some m ->
  Message.id m = b ->
  Message.text m = acc.1 ->
  exists m', messages (foldl (onChunk b) acc cs).2 !! i = Some m'
    /\ Message.id m' = b
    /\ Message.role m' = Message.role m
    /\ Message.timestamp m' = Message.timestamp m
    /\ Message.text m' = acc.1 ++ assembled cs.
Proof.
  induction cs as [|c cs IH]; intros acc i m Hi Hid Ht.
  - exists m. simpl. by rewrite app_nil_r.
  - cbn [foldl].
    set (m1 := Message.Make (Message.id m) (Message.role m) (acc.1 ++ c.1)
                 (Message.timestamp m) (Message.mediaUrl m) (Message.type m)
                 (match c.2 with
                  | Some g => Some g
                  | None => Message.groundingChunks m
                  end)).
    destruct (IH (onChunk b acc c) i m1) as (m' & H1 & H2 & H3 & H4 & H5).
    + simpl. rewrite list_lookup_fmap, Hi. simpl.
      by rewrite bool_decide_eq_true_2.
    + done.
    + done.
    + exists m'. repeat split; try done.
      rewrite H5. unfold assembled. simpl. by rewrite app_assoc.
Qed.

(** A message with another identifier is left as it is. *)
Lemma onChunk_others b cs : forall acc i m,
  messages acc.2 !! i = Some m ->
  Message.id m <> b ->
  messages (foldl (onChunk b) acc cs).2 !! i = Some m.
Proof.
  induction cs as [|c cs IH]; intros acc i m Hi Hid; [done|].
  cbn [foldl]. apply IH; [|done].
  simpl. rewrite list_lookup_fmap, Hi. simpl.
  by rewrite bool_decide_eq_false_2.
Qed.

Lemma sendBegin_messages w s :
  messages (sendBegin w s) =
  messages s
  ++ [userMessage (nowUser w) (dateUser w) (input s) (attachments s);
      placeholder (toString (nowBot w + 1)) (dateBot w)].
Proof. unfold sendBegin. simpl. by rewrite <- app_assoc. Qed.

Lemma sendRefused_false_session s :
  sendRefused s = false -> exists session, chatSession s = Some session.
Proof.
  unfold sendRefused. intros H. destruct (chatSession s); [eauto|].
  rewrite (bool_decide_eq_true_2 (None = None)) in H by done.
  by rewrite orb_true_r in H.
Qed.

(** A send that is let through, whose stream resolves, and whose text
    asks for no image, ends in the state left by the callbacks, the
    loading flag cleared. *)
Lemma send_streamed w s :
  sendRefused s = false ->
  rejected w = None ->
  exec imageDirective (assembled (chunks w)) = None ->
  (send w s).1
  = setIsLoading false
      (foldl (onChunk (toString (nowBot w + 1))) ([], sendBegin w s)
         (chunks w)).2.
Proof.
  intros Hguard Hres Himg.
  destruct (sendRefused_false_session s Hguard) as [session Hsession].
  unfold send. rewrite Hguard, Hres, Hsession. cbn [fst snd].
  unfold afterStream. rewrite onChunk_fullText. cbn [fst app].
  by rewrite Himg.
Qed.

(** C1: after each callback of the stream, the placeholder model message
    holds the concatenation, in arrival order, of the fragments received
    so far.  The state after the first [n] callbacks of a send is the fold
    of [onChunk] over the first [n] fragments, from the state left by the
    synchronous part of [send]; the placeholder is the second message
    appended to the list. *)
Theorem streamed_text_is_concatenation (w : Outside) (s : State) (n : nat) :
  let botMsgId := toString (nowBot w + 1) in
  let received := take n (chunks w) in
  let st := foldl (onChunk botMsgId) ([], sendBegin w s) received in
  st.1 = concat received.*1 /\
  exists m,
    messages st.2 !! S (length (messages s)) = Some m
    /\ Message.id m = botMsgId
    /\ Message.role m = Role.model
    /\ Message.text m = concat received.*1.
Proof.
  intros botMsgId received st. split.
  - unfold st. by rewrite onChunk_fullText.
  - destruct (onChunk_placeholder botMsgId received ([], sendBegin w s)
                (S (length (messages s)))
                (placeholder botMsgId (dateBot w)))
      as (m & H1 & H2 & H3 & _ & H4); try done.
    + cbn [snd]. rewrite sendBegin_messages.
      rewrite lookup_app_r by lia.
      by replace (S (length (messages s)) - length (messages s)) with 1 by lia.
    + exists m. by repeat split.
Qed.

(** ** Failures *)

Lemma onChunk_currentBot b cs : forall acc,
  currentBot (foldl (onChunk b) acc cs).2 = currentBot acc.2.
Proof.
  induction cs as [|c cs IH]; intros acc; cbn [foldl]; [done|].
  by rewrite IH.
Qed.

Lemma sendFailed_length b e s :
  length (messages (sendFailed b e s)) = length (messages s).
Proof. unfold sendFailed. simpl. by rewrite length_map. Qed.

Lemma sendFailed_placeholder b e s i m :
  messages s !! i = Some m ->
  Message.id m = b ->
  exists m', messages (sendFailed b e s) !! i = Some m'
    /\ Message.id m' = b
    /\ Message.role m' = Message.role m
    /\ Message.text m' = if bool_decide (message e = Some (u "SYSTEM_BUSY"))
                         then quotaExceeded else connectionError.
Proof.
  intros Hi Hid. unfold sendFailed. simpl.
  rewrite list_lookup_fmap, Hi. simpl.
  rewrite bool_decide_eq_true_2 by done. eauto.
Qed.

Lemma quotaExceeded_not_connectionError : quotaExceeded <> connectionError.
Proof. discriminate. Qed.

(** C2: when a send fails, the text of the placeholder becomes the
    quota-exceeded string if and only if the message of the exception is
    'SYSTEM_BUSY', and the connectivity-error string otherwise; the send
    has appended the user message and the placeholder and nothing else. *)
Theorem failed_send_replaces_placeholder (w : Outside) (s : State) (e : Thrown) :
  sendRefused s = false ->
  caught w s = Some e ->
  let s' := (send w s).1 in
  length (messages s') = length (messages s) + 2 /\
  exists m,
    messages s' !! S (length (messages s)) = Some m
    /\ Message.id m = toString (nowBot w + 1)
    /\ Message.role m = Role.model
    /\ (Message.text m = quotaExceeded <-> message e = Some (u "SYSTEM_BUSY"))
    /\ (message e <> Some (u "SYSTEM_BUSY") -> Message.text m = connectionError).
Proof.
  intros Hguard Hcaught s'.
  destruct (sendRefused_false_session s Hguard) as [session Hsession].
  set (b := toString (nowBot w + 1)).
  set (st := foldl (onChunk b) ([], sendBegin w s) (chunks w)).
  assert (Hlen : length (messages st.2) = length (messages s) + 2).
  { unfold st. rewrite onChunk_length. cbn [snd].
    rewrite sendBegin_messages, length_app. simpl. lia. }
  destruct (onChunk_placeholder b (chunks w) ([], sendBegin w s)
              (S (length (messages s))) (placeholder b (dateBot w)))
    as (m0 & Hm0 & Hid0 & Hrole0 & _ & _); try done.
  { cbn [snd]. rewrite sendBegin_messages, lookup_app_r by lia.
    by replace (S (length (messages s)) - length (messages s)) with 1 by lia. }
  fold st in Hm0.
  assert (Hfinal : exists s1,
    messages s' = messages (sendFailed b e s1)
    /\ messages s1 = messages st.2).
  { unfold s', send. rewrite Hguard, Hsession. cbn [fst snd].
    fold b. fold st. unfold caught in Hcaught.
    destruct (rejected w) as [e'|].
    - injection Hcaught as ->. by exists st.2.
    - unfold afterStream.
      replace st.1 with (assembled (chunks w))
        by (unfold st; by rewrite onChunk_fullText).
      replace (currentBot st.2) with (currentBot s)
        by (unfold st; by rewrite onChunk_currentBot).
      destruct (exec imageDirective (assembled (chunks w))); [|done].
      destruct (currentBot s) as [bt|]; [|done].
      destruct (generated w) as [e'|]; [|done].
      destruct (Bot.hasImageGen bt); [|done].
      injection Hcaught as ->.
      by exists (setIsGeneratingMedia (Some Busy.image) st.2). }
  destruct Hfinal as (s1 & Hs' & Hs1).
  rewrite Hs'. split.
  - by rewrite sendFailed_length, Hs1.
  - destruct (sendFailed_placeholder b e s1 (S (length (messages s))) m0)
      as (m & Hm & Hid & Hrole & Htext); [by rewrite Hs1|done|].
    exists m. repeat split; try done.
    + by rewrite Hrole, Hrole0.
    + intros Hq. rewrite Htext in Hq. case_bool_decide; [done|].
      by destruct quotaExceeded_not_connectionError.
    + intros He. rewrite Htext. by rewrite bool_decide_eq_true_2.
    + intros He. rewrite Htext. by rewrite bool_decide_eq_false_2.
Qed.

Lemma failed_send_witness :
  let w := sampleOutside [u "Hel"] (Some (Throw (Some (u "SYSTEM_BUSY")))) in
  let s := sampleState (u "hi") in
  exists m, messages (send w s).1 !! 1 = Some m
            /\ (Message.text m = quotaExceeded
                <-> Some (u "SYSTEM_BUSY") = Some (u "SYSTEM_BUSY")).
Proof.
  intros w s.
  destruct (failed_send_replaces_placeholder w s
              (Throw (Some (u "SYSTEM_BUSY"))))
    as (_ & m & Hm & _ & _ & Hq & _); [reflexivity|reflexivity|].
  exists m. split; [exact Hm|exact Hq].
Defined.

(** ** The guard of [send] *)

Lemma sendRefused_true s :
  sendRefused s = true <->
  (trim (input s) = [] /\ attachments s = [])
  \/ chatSession s = None \/ isLoading s = true.
Proof.
  unfold sendRefused.
  rewrite !orb_true_iff, andb_true_iff, !bool_decide_eq_true.
  rewrite length_zero_iff_nil. tauto.
Qed.

(** C4, as the code has it: [send] returns at once, leaving the state as
    it is and issuing no request, exactly when the input is empty once
    trimmed and there is no attachment, or there is no chat session, or
    the loading flag is set.  Otherwise its synchronous part empties the
    input and the attachments, sets the loading flag and appends the user
    message followed by the placeholder model message, and one chat
    request is issued for the session. *)
Theorem send_guard (w : Outside) (s : State) :
  (sendRefused s = true <->
     (trim (input s) = [] /\ attachments s = [])
     \/ chatSession s = None \/ isLoading s = true)
  /\ (sendRefused s = true -> send w s = (s, []))
  /\ (sendRefused s = false ->
      let s1 := sendBegin w s in
      let userMsg := userMessage (nowUser w) (dateUser w) (input s) (attachments s) in
      let botMsg := placeholder (toString (nowBot w + 1)) (dateBot w) in
      messages s1 = messages s ++ [userMsg; botMsg]
      /\ Message.role userMsg = Role.user
      /\ Message.text userMsg = input s
      /\ Message.role botMsg = Role.model
      /\ Message.text botMsg = []
      /\ input s1 = [] /\ attachments s1 = [] /\ isLoading s1 = true
      /\ exists session more,
           chatSession s = Some session
           /\ (send w s).2
              = SendMessage session (buildPayload (input s) (attachments s))
                :: more).
Proof.
  split; [apply sendRefused_true|]. split.
  - intros H. unfold send. by rewrite H.
  - intros H s1 userMsg botMsg.
    split; [apply sendBegin_messages|].
    repeat (split; [done|]).
    unfold send. rewrite H.
    destruct (sendRefused_false_session s H) as [session Hs]. rewrite Hs.
    eexists _, _. split; [done|]. reflexivity.
Qed.

Lemma send_guard_witness :
  send (sampleOutside [] None) (sampleState []) = (sampleState [], [])
  /\ length (messages (sendBegin (sampleOutside [] None) (sampleState (u "hi")))) = 2.
Proof.
  split.
  - apply (send_guard (sampleOutside [] None) (sampleState [])). reflexivity.
  - destruct (send_guard (sampleOutside [] None) (sampleState (u "hi")))
      as (_ & _ & H).
    destruct (H eq_refl) as (-> & _). reflexivity.
Defined.

(** The claim as the spec words it lets every send with a non-empty input
    through; an input of one space, without attachment, with a live
    session and no send in flight, is refused all the same. *)
Lemma send_blank_input_counterexample :
  let s := sampleState (u " ") in
  input s <> []
  /\ attachments s = []
  /\ isLoading s = false
  /\ chatSession s <> None
  /\ forall w, send w s = (s, []).
Proof. by repeat split. Qed.

(** ** Storage keys *)

Lemma CHAT_STORAGE_KEY_inj i j :
  CHAT_STORAGE_KEY (Some i) = CHAT_STORAGE_KEY (Some j) -> i = j.
Proof. unfold CHAT_STORAGE_KEY, interpolate. by intros ?%app_inv_head. Qed.

Lemma chat_key_not_pano_key i j : CHAT_STORAGE_KEY i <> PANO_STORAGE_KEY j.
Proof.
  unfold CHAT_STORAGE_KEY, PANO_STORAGE_KEY. intros H.
  apply (f_equal (take 11)) in H. discriminate H.
Qed.

Lemma chat_key_not_model_key i j : CHAT_STORAGE_KEY i <> MODEL_STORAGE_KEY j.
Proof.
  unfold CHAT_STORAGE_KEY, MODEL_STORAGE_KEY. intros H.
  apply (f_equal (take 11)) in H. discriminate H.
Qed.

(** ** Reset *)

(** C5: confirming the reset empties the message list and removes the
    chat-history entry of the current bot identifier from the storage;
    every other entry of the storage stays as it is, among them the chat
    histories of the other bot identifiers and all stored notes and
    models, and so do the notes list and the selected model. *)
Theorem confirmReset_clears_history (s : State) :
  let s' := confirmReset s in
  messages s' = []
  /\ localStorage s' !! CHAT_STORAGE_KEY (id s) = None
  /\ (forall k, k <> CHAT_STORAGE_KEY (id s) ->
        localStorage s' !! k = localStorage s !! k)
  /\ (forall i j, id s = Some i -> j <> i ->
        localStorage s' !! CHAT_STORAGE_KEY (Some j)
        = localStorage s !! CHAT_STORAGE_KEY (Some j))
  /\ (forall j, localStorage s' !! PANO_STORAGE_KEY j
                = localStorage s !! PANO_STORAGE_KEY j)
  /\ (forall j, localStorage s' !! MODEL_STORAGE_KEY j
                = localStorage s !! MODEL_STORAGE_KEY j)
  /\ panoNotes s' = panoNotes s
  /\ selectedModel s' = selectedModel s
  /\ id s' = id s.
Proof.
  intros s'. unfold s', confirmReset. simpl.
  split; [done|]. split; [apply lookup_delete_eq|].
  split; [intros k Hk; by apply lookup_delete_ne|].
  split.
  { intros i j Hi Hj. apply lookup_delete_ne. rewrite Hi.
    intros H%CHAT_STORAGE_KEY_inj. congruence. }
  split.
  { intros j. apply lookup_delete_ne. apply chat_key_not_pano_key. }
  split.
  { intros j. apply lookup_delete_ne. apply chat_key_not_model_key. }
  done.
Qed.

Lemma confirmReset_witness :
  let s' := confirmReset twoHistories in
  messages s' = []
  /\ localStorage s' !! CHAT_STORAGE_KEY (Some (u "b1")) = None
  /\ localStorage s' !! CHAT_STORAGE_KEY (Some (u "b2")) = Some (u "[]").
Proof.
  intros s'.
  destruct (confirmReset_clears_history twoHistories)
    as (Hm & Hk & _ & Hother & _).
  split; [exact Hm|]. split; [exact Hk|].
  unfold s'. rewrite (Hother (u "b1") (u "b2") eq_refl) by discriminate.
  unfold twoHistories. simpl. apply lookup_insert_eq.
Defined.

(** ** The matcher finds a match exactly when there is one *)

Section Matcher.

Implicit Types (r : regex) (s a rest : jsstring) (c : captures) (k : cont).

Lemma many_sound p : forall s c k res,
  many p s c k = Some res ->
  exists a rest, s = a ++ rest /\ forallb p a = true /\ k rest c = Some res.
Proof.
  induction s as [|x s IH]; intros c k res H; simpl in H.
  - by exists [], [].
  - destruct (p x) eqn:Hp.
    + destruct (many p s c k) as [res'|] eqn:Hm.
      * injection H as <-. destruct (IH _ _ _ Hm) as (a & rest & -> & Ha & Hk).
        exists (x :: a), rest. simpl. by rewrite Hp, Ha.
      * by exists [], (x :: s).
    + by exists [], (x :: s).
Qed.

Lemma few_sound p : forall s c k res,
  few p s c k = Some res ->
  exists a rest, s = a ++ rest /\ forallb p a = true /\ k rest c = Some res.
Proof.
  induction s as [|x s IH]; intros c k res H; simpl in H.
  - destruct (k [] c) eqn:Hk; [|done]. injection H as <-. by exists [], [].
  - destruct (k (x :: s) c) eqn:Hk.
    + injection H as <-. by exists [], (x :: s).
    + destruct (p x) eqn:Hp; [|done].
      destruct (IH _ _ _ H) as (a & rest & -> & Ha & Hk').
      exists (x :: a), rest. simpl. by rewrite Hp, Ha.
Qed.

(** Whatever [run] returns was returned by the continuation, called on
    what follows a match of the pattern. *)
Lemma run_sound r : forall s c k res,
  run r s c k = Some res ->
  exists a rest c', s = a ++ rest /\ Matches r a rest /\ k rest c' = Some res.
Proof.
  induction r as [|p|r1 IH1 r2 IH2|r1 IH1 r2 IH2|r1 IH1|p|p|i r1 IH1|r1 IH1|];
    intros s c k res H; simpl in H.
  - exists [], s, c. split; [done|]. split; [constructor|done].
  - destruct s as [|x s]; [done|]. destruct (p x) eqn:Hp; [|done].
    exists [x], s, c. split; [done|]. split; [by constructor|done].
  - destruct (IH1 _ _ _ _ H) as (a & rest1 & c1 & -> & Ha & H2).
    destruct (IH2 _ _ _ _ H2) as (b & rest & c2 & -> & Hb & Hk).
    exists (a ++ b), rest, c2. rewrite <- app_assoc.
    split; [done|]. split; [by constructor|done].
  - destruct (run r1 s c k) as [res'|] eqn:H1.
    + injection H as <-.
      destruct (IH1 _ _ _ _ H1) as (a & rest & c' & -> & Ha & Hk).
      exists a, rest, c'. split; [done|]. split; [by apply MOrL|done].
    + destruct (IH2 _ _ _ _ H) as (a & rest & c' & -> & Ha & Hk).
      exists a, rest, c'. split; [done|]. split; [by apply MOrR|done].
  - destruct (run r1 s c k) as [res'|] eqn:H1.
    + injection H as <-.
      destruct (IH1 _ _ _ _ H1) as (a & rest & c' & -> & Ha & Hk).
      exists a, rest, c'. split; [done|]. split; [by apply MMaybeYes|done].
    + exists [], s, c. split; [done|]. split; [apply MMaybeNo|done].
  - destruct (many_sound _ _ _ _ _ H) as (a & rest & -> & Ha & Hk).
    exists a, rest, c. split; [done|]. split; [by constructor|done].
  - destruct (few_sound _ _ _ _ _ H) as (a & rest & -> & Ha & Hk).
    exists a, rest, c. split; [done|]. split; [by constructor|done].
  - destruct (IH1 _ _ _ _ H) as (a & rest & c' & -> & Ha & Hk).
    exists a, rest, ((i, take (length (a ++ rest) - length rest) (a ++ rest)) :: c').
    split; [done|]. split; [by constructor|done].
  - destruct (run r1 s c (fun s1 c1 => Some (s1, c1))) as [[s1 c1]|] eqn:H1;
      [|done].
    destruct (IH1 _ _ _ _ H1) as (a & rest & c' & -> & Ha & _).
    exists [], (a ++ rest), c1. split; [done|]. split; [by constructor|done].
  - destruct s; [|done].
    exists [], [], c. split; [done|]. split; [constructor|done].
Qed.

Lemma many_complete p : forall a rest c k,
  forallb p a = true -> (forall c', k rest c' <> None) ->
  many p (a ++ rest) c k <> None.
Proof.
  induction a as [|x a IH]; intros rest c k Ha Hk; simpl.
  - destruct rest as [|y rest]; simpl; [apply Hk|].
    destruct (p y); [|apply Hk].
    destruct (many p rest c k); [done|apply Hk].
  - simpl in Ha. apply andb_true_iff in Ha as [-> Ha].
    specialize (IH rest c k Ha Hk).
    by destruct (many p (a ++ rest) c k).
Qed.

Lemma few_complete p : forall a rest c k,
  forallb p a = true -> (forall c', k rest c' <> None) ->
  few p (a ++ rest) c k <> None.
Proof.
  induction a as [|x a IH]; intros rest c k Ha Hk.
  - simpl. specialize (Hk c).
    destruct rest; simpl; by destruct (k _ c).
  - simpl in Ha. apply andb_true_iff in Ha as [Hx Ha].
    simpl. rewrite Hx. destruct (k (x :: a ++ rest) c); [done|].
    by apply IH.
Qed.

(** Where the pattern can match and the continuation accepts what follows
    the match, whatever the captures, [run] returns a result. *)
Lemma run_complete r a rest :
  Matches r a rest ->
  forall c k, (forall c', k rest c' <> None) -> run r (a ++ rest) c k <> None.
Proof.
  induction 1 as [rest|p x rest Hp|r1 r2 a b rest _ IH1 _ IH2
                 |r1 r2 a rest _ IH|r1 r2 a rest _ IH|r1 a rest _ IH|r1 rest
                 |p a rest Ha|p a rest Ha|i r1 a rest _ IH|r1 a rest _ IH|];
    intros c k Hk; simpl.
  - apply Hk.
  - rewrite Hp. apply Hk.
  - rewrite <- app_assoc. apply IH1. intros c'. by apply IH2.
  - specialize (IH c k Hk). by destruct (run r1 (a ++ rest) c k).
  - destruct (run r1 (a ++ rest) c k); [done|]. by apply IH.
  - specialize (IH c k Hk). by destruct (run r1 (a ++ rest) c k).
  - destruct (run r1 rest c k); [done|]. apply Hk.
  - by apply many_complete.
  - by apply few_complete.
  - apply IH. intros c'. apply Hk.
  - specialize (IH c (fun s1 c1 => Some (s1, c1))).
    destruct (run r1 (a ++ rest) c (fun s1 c1 => Some (s1, c1))) as [[? ?]|].
    + apply Hk.
    + by destruct IH.
  - apply Hk.
Qed.

Lemma matchHere_Some r s n c :
  matchHere r s = Some (n, c) ->
  exists a rest, s = a ++ rest /\ Matches r a rest /\ n = length a.
Proof.
  unfold matchHere. intros H.
  destruct (run r s [] (fun s1 c1 => Some (s1, c1))) as [[s1 c1]|] eqn:Hr;
    [|done].
  injection H as <- <-.
  destruct (run_sound _ _ _ _ _ Hr) as (a & rest & c' & -> & Ha & Hk).
  injection Hk as <- <-. exists a, rest. rewrite length_app.
  split; [done|]. split; [done|lia].
Qed.

Lemma matchHere_None r a rest :
  matchHere r (a ++ rest) = None -> ~ Matches r a rest.
Proof.
  unfold matchHere. intros H Hm.
  apply (run_complete _ _ _ Hm [] (fun s1 c1 => Some (s1, c1))); [done|].
  by destruct (run r (a ++ rest) [] _) as [[? ?]|].
Qed.

(** [execFrom] returns the leftmost match. *)
Lemma execFrom_Some r : forall s pre f,
  execFrom r pre s = Some f ->
  exists skipped,
    before f = rev pre ++ skipped
    /\ s = skipped ++ matched f ++ after f
    /\ matchHere r (matched f ++ after f)
       = Some (length (matched f), groups f)
    /\ forall i, i < length skipped -> matchHere r (drop i s) = None.
Proof.
  induction s as [|x s IH]; intros pre f H; simpl in H.
  - destruct (matchHere r []) as [[n c]|] eqn:Hm; [|done].
    injection H as <-. exists []. simpl.
    destruct (matchHere_Some _ _ _ _ Hm) as (a & rest & Hs & _ & ->).
    symmetry in Hs. apply app_eq_nil in Hs as [-> ->].
    rewrite app_nil_r. repeat split; [done|lia].
  - destruct (matchHere r (x :: s)) as [[n c]|] eqn:Hm.
    + injection H as <-. exists []. cbn [before matched after groups].
      rewrite app_nil_r, take_drop. simpl.
      destruct (matchHere_Some _ _ _ _ Hm) as (a & rest & Hs & _ & ->).
      rewrite length_take_le
        by (rewrite Hs, length_app; lia).
      repeat split; [done|lia].
    + destruct (IH _ _ H) as (sk & Hb & Hs & Hh & Hl).
      exists (x :: sk). rewrite Hb. simpl. rewrite <- app_assoc.
      split; [done|]. split; [by rewrite <- Hs|]. split; [done|].
      intros [|i] Hi; [done|]. simpl. apply Hl. simpl in Hi. lia.
Qed.

Lemma execFrom_None r : forall s pre,
  execFrom r pre s = None ->
  forall i, i <= length s -> matchHere r (drop i s) = None.
Proof.
  induction s as [|x s IH]; intros pre H i Hi; simpl in H.
  - destruct (matchHere r []) as [[n c]|] eqn:Hm; [done|].
    by rewrite drop_nil.
  - destruct (matchHere r (x :: s)) as [[n c]|] eqn:Hm; [done|].
    destruct i as [|i]; [done|]. simpl. apply (IH _ H). simpl in Hi. lia.
Qed.

(** [s.match(r)] succeeds exactly when some part of [s] matches [r]. *)
Lemma exec_is_Some r s :
  is_Some (exec r s) <->
  exists pre a rest, s = pre ++ a ++ rest /\ Matches r a rest.
Proof.
  split.
  - intros [f Hf]. unfold exec in Hf.
    destruct (execFrom_Some _ _ _ _ Hf) as (sk & _ & Hs & Hm & _).
    destruct (matchHere_Some _ _ _ _ Hm) as (a & rest & Heq & Ha & _).
    exists sk, a, rest. by rewrite Hs, Heq.
  - intros (pre & a & rest & -> & Ha).
    destruct (exec r (pre ++ a ++ rest)) eqn:He; [done|].
    unfold exec in He.
    pose proof (execFrom_None _ _ _ He (length pre)) as Hn.
    rewrite drop_app_length in Hn.
    destruct (matchHere_None _ _ _ (Hn ltac:(rewrite length_app; lia)) Ha).
Qed.

End Matcher.

(** ** Closed forms of the matcher on the patterns of the component *)

Lemma u_cons a s : u (String a s) = N_of_ascii a :: u s.
Proof. reflexivity. Qed.

Lemma run_lit a : forall s c k,
  run (lit a) s c k
  = if startsWith (u a) s then k (drop (length (u a)) s) c else None.
Proof.
  induction a as [|x a IH]; intros s c k; [done|].
  rewrite u_cons. cbn [lit run chr]. destruct s as [|y s]; [done|].
  cbn [startsWith length drop]. destruct (N_of_ascii x =? y)%N; [|done].
  apply IH.
Qed.

Lemma startsWith_app p s : startsWith p (p ++ s) = true.
Proof. induction p; simpl; [done|]. by rewrite N.eqb_refl. Qed.

Lemma startsWith_true p s :
  startsWith p s = true <-> exists rest, s = p ++ rest.
Proof.
  split.
  - revert s. induction p as [|a p IH]; intros s H; [by exists s|].
    destruct s as [|b s]; [done|]. simpl in H.
    apply andb_true_iff in H as [->%N.eqb_eq H].
    destruct (IH _ H) as [rest ->]. by exists rest.
  - intros [rest ->]. apply startsWith_app.
Qed.

Lemma dropSpaces_app_not_space s x rest :
  isSpace x = false ->
  dropSpaces (s ++ x :: rest) = dropSpaces s ++ x :: rest.
Proof.
  intros Hx. induction s as [|y s IH]; simpl.
  - by rewrite Hx.
  - by destruct (isSpace y).
Qed.

(** A greedy repetition whose continuation fails right before a unit of
    the class whenever it fails right after it takes the whole run. *)
Lemma many_whole p k c :
  (forall x s, p x = true -> k s c = None -> k (x :: s) c = None) ->
  forall s, many p s c k = k (skipWhile p s) c.
Proof.
  intros Hk. induction s as [|x s IH]; [done|].
  cbn [many skipWhile]. destruct (p x) eqn:Hp; [|done].
  fold (skipWhile p). rewrite IH. destruct (k _ c) eqn:Hr; [done|].
  apply Hk; [done|]. clear IH.
  induction s as [|y s IH]; [done|]. cbn [skipWhile] in Hr.
  destruct (p y) eqn:Hy; [|done]. apply Hk; [done|]. by apply IH.
Qed.

Lemma dropSpaces_skipWhile s : skipWhile isSpace s = dropSpaces s.
Proof. reflexivity. Qed.

Lemma run_Class_cons p x s c k :
  run (Class p) (x :: s) c k = if p x then k s c else None.
Proof. reflexivity. Qed.

Lemma few_cons p x s c k :
  few p (x :: s) c k
  = match k (x :: s) c with
    | Some r => Some r
    | None => if p x then few p s c k else None
    end.
Proof. reflexivity. Qed.

Lemma few_dot_bracket (K : cont) c :
  (forall s, K s c <> None) ->
  forall s, few dot s c (fun s1 c1 => run (chr "]") s1 c1 K)
            = match closingBracket s with
              | Some j => K (drop (S j) s) c
              | None => None
              end.
Proof.
  intros HK. induction s as [|x s IH]; [done|].
  rewrite few_cons. unfold chr at 1. rewrite run_Class_cons.
  change (N_of_ascii "]") with 93%N. rewrite (N.eqb_sym 93 x).
  cbn [closingBracket].
  destruct (x =? 93)%N.
  - change (drop 1 (x :: s)) with s. specialize (HK s).
    by destruct (K s c).
  - destruct (dot x); [|done]. rewrite IH.
    by destruct (closingBracket s).
Qed.

Lemma closingBracket_Some s j :
  closingBracket s = Some j ->
  exists inner rest,
    s = inner ++ 93%N :: rest /\ length inner = j
    /\ (93%N ∉ inner) /\ forallb dot inner = true.
Proof.
  revert j. induction s as [|x s IH]; intros j H; [done|].
  simpl in H. destruct (x =? 93)%N eqn:Hx.
  - injection H as <-. apply N.eqb_eq in Hx as ->.
    exists [], s. split_and!; [done|done|apply not_elem_of_nil|done].
  - destruct (dot x) eqn:Hd; [|done].
    destruct (closingBracket s) as [j'|]; [|done]. injection H as <-.
    destruct (IH _ eq_refl) as (inner & rest & -> & <- & Hin & Hdot).
    exists (x :: inner), rest. simpl. rewrite Hd, Hdot.
    split_and!; [done|done| |done]. apply not_elem_of_cons. split; [|done].
    intros <-. by rewrite N.eqb_refl in Hx.
Qed.

Lemma closingBracket_app inner rest :
  93%N ∉ inner ->
  closingBracket (inner ++ 93%N :: rest)
  = if forallb dot inner then Some (length inner) else None.
Proof.
  induction inner as [|x inner IH]; intros Hin; [done|].
  apply not_elem_of_cons in Hin as [Hx Hin]. simpl.
  destruct (x =? 93)%N eqn:Hx'; [apply N.eqb_eq in Hx'; congruence|].
  destruct (dot x); [|done]. rewrite (IH Hin).
  by destruct (forallb dot inner).
Qed.

Lemma length_dropSpaces s : length (dropSpaces s) <= length s.
Proof.
  induction s as [|x s IH]; simpl; [done|].
  destruct (isSpace x); simpl; lia.
Qed.

Lemma closingBracket_lt s j : closingBracket s = Some j -> j < length s.
Proof.
  intros (inner & rest & -> & <- & _)%closingBracket_Some.
  rewrite length_app. simpl. lia.
Qed.

(** What follows the colon of a directive. *)
Lemma directive_tail t c :
  many isSpace t c
    (fun s1 c1 => few dot s1 c1
       (fun s2 c2 => run (chr "]") s2 c2 (fun s3 c3 => Some (s3, c3))))
  = match closingBracket (dropSpaces t) with
    | Some j => Some (drop (S j) (dropSpaces t), c)
    | None => None
    end.
Proof.
  rewrite many_whole.
  - rewrite dropSpaces_skipWhile. by rewrite few_dot_bracket.
  - intros x t' Hx Hnone. rewrite few_cons. unfold chr at 1.
    rewrite run_Class_cons. change (N_of_ascii "]") with 93%N.
    destruct (93 =? x)%N eqn:E.
    { apply N.eqb_eq in E as <-. done. }
    rewrite Hnone. by destruct (dot x).
Qed.
Lemma startsWith_split a b s :
  startsWith (a ++ b) s = startsWith a s && startsWith b (drop (length a) s).
Proof.
  revert s. induction a as [|x a IH]; intros s; [done|].
  destruct s as [|y s]; [done|]. simpl. rewrite IH.
  by rewrite andb_assoc.
Qed.

Lemma directive_colon t c :
  run (chr ":") t c
    (fun s0 c0 => many isSpace s0 c0
       (fun s2 c2 => few dot s2 c2
          (fun s3 c3 => run (chr "]") s3 c3 (fun s4 c4 => Some (s4, c4)))))
  = match t with
    | x :: t' =>
      if (58 =? x)%N
      then match closingBracket (dropSpaces t') with
           | Some j => Some (drop (S j) (dropSpaces t'), c)
           | None => None
           end
      else None
    | [] => None
    end.
Proof.
  destruct t as [|x t]; [done|]. unfold chr at 1. rewrite run_Class_cons.
  change (N_of_ascii ":") with 58%N. destruct (58 =? x)%N; [|done].
  apply directive_tail.
Qed.

(** The cases of a text on the three literals a directive opens with. *)
Local Ltac openings s t :=
  destruct (startsWith (u "[GENERATE_") s), (startsWith (u "IMAGE") t),
    (startsWith (u "VIDEO") t).

Lemma matchHere_generationDirective s :
  fst <$> matchHere generationDirective s = directiveLength s.
Proof.
  unfold matchHere, generationDirective, directiveLength.
  cbn [run]. rewrite !run_lit.
  change (u "[GENERATE_IMAGE:") with (u "[GENERATE_" ++ u "IMAGE" ++ [58%N]).
  change (u "[GENERATE_VIDEO:") with (u "[GENERATE_" ++ u "VIDEO" ++ [58%N]).
  rewrite !startsWith_split.
  change (length (u "[GENERATE_")) with 10.
  change (length (u "IMAGE")) with 5. change (length (u "VIDEO")) with 5.
  replace (drop 16 s) with (drop 1 (drop 5 (drop 10 s)))
    by (by rewrite !drop_drop).
  pose proof (length_drop s 10) as Hlen.
  set (t := drop 10 s) in *.
  pose proof (length_drop t 5) as Hlen'.
  rewrite !directive_colon.
  destruct (drop 5 t) as [|x v] eqn:Hv.
  { openings s t; by cbn. }
  cbn [startsWith drop]. rewrite andb_true_r. change (drop 0 v) with v.
  destruct (58 =? x)%N.
  2:{ openings s t; by cbn. }
  pose proof (length_dropSpaces v) as Hb.
  destruct (closingBracket (dropSpaces v)) as [j|] eqn:Hj.
  2:{ openings s t; by cbn. }
  pose proof (closingBracket_lt _ _ Hj) as Hlt.
  assert (length s - length (drop (S j) (dropSpaces v))
          = length s - length (dropSpaces v) + S j) as Heq.
  { rewrite length_drop. simpl in Hlen'. lia. }
  openings s t; cbn; by rewrite ?Heq.
Qed.
Lemma dropSpaces_split s :
  exists ws, s = ws ++ dropSpaces s /\ forallb isSpace ws = true.
Proof.
  induction s as [|x s (ws & Hs & Hws)]; [by exists []|].
  simpl. destruct (isSpace x) eqn:Hx.
  - exists (x :: ws). simpl. rewrite Hx, Hws. by rewrite <- Hs.
  - by exists [].
Qed.

Lemma dropSpaces_head s x rest : dropSpaces s = x :: rest -> isSpace x = false.
Proof.
  induction s as [|y s IH]; [done|]. simpl.
  destruct (isSpace y) eqn:Hy; [done|]. by intros [= <- _].
Qed.

Lemma dropSpaces_spaces_app ws s :
  forallb isSpace ws = true -> dropSpaces (ws ++ s) = dropSpaces s.
Proof.
  induction ws as [|x ws IH]; [done|]. simpl.
  intros [-> H]%andb_true_iff. by apply IH.
Qed.

Lemma dropSpaces_elem y s : y ∈ dropSpaces s -> y ∈ s.
Proof.
  induction s as [|x s IH]; [done|]. simpl.
  destruct (isSpace x); [|done]. intros H. right. by apply IH.
Qed.

Lemma Directive_length d : Directive d -> 17 <= length d.
Proof.
  intros (o & inner & -> & [-> | ->] & _); rewrite !length_app; simpl; lia.
Qed.

Lemma directiveLength_Some s n :
  directiveLength s = Some n <->
  exists d rest, s = d ++ rest /\ Directive d /\ n = length d.
Proof.
  unfold directiveLength. split.
  - destruct (_ || _) eqn:Ho; [|done].
    assert (exists o t, s = o ++ t /\ length o = 16
              /\ (o = u "[GENERATE_IMAGE:" \/ o = u "[GENERATE_VIDEO:"))
      as (o & t & -> & Hlen & Ho').
    { apply orb_true_iff in Ho as [[t ->]%startsWith_true|[t ->]%startsWith_true];
        eexists _, t; eauto. }
    rewrite <- Hlen, drop_app_length. cbn zeta.
    destruct (closingBracket (dropSpaces t)) as [j|] eqn:Hj; [|done].
    intros [= <-].
    destruct (closingBracket_Some _ _ Hj) as (inner & rest & Hb & <- & Hin & Hdot).
    destruct (dropSpaces_split t) as (ws & Ht & Hws).
    exists (o ++ (ws ++ inner) ++ [93%N]), rest.
    split; [|split].
    + rewrite Ht at 1. rewrite Hb. by rewrite <- !app_assoc.
    + exists o, (ws ++ inner). split_and!; [done|done| |].
      * intros [H|H]%elem_of_app; [|done].
        rewrite forallb_forall in Hws. apply list_elem_of_In in H.
        by specialize (Hws _ H).
      * rewrite dropSpaces_spaces_app by done.
        destruct inner as [|y inner]; [done|].
        simpl in Hb. apply dropSpaces_head in Hb. simpl. by rewrite Hb.
    + apply (f_equal length) in Ht, Hb.
      rewrite !length_app in *. simpl in *. lia.
  - intros (d & rest & -> & (o & inner & -> & Ho & Hin & Hdot) & ->).
    assert (length o = 16) as Hlen by (by destruct Ho as [-> | ->]).
    assert (startsWith (u "[GENERATE_IMAGE:") ((o ++ inner ++ [93%N]) ++ rest)
            || startsWith (u "[GENERATE_VIDEO:") ((o ++ inner ++ [93%N]) ++ rest)
            = true) as ->.
    { rewrite <- !app_assoc.
      destruct Ho as [-> | ->]; rewrite startsWith_app; by rewrite ?orb_true_r. }
    rewrite <- !app_assoc, <- Hlen, drop_app_length. cbn zeta.
    simpl. rewrite dropSpaces_app_not_space by done.
    rewrite closingBracket_app.
    2:{ intros H. by apply dropSpaces_elem in H. }
    rewrite Hdot. simpl. f_equal.
    pose proof (length_dropSpaces inner).
    rewrite !length_app. simpl. rewrite ?length_app. simpl. lia.
Qed.

Lemma removeAllFrom_skip r : forall n s,
  removeAllFrom r n s = removeAllFrom r 0 (drop n s).
Proof.
  induction n as [|n IH]; intros s; [done|].
  destruct s as [|x s]; simpl.
  - by destruct (matchHere r []) as [[[|?] ?]|].
  - apply IH.
Qed.

Lemma removeAll_cons r x s :
  removeAll r (x :: s)
  = match matchHere r (x :: s) with
    | Some (S n, _) => removeAll r (drop (S n) (x :: s))
    | _ => x :: removeAll r s
    end.
Proof.
  unfold removeAll. cbn [removeAllFrom].
  destruct (matchHere r (x :: s)) as [[[|n] c]|]; try done.
  change (drop (S n) (x :: s)) with (drop n s). apply removeAllFrom_skip.
Qed.

Lemma removeAll_nil r : removeAll r [] = [].
Proof. unfold removeAll. simpl. by destruct (matchHere r []) as [[[|?] ?]|]. Qed.

(** Stripping the directives, as [cleanText] does, is the declarative
    left-to-right reading. *)
Lemma removeAll_Stripped t : Stripped t (removeAll generationDirective t).
Proof.
  induction t as [t IH] using (induction_ltof1 _ (@length N)).
  unfold ltof in IH. destruct t as [|x s]; [rewrite removeAll_nil; constructor|].
  rewrite removeAll_cons.
  pose proof (matchHere_generationDirective (x :: s)) as Hm.
  destruct (matchHere generationDirective (x :: s)) as [[n c]|] eqn:Hh.
  - symmetry in Hm. apply directiveLength_Some in Hm as (d & rest & Hs & Hd & Hn).
    simpl in Hn. subst n. pose proof (Directive_length _ Hd) as Hl.
    destruct (length d) as [|n] eqn:Hlen; [lia|].
    rewrite Hs, <- Hlen, drop_app_length. constructor; [done|].
    apply IH. rewrite Hs, length_app. lia.
  - constructor.
    + intros d rest Hs Hd.
      assert (directiveLength (x :: s) = Some (length d)) as Hsome
        by (apply directiveLength_Some; eauto).
      rewrite <- Hm in Hsome. done.
    + apply IH. simpl. lia.
Qed.

Lemma Stripped_removeAll t r :
  Stripped t r -> r = removeAll generationDirective t.
Proof.
  induction 1 as [|d rest r Hd _ IH|x t r Hno _ IH].
  - by rewrite removeAll_nil.
  - pose proof (Directive_length _ Hd) as Hl.
    assert (directiveLength (d ++ rest) = Some (length d)) as Hsome
      by (apply directiveLength_Some; eauto).
    rewrite <- matchHere_generationDirective in Hsome.
    destruct d as [|x d]; [simpl in Hl; lia|].
    change ((x :: d) ++ rest) with (x :: d ++ rest) in *.
    rewrite removeAll_cons.
    destruct (matchHere generationDirective (x :: d ++ rest)) as [[n c]|];
      [|done].
    injection Hsome as ->. cbn [length].
    change (x :: d ++ rest) with ((x :: d) ++ rest).
    change (S (length d)) with (length (x :: d)).
    by rewrite drop_app_length.
  - rewrite removeAll_cons.
    pose proof (matchHere_generationDirective (x :: t)) as Hm.
    destruct (matchHere generationDirective (x :: t)) as [[n c]|]; [|by f_equal].
    symmetry in Hm. apply directiveLength_Some in Hm as (d & rest & Hs & Hd & _).
    destruct (Hno _ _ Hs Hd).
Qed.

(** ** Notes *)

(** C6: a note that is inserted is put at the head of the notes list, the
    rest of the list unchanged.  A note saved from the manual form has
    the source tag 'user' and the trimmed text of the form; a note saved
    from a message has the source tag 'bot' and the trimmed text of the
    message with every generation directive left out.  (Nothing is
    inserted when that text is empty.) *)
Theorem notes_are_prepended (now date : Z) (t : jsstring) (s : State) :
  (trim (manualNoteText s) <> [] ->
     panoNotes (handleManualNoteSave now date s)
     = PanoNote.Make (toString now) (trim (manualNoteText s)) date
         (Some Source.user) :: panoNotes s)
  /\ (trim (manualNoteText s) = [] -> handleManualNoteSave now date s = s)
  /\ exists kept,
       Stripped t kept
       /\ (trim kept <> [] ->
             panoNotes (handleSaveToPano now date t s)
             = PanoNote.Make (toString now) (trim kept) date
                 (Some Source.bot) :: panoNotes s)
       /\ (trim kept = [] -> handleSaveToPano now date t s = s).
Proof.
  split_and!.
  - intros H. unfold handleManualNoteSave.
    by destruct (trim (manualNoteText s)).
  - intros H. unfold handleManualNoteSave. by rewrite H.
  - exists (removeAll generationDirective t).
    split; [apply removeAll_Stripped|].
    unfold handleSaveToPano, cleanText.
    destruct (trim (removeAll generationDirective t)); by split.
Qed.

Lemma notes_are_prepended_witness :
  let s := setManualNoteText (u " buy milk ") (sampleState []) in
  panoNotes (handleManualNoteSave 7 8 s)
  = [PanoNote.Make (u "7") (u "buy milk") 8 (Some Source.user)].
Proof.
  intros s.
  apply (notes_are_prepended 7 8 [] s). discriminate.
Defined.
Lemma run_litI a : forall s c k,
  run (litI a) s c k
  = if startsWithI (u a) s then k (drop (length (u a)) s) c else None.
Proof.
  induction a as [|x a IH]; intros s c k; [done|].
  rewrite u_cons. cbn [litI run chrI]. destruct s as [|y s]; [done|].
  cbn [startsWithI length drop].
  destruct (upperUnit y =? upperUnit (N_of_ascii x))%N; [|done].
  apply IH.
Qed.

Lemma space_not_letter x a :
  isSpace x = true -> (65 <= a <= 90)%N -> (upperUnit x =? a)%N = false.
Proof.
  intros Hx Ha. apply N.eqb_neq. intros E. unfold upperUnit in E.
  assert (x < 128)%N as Hlt.
  { destruct (_ && _) eqn:Hc in E; [|lia].
    apply andb_true_iff in Hc as [_ Hc%N.leb_le]. lia. }
  unfold isSpace in Hx.
  repeat (apply orb_true_iff in Hx as [Hx|Hx]);
    repeat match goal with
    | H : (_ && _) = true |- _ => apply andb_true_iff in H as [? ?]
    | H : (_ <=? _)%N = true |- _ => apply N.leb_le in H
    | H : (_ =? _)%N = true |- _ => apply N.eqb_eq in H
    end; try lia.
  all: destruct (_ && _) eqn:Hc in E;
    [apply andb_true_iff in Hc as [Hc1%N.leb_le Hc2%N.leb_le]; lia|lia].
Qed.

Lemma space_not_nameUnit x : isSpace x = true -> nameUnit x = false.
Proof.
  intros Hx. unfold isSpace in Hx.
  unfold nameUnit, alnum, oneOf. cbn [existsb u List.map list_ascii_of_string].
  repeat (apply orb_true_iff in Hx as [Hx|Hx]);
    repeat match goal with
    | H : (_ && _) = true |- _ => apply andb_true_iff in H as [? ?]
    | H : (_ <=? _)%N = true |- _ => apply N.leb_le in H
    | H : (_ =? _)%N = true |- _ => apply N.eqb_eq in H
    end;
    repeat (apply orb_false_iff; split);
    try (apply andb_false_iff; rewrite !N.leb_gt; lia);
    try (apply N.eqb_neq; vm_compute N_of_ascii; lia); done.
Qed.

Lemma take_skipWhile p s : takeWhile p s ++ skipWhile p s = s.
Proof.
  induction s as [|x s IH]; [done|]. cbn [takeWhile skipWhile].
  destruct (p x); [|done]. fold (takeWhile p) (skipWhile p). simpl.
  by rewrite IH.
Qed.

(** The captured group of a match at the head of a line is the name of
    the directive that starts there. *)
Lemma matchHere_filenameDirective l :
  (fun nc : nat * captures => capture 1 nc.2) <$> matchHere filenameDirective l
  = Some <$> directiveAt l.
Proof.
  unfold matchHere, filenameDirective, directiveAt.
  cbn [run]. rewrite run_litI.
  destruct (startsWithI (u "//") l); [|done].
  change (length (u "//")) with 2.
  rewrite many_whole.
  2:{ intros x s Hx _. rewrite run_litI. rewrite u_cons.
      cbn [startsWithI]. change (upperUnit (N_of_ascii "f")) with 70%N.
      by rewrite (space_not_letter x 70 Hx). }
  rewrite dropSpaces_skipWhile, run_litI.
  destruct (startsWithI (u "filename:") _); [|done].
  change (length (u "filename:")) with 9.
  rewrite many_whole.
  2:{ intros x s Hx _. unfold Some1. cbn [run].
      by rewrite (space_not_nameUnit x Hx). }
  rewrite dropSpaces_skipWhile.
  destruct (dropSpaces (drop 9 _)) as [|x l3]; [done|].
  unfold Some1. cbn [run]. destruct (nameUnit x); [|done].
  rewrite many_whole by done. cbn.
  do 2 f_equal.
  pose proof (take_skipWhile nameUnit l3) as H.
  set (tw := takeWhile nameUnit l3) in *.
  set (sw := skipWhile nameUnit l3) in *.
  rewrite <- H, length_app.
  replace (S (length tw + length sw) - length sw) with (S (length tw)) by lia.
  cbn [take]. f_equal. apply take_app_length.
Qed.

Lemma exec_filenameDirective l : forall pre,
  (execFrom filenameDirective pre l ≫= fun f => capture 1 (groups f))
  = directiveIn l.
Proof.
  induction l as [|x l IH]; intros pre; cbn [execFrom directiveIn].
  - pose proof (matchHere_filenameDirective []) as H.
    destruct (matchHere filenameDirective []) as [[n c]|];
      destruct (directiveAt []); simplify_eq/=; done.
  - pose proof (matchHere_filenameDirective (x :: l)) as H.
    destruct (matchHere filenameDirective (x :: l)) as [[n c]|];
      destruct (directiveAt (x :: l)); simplify_eq/=; done.
Qed.

Lemma getFilenameFromCode_spec code lang :
  getFilenameFromCode code lang
  = match directiveIn (firstPiece 10 code) with
    | Some name => Str name
    | None =>
      let byLang := getProperty extMap (toLowerCase lang) in
      if truthy byLang then byLang
      else Str (u "file." ++ match lang with [] => u "txt" | _ :: _ => lang end)
    end.
Proof.
  unfold getFilenameFromCode.
  pose proof (exec_filenameDirective (firstPiece 10 code) []) as H.
  fold (exec filenameDirective (firstPiece 10 code)) in H.
  pose proof (execFrom_Some filenameDirective (firstPiece 10 code) []) as Hs.
  fold (exec filenameDirective (firstPiece 10 code)) in Hs.
  destruct (exec filenameDirective (firstPiece 10 code)) as [f|].
  - simpl in H. rewrite <- H.
    destruct (capture 1 (groups f)) eqn:Hc; [done|]. exfalso.
    destruct (Hs f eq_refl) as (_ & _ & _ & Hm & _).
    pose proof (matchHere_filenameDirective (matched f ++ after f)) as Hd.
    rewrite Hm in Hd. simpl in Hd. rewrite Hc in Hd.
    by destruct (directiveAt _).
  - simpl in H. by rewrite <- H.
Qed.


Lemma toLowerCase_lower l :
  forallb (fun c => negb ((65 <=? c) && (c <=? 90))%N) (toLowerCase l) = true.
Proof.
  induction l as [|x l IH]; [done|]. simpl. rewrite IH, andb_true_r.
  unfold lowerUnit. destruct ((65 <=? x) && (x <=? 90))%N eqn:Hx.
  - apply andb_true_iff in Hx as [H1%N.leb_le H2%N.leb_le].
    apply negb_true_iff, andb_false_iff. right. apply N.leb_gt. lia.
  - by rewrite Hx.
Qed.

(** A key in lower case finds, besides the three own properties of
    [extMap], only [constructor] and [__proto__] on the prototype. *)
Lemma getProperty_lowercase lang :
  let key := toLowerCase lang in
  key <> u "html" -> key <> u "js" -> key <> u "css" ->
  key <> u "constructor" -> key <> u "__proto__" ->
  getProperty extMap key = Undefined.
Proof.
  intros key H1 H2 H3 H4 H5. unfold getProperty, extMap, ownProperty.
  rewrite !bool_decide_eq_false_2 by done.
  rewrite bool_decide_eq_false_2; [done|].
  unfold objectPrototype. rewrite !elem_of_cons, elem_of_nil.
  pose proof (toLowerCase_lower lang) as Hl. fold key in Hl.
  intros H; repeat destruct H as [H|H]; try done;
    rewrite H in Hl; vm_compute in Hl; discriminate Hl.
Qed.

(** ** File names *)

(** C3, as the code has it: the file name of a code block is the name
    given by the first directive of its first line when there is one;
    otherwise the fixed default of the language when the tag, compared
    without regard to case, is html, js or css; otherwise 'file.' followed
    by the tag, for every other non-empty tag whose lower-case form is
    neither 'constructor' nor '__proto__'. *)
Theorem file_name_of_code_block (code lang : jsstring) :
  let line := firstPiece 10 code in
  let key := toLowerCase lang in
  (forall name, directiveIn line = Some name ->
     getFilenameFromCode code lang = Str name)
  /\ (directiveIn line = None ->
      (key = u "html" -> getFilenameFromCode code lang = Str (u "index.html"))
      /\ (key = u "js" -> getFilenameFromCode code lang = Str (u "script.js"))
      /\ (key = u "css" -> getFilenameFromCode code lang = Str (u "style.css"))
      /\ (lang <> [] ->
          key ∉ [u "html"; u "js"; u "css"; u "constructor"; u "__proto__"] ->
          getFilenameFromCode code lang = Str (u "file." ++ lang))).
Proof.
  intros line key. rewrite getFilenameFromCode_spec. fold line key.
  split.
  - intros name H. by rewrite H.
  - intros H. rewrite H. split_and!.
    + by intros ->.
    + by intros ->.
    + by intros ->.
    + intros Hlang Hkey. rewrite !not_elem_of_cons in Hkey.
      destruct Hkey as (? & ? & ? & ? & ? & _).
      unfold key. rewrite getProperty_lowercase by done. simpl.
      by destruct lang.
Qed.

Lemma file_name_of_code_block_witness :
  getFilenameFromCode (u "// filename: app.ts") (u "html") = Str (u "app.ts")
  /\ getFilenameFromCode (u "body {}") (u "foo") = Str (u "file.foo").
Proof.
  split.
  - apply (file_name_of_code_block (u "// filename: app.ts") (u "html")).
    reflexivity.
  - apply (file_name_of_code_block (u "body {}") (u "foo"));
      [reflexivity|discriminate|].
    rewrite !not_elem_of_cons.
    split_and!; try apply not_elem_of_nil; intros H; vm_compute in H;
      discriminate H.
Defined.

(** The claim as the spec words it gives 'file.HTML' for the tag 'HTML',
    which is none of 'html', 'js' and 'css'; the code looks the tag up in
    lower case and answers 'index.html'. *)
Lemma file_name_upper_case_counterexample :
  directiveIn (firstPiece 10 []) = None
  /\ u "HTML" <> []
  /\ (u "HTML" ∉ [u "html"; u "js"; u "css"])
  /\ getFilenameFromCode [] (u "HTML") = Str (u "index.html")
  /\ getFilenameFromCode [] (u "HTML") <> Str (u "file.HTML").
Proof.
  split_and!; try done.
  rewrite !not_elem_of_cons.
  split_and!; try apply not_elem_of_nil; intros H; vm_compute in H;
    discriminate H.
Qed.
Lemma indexOf_Some t s i :
  indexOf t s = Some i ->
  exists pre post, s = pre ++ t ++ post /\ length pre = i.
Proof.
  revert i. induction s as [|x s IH]; intros i; simpl.
  - destruct (startsWith t []) eqn:Ht; [|done]. intros [= <-].
    apply startsWith_true in Ht as [rest Hr]. by exists [], rest.
  - destruct (startsWith t (x :: s)) eqn:Ht.
    + intros [= <-]. apply startsWith_true in Ht as [rest Hr]. by exists [], rest.
    + destruct (indexOf t s) as [j|]; [|done]. intros [= <-].
      destruct (IH _ eq_refl) as (pre & post & -> & <-).
      by exists (x :: pre), post.
Qed.

Lemma indexOf_app t pre post :
  exists i, indexOf t (pre ++ t ++ post) = Some i /\ i <= length pre.
Proof.
  induction pre as [|x pre (i & Hi & Hle)].
  - exists 0. simpl. destruct (t ++ post) eqn:E; simpl;
      rewrite <- E, startsWith_app; split; done || lia.
  - simpl. destruct (startsWith t (x :: pre ++ t ++ post)).
    + exists 0. split; [done|lia].
    + exists (S i). rewrite Hi. split; [done|]. simpl. lia.
Qed.

Lemma indexOf_None t s pre post : indexOf t s = None -> s <> pre ++ t ++ post.
Proof.
  intros H ->. destruct (indexOf_app t pre post) as (i & Hi & _). congruence.
Qed.

Lemma few_any_lit t (K : cont) c :
  (forall s, K s c <> None) ->
  forall s, few anyUnit s c (fun s1 c1 => run (lit t) s1 c1 K)
            = match indexOf (u t) s with
              | Some i => K (drop (i + length (u t)) s) c
              | None => None
              end.
Proof.
  intros HK. induction s as [|x s IH].
  - cbn [few indexOf]. rewrite run_lit.
    destruct (startsWith (u t) []); [|done].
    specialize (HK (drop (length (u t)) [])). simpl.
    by destruct (K _ c).
  - rewrite few_cons, run_lit. cbn [indexOf].
    destruct (startsWith (u t) (x :: s)).
    + specialize (HK (drop (length (u t)) (x :: s))). simpl.
      by destruct (K _ c).
    + cbn [anyUnit]. rewrite IH. by destruct (indexOf (u t) s).
Qed.

Lemma indexOf_bound t s i : indexOf t s = Some i -> i + length t <= length s.
Proof.
  intros (pre & post & -> & <-)%indexOf_Some. rewrite !length_app. lia.
Qed.

Lemma matchHere_fencedRegion s :
  matchHere fencedRegion s
  = (fun n => (n, [(1, take n s)])) <$> fenceLength s.
Proof.
  unfold matchHere, fencedRegion, fenceLength, ticks.
  cbn [run]. rewrite run_lit.
  destruct (startsWith (u "```") s); [|done].
  change (length (u "```")) with 3.
  rewrite few_any_lit by done.
  destruct (indexOf (u "```") (drop 3 s)) as [i|] eqn:Hi; [|done].
  apply indexOf_bound in Hi. rewrite length_drop in Hi.
  change (length (u "```")) with 3 in *.
  cbn. rewrite !length_drop.
  replace (length s - (length s - 3 - (i + 3))) with (i + 6) by lia.
  done.
Qed.
Lemma startsWith_app_l t s post :
  startsWith t s = true -> startsWith t (s ++ post) = true.
Proof.
  intros [rest ->]%startsWith_true. rewrite <- app_assoc. apply startsWith_app.
Qed.

Lemma indexOf_prefix t pre post :
  indexOf t (pre ++ t ++ post) = Some (length pre) ->
  indexOf t (pre ++ t) = Some (length pre).
Proof.
  induction pre as [|x pre IH]; intros H.
  - simpl. rewrite <- (app_nil_r t) at 2.
    destruct (t ++ []) eqn:E; simpl; rewrite <- E; by rewrite startsWith_app.
  - simpl in *.
    destruct (startsWith t (x :: pre ++ t ++ post)) eqn:Hs; [done|].
    destruct (startsWith t (x :: pre ++ t)) eqn:Hs'.
    + apply (startsWith_app_l _ _ post) in Hs'.
      simpl in Hs'. rewrite <- app_assoc in Hs'. congruence.
    + destruct (indexOf t (pre ++ t ++ post)) as [j|]; [|done].
      injection H as ->. by rewrite IH.
Qed.

Lemma fenceLength_Some s n :
  fenceLength s = Some n ->
  exists f rest, s = f ++ rest /\ Fence f /\ n = length f.
Proof.
  unfold fenceLength. destruct (startsWith ticks s) eqn:Hs; [|done].
  apply startsWith_true in Hs as [s3 ->].
  change (drop 3 (ticks ++ s3)) with s3.
  destruct (indexOf ticks s3) as [i|] eqn:Hi; [|done]. intros [= <-].
  destruct (indexOf_Some _ _ _ Hi) as (pre & post & -> & <-).
  exists (ticks ++ pre ++ ticks), post. split_and!.
  - by rewrite <- !app_assoc.
  - exists pre. split; [done|]. by apply indexOf_prefix in Hi.
  - rewrite !length_app. simpl. lia.
Qed.

Lemma fenceLength_None s b c :
  fenceLength s = None -> s <> ticks ++ b ++ ticks ++ c.
Proof.
  unfold fenceLength. intros H ->. rewrite startsWith_app in H.
  change (drop 3 (ticks ++ b ++ ticks ++ c)) with (b ++ ticks ++ c) in H.
  destruct (indexOf_app ticks b c) as (i & Hi & _). by rewrite Hi in H.
Qed.

Lemma Fence_HasFencePair f : Fence f -> HasFencePair f.
Proof. intros (body & -> & _). exists [], body, []. by rewrite app_nil_r. Qed.

Lemma Fence_length f : Fence f -> 6 <= length f.
Proof. intros (body & -> & _). rewrite !length_app. simpl. lia. Qed.

Lemma Matches_lit t a rest : Matches (lit t) a rest -> a = u t.
Proof.
  revert a rest. induction t as [|x t IH]; intros a rest H; simpl in H.
  - by inversion H.
  - inversion H as [| |r1 r2 a1 b1 rest1 H1 H2| | | | | | | | |]; subst.
    apply IH in H2 as ->. unfold chr in H1.
    inversion H1 as [|p y rest' Hy| | | | | | | | | |]; subst.
    apply N.eqb_eq in Hy as <-. by rewrite u_cons.
Qed.

Lemma Matches_lit_intro t rest : Matches (lit t) (u t) rest.
Proof.
  induction t as [|x t IH]; [constructor|].
  rewrite u_cons. simpl.
  change (N_of_ascii x :: u t) with ([N_of_ascii x] ++ u t).
  constructor; [|done]. constructor. apply N.eqb_refl.
Qed.

(** [part.match(codeBlock)] succeeds exactly on the texts that hold a
    pair of fences. *)
Lemma exec_codeBlock p : is_Some (exec codeBlock p) <-> HasFencePair p.
Proof.
  rewrite exec_is_Some. split.
  - intros (pre & a & rest & -> & H). unfold codeBlock in H.
    inversion H as [| |? ? a1 b1 ? H1 H2| | | | | | | | |]; subst.
    apply (Matches_lit "```") in H1 as ->.
    inversion H2 as [| |? ? a2 b2 ? _ H3| | | | | | | | |]; subst.
    inversion H3 as [| |? ? a3 b3 ? _ H4| | | | | | | | |]; subst.
    inversion H4 as [| |? ? a4 b4 ? _ H5| | | | | | | | |]; subst.
    apply (Matches_lit "```") in H5 as ->.
    exists pre, (a2 ++ a3 ++ a4), rest. unfold ticks.
    by rewrite <- !app_assoc.
  - intros (a & b & c & ->). exists a, (ticks ++ b ++ ticks), c.
    split; [by rewrite <- !app_assoc|]. unfold codeBlock.
    constructor; [apply Matches_lit_intro|].
    change (b ++ ticks) with ([] ++ b ++ ticks).
    constructor; [apply MMaybeNo|].
    change (b ++ ticks) with ([] ++ b ++ ticks).
    constructor; [apply MMaybeNo|].
    constructor; [|apply Matches_lit_intro].
    constructor. constructor. clear. by induction b.
Qed.
Lemma splitFrom_skip r : forall s n cur,
  splitFrom r n cur s = splitFrom r 0 cur (drop n s).
Proof.
  induction s as [|x s IH]; intros [|n] cur; try done.
  simpl. apply IH.
Qed.

Lemma execFrom_pre r : forall s pre,
  execFrom r pre s
  = (fun f => Found (rev pre ++ before f) (matched f) (after f) (groups f))
    <$> execFrom r [] s.
Proof.
  induction s as [|x s IH]; intros pre; simpl.
  - destruct (matchHere r []) as [[n c]|]; simpl; by rewrite ?app_nil_r.
  - destruct (matchHere r (x :: s)) as [[n c]|]; simpl;
      [by rewrite app_nil_r|].
    rewrite (IH (x :: pre)), (IH [x]).
    destruct (execFrom r [] s) as [f|]; [|done]. simpl.
    by rewrite <- !app_assoc.
Qed.

(** [split] cuts at the leftmost match and goes on after it, for a
    pattern that never matches the empty text. *)
Lemma splitFrom_exec r :
  (forall s c, matchHere r s <> Some (0, c)) ->
  forall s cur,
    splitFrom r 0 cur s
    = match exec r s with
      | None => [rev cur ++ s]
      | Some f =>
        (rev cur ++ before f) :: matched f :: splitFrom r 0 [] (after f)
      end.
Proof.
  intros Hne. induction s as [|x s IH]; intros cur.
  - unfold exec. simpl.
    destruct (matchHere r []) as [[n c]|] eqn:Hm; [|by rewrite app_nil_r].
    destruct (matchHere_Some _ _ _ _ Hm) as (a & rest & Hs & _ & ->).
    symmetry in Hs. apply app_eq_nil in Hs as [-> _]. by destruct (Hne [] c).
  - unfold exec. cbn [splitFrom execFrom].
    destruct (matchHere r (x :: s)) as [[[|n] c]|] eqn:Hm.
    + by destruct (Hne (x :: s) c).
    + cbn [before matched after rev]. rewrite app_nil_r.
      change (drop (S n) (x :: s)) with (drop n s).
      by rewrite (splitFrom_skip r s n).
    + rewrite IH, execFrom_pre. fold (exec r s).
      destruct (exec r s) as [f|]; simpl; by rewrite <- !app_assoc.
Qed.

Lemma fencedRegion_not_empty s c : matchHere fencedRegion s <> Some (0, c).
Proof.
  rewrite matchHere_fencedRegion. unfold fenceLength.
  destruct (startsWith ticks s); [|done].
  destruct (indexOf ticks (drop 3 s)) as [i|]; [|done].
  simpl. intros [= H _]. lia.
Qed.

Lemma split_fencedRegion s : split fencedRegion s = splitFrom fencedRegion 0 [] s.
Proof.
  destruct s as [|x s]; [|done]. unfold split.
  by rewrite matchHere_fencedRegion.
Qed.

Lemma no_match_no_pair s a b c :
  matchHere fencedRegion (drop (length a) s) = None ->
  s <> a ++ ticks ++ b ++ ticks ++ c.
Proof.
  intros H ->. rewrite drop_app_length, matchHere_fencedRegion in H.
  destruct (fenceLength (ticks ++ b ++ ticks ++ c)) eqn:Hf; [done|].
  by apply (fenceLength_None _ b c) in Hf.
Qed.

(** The parts of [split] alternate between pieces without a pair of
    fences and fenced regions, and add up to the text. *)
Lemma split_FencedPieces s :
  FencedPieces (split fencedRegion s) /\ concat (split fencedRegion s) = s.
Proof.
  rewrite split_fencedRegion.
  induction s as [s IH] using (induction_ltof1 _ (@length N)).
  unfold ltof in IH.
  rewrite (splitFrom_exec _ fencedRegion_not_empty). cbn [rev app].
  destruct (exec fencedRegion s) as [f|] eqn:He.
  - unfold exec in He.
    destruct (execFrom_Some _ _ _ _ He) as (sk & Hb & Hs & Hm & Hleft).
    simpl in Hb. subst sk.
    rewrite matchHere_fencedRegion in Hm.
    destruct (fenceLength (matched f ++ after f)) as [n|] eqn:Hf; [|done].
    injection Hm as -> _.
    destruct (fenceLength_Some _ _ Hf) as (f' & rest & Happ & Hfence & Hlen).
    apply app_inj_1 in Happ as [<- <-]; [|done].
    pose proof (Fence_length _ Hfence) as H6.
    destruct (IH (after f)) as [IH1 IH2].
    { rewrite Hs, !length_app. lia. }
    split.
    + constructor; [|done|done].
      intros (a & b & c & Hgap).
      apply (no_match_no_pair s a b (c ++ matched f ++ after f)).
      * apply Hleft. rewrite Hgap, !length_app. simpl. lia.
      * rewrite Hs, Hgap. by rewrite <- !app_assoc.
    + simpl. by rewrite IH2.
  - split; [|simpl; by rewrite app_nil_r].
    constructor. intros (a & b & c & ->).
    unfold exec in He.
    eapply no_match_no_pair; [|done].
    apply (execFrom_None _ _ _ He). rewrite length_app. lia.
Qed.

Lemma FencedPieces_lookup parts :
  FencedPieces parts ->
  (exists n, length parts = 2 * n + 1)
  /\ forall i p, parts !! i = Some p ->
       (Nat.even i = true -> ~ HasFencePair p)
       /\ (Nat.odd i = true -> Fence p).
Proof.
  induction 1 as [t Ht|gap f parts Hgap Hf _ [[n Hn] IH]].
  - split; [by exists 0|]. intros [|i] p Hp; [|done].
    injection Hp as <-. by split.
  - split; [exists (S n); simpl; lia|].
    intros [|[|i]] p Hp.
    + injection Hp as <-. by split.
    + injection Hp as <-. by split.
    + exact (IH i p Hp).
Qed.

(** ** Rendering *)

Lemma renderPart_plain expandedBlocks msgId i part :
  ~ HasFencePair part ->
  renderPart expandedBlocks msgId i part = Formatted (renderFormattedLines part).
Proof.
  intros H. unfold renderPart.
  destruct (exec codeBlock part) as [m|] eqn:He; [|done].
  destruct H. apply exec_codeBlock. by rewrite He.
Qed.

Lemma renderPart_code expandedBlocks msgId i part :
  HasFencePair part ->
  exists blockId label expanded,
    renderPart expandedBlocks msgId i part = CodeBlock blockId label expanded.
Proof.
  intros H%exec_codeBlock. unfold renderPart.
  destruct (exec codeBlock part) as [m|]; [by eexists _, _, _|].
  by destruct H.
Qed.

(** C8, where the code breaks it: a message whose text is one fenced
    region with the tag [__proto__] is rendered as three blocks, and the
    label of the code block is not a text: it is what the object literal
    [extMap] inherits under the key ['__proto__'], the object
    [Object.prototype], which [renderMessageContent] puts into the header
    of the block as a child. *)
Theorem proto_tag_label_is_not_a_text (isLoading : bool)
  (expandedBlocks : list jsstring) (role : Role) :
  renderMessageContent isLoading expandedBlocks
    (Message.Make (u "7") role (u "```__proto__" ++ [10%N] ++ u "x```") 0
       None None None)
  = Content None
      [Formatted [MkLine (u "mb-1.5 block") []];
       CodeBlock (u "7-1") (Inherited (u "__proto__"))
         (if bool_decide (u "7-1" ∈ expandedBlocks) then Some (u "x") else None);
       Formatted [MkLine (u "mb-1.5 block") []]]
      None.
Proof.
  unfold renderMessageContent.
  rewrite (bool_decide_eq_false_2 (_ = [])) by done. cbn [andb].
  assert (split fencedRegion
            (cleanText (u "```__proto__" ++ [10%N] ++ u "x```"))
          = [[]; u "```__proto__" ++ [10%N] ++ u "x```"; []]) as Hs
    by (by vm_compute).
  cbn [Message.text Message.id Message.role Message.mediaUrl Message.type].
  rewrite Hs. cbn [imap].
  assert (forall i, renderPart expandedBlocks (u "7") i []
                    = Formatted [MkLine (u "mb-1.5 block") []]) as Hgap
    by (intros i; by vm_compute).
  rewrite Hgap. unfold compose. rewrite Hgap.
  assert (renderPart expandedBlocks (u "7") 1
            (u "```__proto__" ++ [10%N] ++ u "x```")
          = CodeBlock (u "7-1") (Inherited (u "__proto__"))
              (if bool_decide (u "7-1" ∈ expandedBlocks)
               then Some (u "x") else None)) as ->.
  { unfold renderPart.
    assert (exec codeBlock (u "```__proto__" ++ [10%N] ++ u "x```")
            = Some (Found [] (u "```__proto__" ++ [10%N] ++ u "x```") []
                      [(2, u "x"); (1, u "__proto__")])) as ->
      by (by vm_compute).
    cbn [groups capture Nat.eqb default from_option].
    change (Datatypes.id (u "x")) with (u "x").
    change (match u "__proto__" with [] => u "code" | _ :: _ => u "__proto__" end)
      with (u "__proto__").
    assert (getFilenameFromCode (u "x") (u "__proto__")
            = Inherited (u "__proto__")) as -> by (by vm_compute).
    assert (u "7" ++ u "-" ++ toString (Z.of_nat 1) = u "7-1") as ->
      by (by vm_compute).
    assert (trim (u "x") = u "x") as -> by (by vm_compute).
    reflexivity. }
  by destruct role.
Qed.
Lemma u_inj a b : u a = u b -> a = b.
Proof.
  unfold u. intros H.
  rewrite <- (string_of_list_ascii_of_string a), <- (string_of_list_ascii_of_string b).
  f_equal. revert H. generalize (list_ascii_of_string a) (list_ascii_of_string b).
  induction l as [|x l IH]; intros [|y l'] H; try done.
  simpl in H. injection H as Hx Hl.
  f_equal; [|by apply IH].
  rewrite <- (ascii_N_embedding x), <- (ascii_N_embedding y). by rewrite Hx.
Qed.

Lemma to_int_proper z : Z.to_int z <> Decimal.Pos Decimal.Nil /\ Z.to_int z <> Decimal.Neg Decimal.Nil.
Proof.
  destruct z; simpl; split; try discriminate;
    intros [= H]; by apply Unsigned.to_uint_nonnil in H.
Qed.

Lemma toString_inj n m : toString n = toString m -> n = m.
Proof.
  unfold toString. intros H%u_inj.
  apply (f_equal NilZero.int_of_string) in H.
  destruct (to_int_proper n), (to_int_proper m).
  rewrite !NilZero.isi in H by done.
  injection H as H. by apply DecimalZ.to_int_inj.
Qed.

Lemma toString_not_init n : toString n <> u "init".
Proof.
  unfold toString. intros H%u_inj.
  apply (f_equal NilZero.int_of_string) in H.
  destruct (to_int_proper n).
  rewrite NilZero.isi in H by done. discriminate H.
Qed.
Section Persisted.

Context `{Codec}.

(** ** Rehydration *)

Lemma rehydrate_messages date s b :
  currentBot s = Some b ->
  messages (rehydrate date s)
  = match getSaved (localStorage s) (CHAT_STORAGE_KEY (id s)) with
    | Some saved => default [initMessage b date] (parseMessages saved)
    | None => [initMessage b date]
    end.
Proof.
  intros Hb. unfold rehydrate. rewrite Hb.
  destruct (getSaved (localStorage s) (CHAT_STORAGE_KEY (id s))) as [saved|];
    [destruct (parseMessages saved)|]; simpl;
    repeat match goal with
    | |- context [match ?x with _ => _ end] => destruct x
    end; done.
Qed.

(** When the stored notes do not parse, the reload leaves the notes list
    as it was. *)
Lemma rehydrate_notes_kept date s saved :
  getSaved (localStorage s) (PANO_STORAGE_KEY (id s)) = Some saved ->
  JSON.parse saved = None ->
  panoNotes (rehydrate date s) = panoNotes s.
Proof.
  intros Hs Hp. unfold rehydrate.
  destruct (currentBot s); [|done].
  assert (parseNotes saved = None) as Hn
    by (unfold parseNotes; by rewrite Hp).
  destruct (getSaved (localStorage s) (CHAT_STORAGE_KEY (id s))) as [c|];
    [destruct (parseMessages c)|]; simpl; rewrite Hs, Hn;
    by destruct (getSaved _ (MODEL_STORAGE_KEY _)).
Qed.

(** C7, as the code has it: for a stored text that does not parse as
    JSON, the initializers of the message list and of the notes list give
    the empty list, and the reload on a change of bot sets the message
    list to the single opening message of the session. *)
Theorem rehydration_falls_back (saved : jsstring) :
  JSON.parse saved = None ->
  (forall storage i,
     getSaved storage (CHAT_STORAGE_KEY i) = Some saved ->
     initialMessages storage i = [])
  /\ (forall storage i,
        getSaved storage (PANO_STORAGE_KEY i) = Some saved ->
        initialPanoNotes storage i = [])
  /\ (forall s date b,
        currentBot s = Some b ->
        getSaved (localStorage s) (CHAT_STORAGE_KEY (id s)) = Some saved ->
        messages (rehydrate date s) = [initMessage b date]).
Proof.
  intros Hp. split_and!.
  - intros storage i Hs. unfold initialMessages, parseMessages.
    by rewrite Hs, Hp.
  - intros storage i Hs. unfold initialPanoNotes, parseNotes.
    by rewrite Hs, Hp.
  - intros s date b Hb Hs. rewrite (rehydrate_messages _ _ _ Hb), Hs.
    unfold parseMessages. by rewrite Hp.
Qed.

(** ** Saving the history *)

Lemma handleSaveToPano_frame now date t s :
  messages (handleSaveToPano now date t s) = messages s
  /\ localStorage (handleSaveToPano now date t s) = localStorage s.
Proof. unfold handleSaveToPano. by destruct (cleanText t). Qed.

Lemma handleManualNoteSave_frame now date s :
  messages (handleManualNoteSave now date s) = messages s
  /\ localStorage (handleManualNoteSave now date s) = localStorage s.
Proof. unfold handleManualNoteSave. by destruct (trim (manualNoteText s)). Qed.

Lemma openChatSession_frame s :
  messages (openChatSession s) = messages s
  /\ localStorage (openChatSession s) = localStorage s.
Proof. unfold openChatSession. by destruct (currentBot s). Qed.

Lemma persistSettings_frame s :
  messages (persistSettings s) = messages s
  /\ forall i, localStorage (persistSettings s) !! CHAT_STORAGE_KEY i
               = localStorage s !! CHAT_STORAGE_KEY i.
Proof.
  unfold persistSettings. destruct (id s) as [[|x i]|]; try done.
  split; [done|]. intros j. simpl.
  rewrite lookup_insert_ne
    by (intros E; symmetry in E; by apply chat_key_not_pano_key in E).
  by rewrite lookup_insert_ne
    by (intros E; symmetry in E; by apply chat_key_not_model_key in E).
Qed.




(** ** Identifiers *)

Lemma issued_mono hi hi' i : (hi <= hi')%Z -> issued hi i -> issued hi' i.
Proof.
  intros Hle [->|(n & -> & Hn)]; [by left|]. right. exists n. split; [done|lia].
Qed.

Lemma UniqueIds_mono hi hi' l :
  (hi <= hi')%Z -> UniqueIds hi l -> UniqueIds hi' l.
Proof.
  intros Hle [Hnd Hall]. split; [done|].
  eapply Forall_impl; [exact Hall|]. intros m. by apply issued_mono.
Qed.

Lemma UniqueIds_nil hi : UniqueIds hi [].
Proof. split; [constructor|constructor]. Qed.

Lemma UniqueIds_snoc hi l m n :
  UniqueIds hi l -> Message.id m = toString n -> (hi < n)%Z ->
  UniqueIds n (l ++ [m]).
Proof.
  intros [Hnd Hall] Hid Hlt. split.
  - rewrite fmap_app. apply NoDup_app. split; [done|]. split.
    + intros i Hi Hin. apply list_elem_of_fmap in Hi as (m' & -> & Hm').
      rewrite Forall_forall in Hall. specialize (Hall _ Hm').
      simpl in Hin. apply list_elem_of_singleton in Hin. rewrite Hid in Hin.
      destruct Hall as [Hinit|(k & Hk & Hle)].
      * rewrite Hinit in Hin. symmetry in Hin. by apply toString_not_init in Hin.
      * rewrite Hk in Hin. apply toString_inj in Hin. lia.
    + simpl. apply NoDup_singleton.
  - apply Forall_app. split.
    + eapply Forall_impl; [exact Hall|]. intros m'. apply issued_mono. lia.
    + constructor; [|constructor]. right. exists n. split; [done|lia].
Qed.

Lemma UniqueIds_map hi (f : Message -> Message) l :
  (forall m, Message.id (f m) = Message.id m) ->
  UniqueIds hi l -> UniqueIds hi (List.map f l).
Proof.
  intros Hf [Hnd Hall]. split.
  - replace (Message.id <$> List.map f l) with (Message.id <$> l); [done|].
    clear -Hf. induction l as [|m l IH]; [done|]. csimpl. by rewrite Hf, IH.
  - apply Forall_forall. intros m' Hm'.
    apply list_elem_of_In, in_map_iff in Hm' as (m & <- & Hm).
    rewrite Hf. rewrite Forall_forall in Hall. apply Hall.
    by apply list_elem_of_In.
Qed.

Lemma UniqueIds_init hi b date : UniqueIds hi [initMessage b date].
Proof.
  split; [apply NoDup_singleton|]. constructor; [by left|constructor].
Qed.

(** C9, as the code has it: along every run of the component in which
    the clock readings taken for identifiers increase and the reloaded
    histories have distinct identifiers issued before, no two messages of
    the list have the same identifier. *)
Theorem identifiers_unique_under_clock_discipline (evs : list event) :
  forall (hi : Z) (s : State),
    UniqueIds hi (messages s) ->
    disciplined hi s evs ->
    NoDup (Message.id <$> messages (steps s evs)).
Proof.
  induction evs as [|e evs IH]; intros hi s Hu Hd; [by destruct Hu|].
  unfold steps. cbn [foldl]. fold (steps (step s e) evs).
  destruct e; cbn [disciplined] in Hd;
    try (apply (IH hi); [|exact Hd]; cbn [step]).
  - done.
  - destruct Hd as [Hsaved Hd]. apply (IH hi); [|exact Hd]. cbn [step].
    destruct (currentBot s) as [b|] eqn:Hb.
    + rewrite (rehydrate_messages date s b Hb).
      destruct (getSaved _ (CHAT_STORAGE_KEY _)) as [saved|] eqn:Hs;
        [|apply UniqueIds_init].
      destruct (parseMessages saved) as [l|] eqn:Hl; [|apply UniqueIds_init].
      by apply (Hsaved saved).
    + unfold rehydrate. by rewrite Hb.
  - by destruct (openChatSession_frame s) as [-> _].
  - unfold persistHistory. destruct (messages s) eqn:E; [by rewrite E|].
    destruct writable; simpl; by rewrite E.
  - by destruct (persistSettings_frame s) as [-> _].
  - done.
  - done.
  - done.
  - done.
  - by destruct (handleSaveToPano_frame now date t s) as [-> _].
  - by destruct (handleManualNoteSave_frame now date s) as [-> _].
  - done.
  - done.
  - apply UniqueIds_nil.
  - destruct Hd as [[H1 H2] Hd]. apply (IH (nowBot w + 1)%Z); [|exact Hd].
    cbn [step]. destruct (sendRefused s).
    + eapply UniqueIds_mono; [|exact Hu]. lia.
    + rewrite sendBegin_messages.
      change [?a; ?b] with ([a] ++ [b]). rewrite app_assoc.
      apply (UniqueIds_snoc (nowUser w)); [|done|lia].
      by apply (UniqueIds_snoc hi).
  - simpl. apply UniqueIds_map; [|done]. intros m. by case_bool_decide.
  - unfold sendFailed. simpl. apply UniqueIds_map; [|done].
    intros m. by case_bool_decide.
  - done.
  - destruct Hd as [Hlt Hd]. apply (IH now); [|exact Hd]. cbn [step]. simpl.
    by apply (UniqueIds_snoc hi).
  - done.
Qed.

End Persisted.
Lemma rehydration_falls_back_witness :
  JSON.parse (u "{oops") = None
  /\ messages (@rehydrate opaqueCodec 0 brokenHistory) = [initMessage sampleBot 0]
  /\ @initialMessages opaqueCodec (localStorage brokenHistory) (Some (u "b1")) = [].
Proof.
  destruct (@rehydration_falls_back opaqueCodec (u "{oops") eq_refl)
    as (Hinit & _ & Hreload).
  split; [reflexivity|]. split.
  - apply (Hreload brokenHistory 0%Z sampleBot); [reflexivity|].
    unfold getSaved, brokenHistory. simpl. by rewrite lookup_insert_eq.
  - apply Hinit. unfold getSaved, brokenHistory. simpl.
    by rewrite lookup_insert_eq.
Defined.

(** The claim as the spec words it has the reload fall back to the empty
    list; with a stored history that does not parse, the reload leaves
    the opening message of the session in the list. *)
Lemma reload_fallback_counterexample :
  JSON.parse (u "{oops") = None
  /\ localStorage brokenHistory !! CHAT_STORAGE_KEY (id brokenHistory)
     = Some (u "{oops")
  /\ messages (@rehydrate opaqueCodec 0 brokenHistory) <> [].
Proof.
  split; [reflexivity|]. split.
  - unfold brokenHistory. simpl. by rewrite lookup_insert_eq.
  - rewrite (rehydrate_messages 0%Z brokenHistory sampleBot eq_refl).
    unfold getSaved, brokenHistory. simpl. by rewrite lookup_insert_eq.
Qed.


Lemma identifiers_unique_witness :
  NoDup (Message.id <$> messages
    (@steps opaqueCodec (sampleState (u "hi"))
       [SendBegin (sampleOutside [u "ok"] None);
        Chunk (u "1001") [] (u "ok", None);
        ImageReady 5000 5000 (u "blob:1");
        Settled])).
Proof.
  apply (@identifiers_unique_under_clock_discipline opaqueCodec _ 0%Z).
  - apply UniqueIds_nil.
  - simpl. lia.
Defined.

(** The claim as the spec words it holds for every run; in a send whose
    stream and image generation settle within the millisecond after the
    placeholder was made, the image message takes the identifier of the
    placeholder. *)
Lemma identifiers_collide_counterexample :
  let w := MkOutside 1000 1000 1000 1000
             [(u "[GENERATE_IMAGE: a cat]", None)] None
             (inr (u "blob:1")) 1001 1001 in
  Message.id <$> messages (send w (sampleState (u "draw a cat"))).1
  = [u "1000"; u "1001"; u "1001"]
  /\ ~ NoDup (Message.id <$> messages (send w (sampleState (u "draw a cat"))).1).
Proof.
  intros w.
  assert (Message.id <$> messages (send w (sampleState (u "draw a cat"))).1
          = [u "1000"; u "1001"; u "1001"]) as E by (by vm_compute).
  split; [exact E|]. rewrite E. intros Hnd.
  apply NoDup_cons in Hnd as [_ Hnd]. apply NoDup_cons in Hnd as [Hnin _].
  apply Hnin. by left.
Qed.

(** ** The examples of the specification *)

Example streamed_Hel_lo :
  let w := sampleOutside [u "Hel"; u "lo"] None in
  let s := sampleState (u "hi") in
  let botMsgId := toString (nowBot w + 1) in
  Message.text <$>
    messages (foldl (onChunk botMsgId) ([], sendBegin w s) (take 1 (chunks w))).2
  = [u "hi"; u "Hel"]
  /\ Message.text <$> messages (send w s).1 = [u "hi"; u "Hello"].
Proof. split; by vm_compute. Qed.

Example html_block_is_index_html :
  getFilenameFromCode (u "<p>hi</p>") (u "html") = Str (u "index.html").
Proof. by vm_compute. Qed.

Example unknown_language_is_file_foo :
  getFilenameFromCode (u "x = 1") (u "foo") = Str (u "file.foo").
Proof. by vm_compute. Qed.

Example directive_overrides_language :
  getFilenameFromCode (u "// filename: app.ts" ++ [10%N] ++ u "let x") (u "html")
  = Str (u "app.ts").
Proof. by vm_compute. Qed.

(** A tag that names a property of [Object.prototype] finds that
    property instead of falling through to 'file.' and the tag. *)
Example constructor_tag_is_inherited :
  getFilenameFromCode (u "x = 1") (u "constructor")
  = Inherited (u "constructor").
Proof. by vm_compute. Qed.

Example bare_address_becomes_link :
  spans (renderLine (u "see www.example.com/path, ok"))
  = [Plain (u "see ");
     BareLink (u "https://www.example.com/path") (u "www.example.com/path");
     Plain (u ", ok")].
Proof. by vm_compute. Qed.

Example note_from_message_drops_directive :
  panoNotes (handleSaveToPano 7 8 (u "[GENERATE_IMAGE: a cat] Here it is.")
               (sampleState []))
  = [PanoNote.Make (u "7") (u "Here it is.") 8 (Some Source.bot)].
Proof. by vm_compute. Qed.

Example lone_fence_is_plain_text :
  renderMessageContent false []
    (Message.Make (u "7") Role.model (u "```js") 0 None None None)
  = Content None [Formatted (renderFormattedLines (u "```js"))] None.
Proof. by vm_compute. Qed.
(** * Further properties *)

(** ** Sending *)

Lemma sendFailed_others b e s i m :
  messages s !! i = Some m -> Message.id m <> b ->
  messages (sendFailed b e s) !! i = Some m.
Proof.
  intros Hi Hb. unfold sendFailed. destruct s; simpl in *.
  rewrite list_lookup_fmap, Hi. simpl.
  by rewrite bool_decide_eq_false_2.
Qed.

Lemma afterStream_others w b t s i m :
  messages s !! i = Some m -> Message.id m <> b ->
  messages (afterStream w b t s).1 !! i = Some m.
Proof.
  intros Hi Hb. unfold afterStream.
  destruct (exec imageDirective t); [|done].
  destruct (match currentBot s with Some b0 => Bot.hasImageGen b0 | None => false end);
    [|done].
  destruct (generated w); simpl.
  - apply sendFailed_others; [|done]. by destruct s.
  - destruct s; simpl in *. by apply lookup_app_l_Some.
Qed.

Lemma messages_setIsLoading b s : messages (setIsLoading b s) = messages s.
Proof. by destruct s. Qed.

Lemma send_others w s i m :
  messages (sendBegin w s) !! i = Some m ->
  Message.id m <> toString (nowBot w + 1) ->
  sendRefused s = false ->
  messages (send w s).1 !! i = Some m.
Proof.
  intros Hi Hb Hr. unfold send. rewrite Hr.
  destruct (sendRefused_false_session s Hr) as [session ->].
  cbn zeta.
  assert (Hs : messages (foldl (onChunk (toString (nowBot w + 1)))
                          ([], sendBegin w s) (chunks w)).2 !! i = Some m)
    by (by apply onChunk_others).
  set (st := foldl _ _ _) in *.
  destruct (rejected w); cbn [fst snd]; rewrite messages_setIsLoading; cbn [fst snd].
  - by apply sendFailed_others.
  - by apply afterStream_others.
Qed.

(** X1: a send rewrites no message but its placeholder: every message that
    was on the screen, the one that has the identifier of the placeholder
    apart, is found at its place afterwards, however the send ends; and
    the message of the user comes right after them, as it was sent. *)
Theorem send_keeps_other_messages w s :
  (forall i m, messages s !! i = Some m ->
     Message.id m <> toString (nowBot w + 1) ->
     messages (send w s).1 !! i = Some m)
  /\ (sendRefused s = false -> nowUser w <> (nowBot w + 1)%Z ->
      messages (send w s).1 !! length (messages s)
      = Some (userMessage (nowUser w) (dateUser w) (input s) (attachments s))).
Proof.
  split.
  - intros i m Hi Hb. destruct (sendRefused s) eqn:Hr.
    + unfold send. by rewrite Hr.
    + apply send_others; [|done..]. rewrite sendBegin_messages.
      by apply lookup_app_l_Some.
  - intros Hr Hne. apply send_others; [| |done].
    + rewrite sendBegin_messages. rewrite lookup_app_r by lia.
      by rewrite Nat.sub_diag.
    + simpl. intros E. by apply toString_inj in E.
Qed.

Lemma send_keeps_other_messages_witness :
  messages (send (sampleOutside [u "ok"] None) (sampleState (u "hi"))).1 !! 0
  = Some (userMessage 1000 1000 (u "hi") []).
Proof.
  apply (send_keeps_other_messages (sampleOutside [u "ok"] None)
           (sampleState (u "hi"))); [reflexivity|discriminate].
Defined.

Lemma onChunk_shape b cs : forall acc,
  exists msgs, (foldl (onChunk b) acc cs).2 = setMessages (fun _ => msgs) acc.2.
Proof.
  induction cs as [|c cs IH]; intros acc.
  - exists (messages acc.2). by destruct acc as [t []].
  - cbn [foldl]. destruct (IH (onChunk b acc c)) as [msgs ->].
    by exists msgs.
Qed.

Lemma afterStream_shape w b t s :
  exists msgs busy,
    (afterStream w b t s).1
    = setIsGeneratingMedia busy (setMessages (fun _ => msgs) s).
Proof.
  unfold afterStream.
  destruct (exec imageDirective t);
    [|exists (messages s), (isGeneratingMedia s); by destruct s].
  destruct (match currentBot s with Some b0 => Bot.hasImageGen b0 | None => false end);
    [|exists (messages s), (isGeneratingMedia s); by destruct s].
  destruct (generated w); eexists _, _; reflexivity.
Qed.

Lemma send_shape w s :
  sendRefused s = false ->
  exists msgs busy,
    (send w s).1
    = MkState (id s) (bots s) msgs [] [] false busy (chatSession s)
        (selectedModel s) (showResetModal s) (isProjectPanelOpen s)
        (activePanelTab s) (manualNoteText s) (panoNotes s) (localStorage s).
Proof.
  intros Hr. unfold send. rewrite Hr.
  destruct (sendRefused_false_session s Hr) as [session Hs]. rewrite Hs.
  cbn zeta.
  destruct (onChunk_shape (toString (nowBot w + 1)) (chunks w) ([], sendBegin w s))
    as [msgs Hm].
  destruct (rejected w) as [e|]; cbn [fst snd].
  - rewrite Hm. eexists _, _. unfold sendFailed, sendBegin. cbn. rewrite <- Hs. reflexivity.
  - destruct (afterStream_shape w (toString (nowBot w + 1))
                (foldl (onChunk (toString (nowBot w + 1))) ([], sendBegin w s)
                   (chunks w)).1
                (foldl (onChunk (toString (nowBot w + 1))) ([], sendBegin w s)
                   (chunks w)).2) as (msgs' & busy & ->).
    rewrite Hm. eexists _, _. unfold sendBegin. cbn. rewrite <- Hs. reflexivity.
Qed.

Lemma trim_nil_spaces s : trim s = [] <-> forallb isSpace s = true.
Proof.
  unfold trim. split.
  - intros E. apply (f_equal (@rev N)) in E. rewrite rev_involutive in E.
    simpl in E.
    destruct (dropSpaces_split s) as (ws & Hs & Hws).
    destruct (dropSpaces_split (rev (dropSpaces s))) as (ws' & Hs' & Hws').
    rewrite E, app_nil_r in Hs'.
    rewrite Hs, forallb_app, Hws. simpl.
    apply (f_equal (@rev N)) in Hs'. rewrite rev_involutive in Hs'. rewrite Hs'.
    rewrite forallb_forall in *. intros x Hx. apply Hws'.
    by apply in_rev.
  - intros Hsp.
    assert (dropSpaces s = []) as ->; [|done].
    rewrite <- (app_nil_r s). by rewrite dropSpaces_spaces_app.
Qed.

Lemma isGeneratingMedia_onChunk b cs : forall acc,
  isGeneratingMedia (foldl (onChunk b) acc cs).2 = isGeneratingMedia acc.2.
Proof.
  intros acc. destruct (onChunk_shape b cs acc) as [msgs ->]. done.
Qed.

(** X3: the busy flag after a send that found it clear: it is left at
    [image] exactly when the stream resolved, an image was asked for, the
    bot can generate one, and the generation was rejected. *)
Theorem busy_flag_stays_when_generation_fails w s :
  sendRefused s = false ->
  isGeneratingMedia s = None ->
  isGeneratingMedia (send w s).1
  = match rejected w, exec imageDirective (assembled (chunks w)),
          currentBot s, generated w with
    | None, Some _, Some b, inl _ =>
      if Bot.hasImageGen b then Some Busy.image else None
    | _, _, _, _ => None
    end.
Proof.
  intros Hr Hb. unfold send. rewrite Hr.
  destruct (sendRefused_false_session s Hr) as [session ->]. cbn zeta.
  pose proof (isGeneratingMedia_onChunk (toString (nowBot w + 1)) (chunks w)
                ([], sendBegin w s)) as Hg.
  pose proof (onChunk_currentBot (toString (nowBot w + 1)) (chunks w)
                ([], sendBegin w s)) as Hc.
  pose proof (onChunk_fullText (toString (nowBot w + 1)) (chunks w)
                ([], sendBegin w s)) as Ht.
  set (st := foldl _ _ _) in *. cbn [fst snd app] in *.
  destruct (rejected w) as [e|]; cbn [fst snd].
  - change (isGeneratingMedia st.2 = None). rewrite Hg. exact Hb.
  - unfold afterStream. rewrite Ht, Hc.
    change (currentBot (sendBegin w s)) with (currentBot s).
    destruct (exec imageDirective (assembled (chunks w))).
    + destruct (currentBot s) as [b|].
      * destruct (Bot.hasImageGen b).
        -- destruct (generated w); reflexivity.
        -- destruct (generated w); cbn [fst];
             (change (isGeneratingMedia st.2 = None); rewrite Hg; exact Hb).
      * destruct (generated w); cbn [fst];
          (change (isGeneratingMedia st.2 = None); rewrite Hg; exact Hb).
    + change (isGeneratingMedia st.2 = None). rewrite Hg. exact Hb.
Qed.

Lemma busy_flag_stays_witness :
  isGeneratingMedia
    (send (MkOutside 1000 1000 1000 1000
             [(u "[GENERATE_IMAGE: a cat]", None)] None (inl (Throw None))
             5000 5000)
       (sampleState (u "draw"))).1
  = Some Busy.image.
Proof.
  etransitivity;
    [apply (busy_flag_stays_when_generation_fails
              (MkOutside 1000 1000 1000 1000
                 [(u "[GENERATE_IMAGE: a cat]", None)] None (inl (Throw None))
                 5000 5000)
              (sampleState (u "draw"))); reflexivity
    | reflexivity].
Defined.

(** *** The image directive in closed form *)

Lemma few_head p (k : cont) c s r : k s c = Some r -> few p s c k = Some r.
Proof. intros E. destruct s; simpl; by rewrite E. Qed.

Lemma few_first p (k : cont) c a : forall rest,
  forallb p a = true ->
  (forall i, i < length a -> k (drop i (a ++ rest)) c = None) ->
  few p (a ++ rest) c k = few p rest c k.
Proof.
  induction a as [|x a IH]; intros rest Hp Hk; [done|].
  simpl in Hp. apply andb_prop in Hp as [Hx Hp].
  change ((x :: a) ++ rest) with (x :: (a ++ rest)).
  pose proof (Hk 0 ltac:(simpl; lia)) as H0.
  change (drop 0 ((x :: a) ++ rest)) with (x :: (a ++ rest)) in H0.
  rewrite few_cons, H0, Hx.
  apply IH; [done|]. intros i Hi. apply (Hk (S i)). simpl. lia.
Qed.

Lemma few_None_ext p (k k' : cont) c :
  (forall s, k s c = None -> k' s c = None) ->
  forall s, few p s c k = None -> few p s c k' = None.
Proof.
  intros Hk. induction s as [|x s IH]; intros E.
  - simpl in *. destruct (k [] c) eqn:E1; [done|]. by rewrite (Hk _ E1).
  - rewrite few_cons in *. destruct (k (x :: s) c) eqn:E1; [done|].
    rewrite (Hk _ E1). destruct (p x); [by apply IH|done].
Qed.

Lemma no_leading_space_holds (p : jsstring) (rest : jsstring) :
  dropSpaces p = p -> dropSpaces (p ++ 93%N :: rest) = p ++ 93%N :: rest.
Proof.
  destruct p as [|x p]; [done|]. intros E. simpl in *.
  destruct (isSpace x); [|done].
  pose proof (length_dropSpaces p) as Hl. rewrite E in Hl. simpl in Hl. lia.
Qed.

Lemma matchHere_imageDirective sp prompt rest :
  forallb isSpace sp = true ->
  dropSpaces prompt = prompt ->
  93%N ∉ prompt ->
  forallb dot prompt = true ->
  matchHere imageDirective (u "[GENERATE_IMAGE:" ++ sp ++ prompt ++ 93%N :: rest)
  = Some (length (u "[GENERATE_IMAGE:" ++ sp ++ prompt ++ [93%N]),
          [(1, prompt)]).
Proof.
  intros Hsp Hhead Hno Hdot.
  unfold matchHere, imageDirective. cbn [run].
  rewrite run_lit, startsWith_app, drop_app_length.
  rewrite many_whole.
  - rewrite dropSpaces_skipWhile, dropSpaces_spaces_app by done.
    rewrite no_leading_space_holds by done.
    rewrite few_first; [|done|].
    + erewrite few_head.
      2:{ cbn beta. unfold chr. rewrite run_Class_cons.
          change (N_of_ascii "]" =? 93)%N with true. cbn iota. reflexivity. }
      rewrite !length_app. simpl. f_equal. f_equal; [lia|]. do 2 f_equal.
      replace (length prompt + S (length rest) - S (length rest))
        with (length prompt) by lia.
      apply take_app_length.
    + intros i Hi.
      destruct (drop i prompt) as [|y q] eqn:Ed.
      { apply (f_equal length) in Ed. rewrite length_drop in Ed. simpl in Ed. lia. }
      rewrite drop_app_le by lia. rewrite Ed.
      change ((y :: q) ++ 93%N :: rest) with (y :: (q ++ 93%N :: rest)).
      cbn beta. unfold chr. rewrite run_Class_cons.
      destruct (N.eqb_spec (N_of_ascii "]") y) as [<-|]; [|done].
      exfalso. apply Hno.
      rewrite <- (take_drop i prompt), Ed.
      apply elem_of_app. right. left.
  - intros x s Hx E. cbn [run] in *. unfold chr in *.
    rewrite few_cons, run_Class_cons.
    destruct (N.eqb_spec (N_of_ascii "]") x) as [<-|]; [done|].
    destruct (dot x); [|done].
    revert E. apply few_None_ext. intros s0 E0.
    destruct s0 as [|y s0]; [done|]. rewrite run_Class_cons in *.
    by destruct (N_of_ascii "]" =? y)%N.
Qed.

Lemma execFrom_skip r pre : forall pre0 s,
  (forall i, i < length pre -> matchHere r (drop i (pre ++ s)) = None) ->
  execFrom r pre0 (pre ++ s) = execFrom r (rev pre ++ pre0) s.
Proof.
  induction pre as [|x pre IH]; intros pre0 s Hk; [done|].
  pose proof (Hk 0 ltac:(simpl; lia)) as H0.
  change (drop 0 ((x :: pre) ++ s)) with (x :: (pre ++ s)) in H0.
  change ((x :: pre) ++ s) with (x :: (pre ++ s)).
  cbn [execFrom]. rewrite H0. rewrite IH.
  - simpl. by rewrite <- app_assoc.
  - intros i Hi. apply (Hk (S i)). simpl. lia.
Qed.

Lemma matchHere_imageDirective_head x s :
  x <> 91%N -> matchHere imageDirective (x :: s) = None.
Proof.
  intros Hx. unfold matchHere, imageDirective. cbn [run].
  rewrite run_lit.
  change (u "[GENERATE_IMAGE:") with (91%N :: u "GENERATE_IMAGE:").
  cbn [startsWith]. by destruct (N.eqb_spec 91 x).
Qed.

Lemma exec_imageDirective pre sp prompt rest :
  91%N ∉ pre ->
  forallb isSpace sp = true ->
  dropSpaces prompt = prompt ->
  93%N ∉ prompt ->
  forallb dot prompt = true ->
  exec imageDirective
    (pre ++ u "[GENERATE_IMAGE:" ++ sp ++ prompt ++ 93%N :: rest)
  = Some (Found pre (u "[GENERATE_IMAGE:" ++ sp ++ prompt ++ [93%N]) rest
            [(1, prompt)]).
Proof.
  intros Hpre Hsp Hhead Hno Hdot. unfold exec.
  rewrite execFrom_skip.
  - set (t := u "[GENERATE_IMAGE:" ++ sp ++ prompt ++ 93%N :: rest).
    assert (Hm := matchHere_imageDirective sp prompt rest Hsp Hhead Hno Hdot).
    fold t in Hm.
    destruct t as [|y t'] eqn:Et; [done|].
    cbn [execFrom]. rewrite Hm. rewrite app_nil_r, rev_involutive.
    f_equal. rewrite <- Et. subst t. f_equal.
    + replace (u "[GENERATE_IMAGE:" ++ sp ++ prompt ++ 93%N :: rest)
        with ((u "[GENERATE_IMAGE:" ++ sp ++ prompt ++ [93%N]) ++ rest)
        by (by rewrite <- !app_assoc).
      apply take_app_length.
    + replace (u "[GENERATE_IMAGE:" ++ sp ++ prompt ++ 93%N :: rest)
        with ((u "[GENERATE_IMAGE:" ++ sp ++ prompt ++ [93%N]) ++ rest)
        by (by rewrite <- !app_assoc).
      apply drop_app_length.
  - intros i Hi.
    destruct (drop i pre) as [|y q] eqn:Ed.
    { apply (f_equal length) in Ed. rewrite length_drop in Ed. simpl in Ed. lia. }
    rewrite drop_app_le by lia. rewrite Ed.
    apply matchHere_imageDirective_head. intros ->. apply Hpre.
    rewrite <- (take_drop i pre), Ed. apply elem_of_app. right. left.
Qed.

(** X4: a reply that asks for an image, sent to a bot that can generate one:
    when the stream resolves and the generation succeeds, the chat request
    is followed by one image request whose prompt is the text between the
    white space after ['[GENERATE_IMAGE:'] and the first [']'], the image
    message is the last of the three messages the send adds, and the busy
    flag is clear. *)
Theorem send_generates_the_image w s session b pre sp prompt rest url :
  sendRefused s = false ->
  chatSession s = Some session ->
  rejected w = None ->
  assembled (chunks w)
    = pre ++ u "[GENERATE_IMAGE:" ++ sp ++ prompt ++ u "]" ++ rest ->
  91%N ∉ pre ->
  forallb isSpace sp = true ->
  dropSpaces prompt = prompt ->
  93%N ∉ prompt ->
  forallb dot prompt = true ->
  currentBot s = Some b ->
  Bot.hasImageGen b = true ->
  generated w = inr url ->
  (send w s).2
    = [SendMessage session (buildPayload (input s) (attachments s));
       GenerateImage prompt]
  /\ last (messages (send w s).1)
     = Some (imageMessage (nowImage w) (dateImage w) url)
  /\ length (messages (send w s).1) = length (messages s) + 3
  /\ isGeneratingMedia (send w s).1 = None.
Proof.
  intros Hr Hs Hj Ht Hpre Hsp Hhead Hno Hdot Hb Hg Hu.
  unfold send. rewrite Hr, Hs. cbn zeta. rewrite Hj.
  pose proof (onChunk_currentBot (toString (nowBot w + 1)) (chunks w)
                ([], sendBegin w s)) as Hc.
  pose proof (onChunk_fullText (toString (nowBot w + 1)) (chunks w)
                ([], sendBegin w s)) as Hf.
  pose proof (onChunk_length (toString (nowBot w + 1)) (chunks w)
                ([], sendBegin w s)) as Hl.
  set (st := foldl _ _ _) in *. cbn [fst snd app] in *.
  unfold afterStream. rewrite Hf, Ht, Hc.
  change (currentBot (sendBegin w s)) with (currentBot s).
  change (u "]" ++ rest) with (93%N :: rest).
  rewrite exec_imageDirective by done.
  rewrite Hb, Hg, Hu. cbn [fst snd groups capture Nat.eqb default].
  split_and!; try reflexivity.
  - rewrite messages_setIsLoading. cbn. apply last_snoc.
  - rewrite messages_setIsLoading. cbn. rewrite length_app, Hl.
    rewrite sendBegin_messages, length_app. simpl. lia.
Qed.

Local Ltac not_in_literal :=
  let H := fresh in
  intros H; apply list_elem_of_In in H; vm_compute in H;
  intuition discriminate.

Lemma send_generates_the_image_witness :
  (send (MkOutside 1000 1000 1000 1000
           [(u "Here: [GENERATE_", None); (u "IMAGE:  a cat] done", None)]
           None (inr (u "blob:1")) 5000 5000)
     (sampleState (u "draw"))).2
  = [SendMessage sampleSession (PlainText (u "draw"));
     GenerateImage (u "a cat")].
Proof.
  apply (send_generates_the_image
           (MkOutside 1000 1000 1000 1000
              [(u "Here: [GENERATE_", None); (u "IMAGE:  a cat] done", None)]
              None (inr (u "blob:1")) 5000 5000)
           (sampleState (u "draw")) sampleSession sampleBot
           (u "Here: ") (u "  ") (u "a cat") (u " done") (u "blob:1"));
    try reflexivity; not_in_literal.
Defined.

(** *** What asks for an image is a generation directive *)

Lemma few_fst_ext p (k k' : cont) c c' :
  (forall s, fst <$> k s c = fst <$> k' s c') ->
  forall s, fst <$> few p s c k = fst <$> few p s c' k'.
Proof.
  intros Hk. induction s as [|x s IH].
  - simpl. specialize (Hk []).
    destruct (k [] c), (k' [] c'); simpl in *; congruence.
  - rewrite !few_cons. specialize (Hk (x :: s)).
    destruct (k (x :: s) c), (k' (x :: s) c'); simpl in *; try congruence.
    destruct (p x); [done|done].
Qed.

Lemma many_fst_ext p (k k' : cont) c c' :
  (forall s, fst <$> k s c = fst <$> k' s c') ->
  forall s, fst <$> many p s c k = fst <$> many p s c' k'.
Proof.
  intros Hk. induction s as [|x s IH]; [apply Hk|].
  cbn [many]. destruct (p x); [|apply Hk].
  specialize (Hk (x :: s)).
  destruct (many p s c k), (many p s c' k'); simpl in *; congruence.
Qed.

Lemma matchHere_imageDirective_length s :
  fst <$> matchHere imageDirective s
  = if startsWith (u "[GENERATE_IMAGE:") s then directiveLength s else None.
Proof.
  unfold matchHere, imageDirective, directiveLength. cbn [run].
  rewrite run_lit. destruct (startsWith (u "[GENERATE_IMAGE:") s) eqn:Hs; [|done].
  cbn [orb]. change (length (u "[GENERATE_IMAGE:")) with 16.
  apply startsWith_true in Hs as [v ->].
  change (drop 16 (u "[GENERATE_IMAGE:" ++ v)) with v.
  pose proof (many_fst_ext isSpace
    (fun s1 c1 => run (Group 1 (Few dot)) s1 c1
                    (fun s2 c2 => run (chr "]") s2 c2 (fun s3 c3 => Some (s3, c3))))
    (fun s1 c1 => few dot s1 c1
       (fun s2 c2 => run (chr "]") s2 c2 (fun s3 c3 => Some (s3, c3))))
    [] []) as Hext.
  lazymatch type of Hext with
  | ?A -> _ => assert A as HA; [|specialize (Hext HA v)]
  end.
  2: rewrite directive_tail in Hext.
  { intros s1. cbn [run]. apply few_fst_ext. intros s2.
    destruct s2 as [|y s2]; [done|]. unfold chr. rewrite !run_Class_cons.
    by destruct (N_of_ascii "]" =? y)%N. }
  cbn beta in Hext.
  destruct (many isSpace v [] _) as [[s1 c1]|];
    destruct (closingBracket (dropSpaces v)) as [j|] eqn:Hj;
    simpl in Hext; try done.
  injection Hext as ->. simpl. f_equal.
  pose proof (closingBracket_lt _ _ Hj). pose proof (length_dropSpaces v).
  rewrite length_drop. lia.
Qed.

Lemma Directive_body d :
  Directive d ->
  exists x body, d = x :: body ++ [93%N] /\ x <> 93%N /\ (93%N ∉ x :: body).
Proof.
  intros (o & inner & -> & Ho & Hin & _).
  destruct Ho as [-> | ->].
  - exists 91%N, (u "GENERATE_IMAGE:" ++ inner).
    split_and!; [by rewrite <- app_assoc|done|].
    change (91%N :: u "GENERATE_IMAGE:" ++ inner)
      with (u "[GENERATE_IMAGE:" ++ inner).
    intros [H|H]%elem_of_app; [|done]. revert H. not_in_literal.
  - exists 91%N, (u "GENERATE_VIDEO:" ++ inner).
    split_and!; [by rewrite <- app_assoc|done|].
    change (91%N :: u "GENERATE_VIDEO:" ++ inner)
      with (u "[GENERATE_VIDEO:" ++ inner).
    intros [H|H]%elem_of_app; [|done]. revert H. not_in_literal.
Qed.

Lemma first_unit_unique (c : N) (a : jsstring) : forall b x y,
  a ++ c :: x = b ++ c :: y -> c ∉ a -> c ∉ b -> a = b /\ x = y.
Proof.
  induction a as [|h a IH]; intros [|h' b] x y E Ha Hb; simpl in E.
  - by injection E as ->.
  - injection E as <- _. exfalso. apply Hb. left.
  - injection E as -> _. exfalso. apply Ha. left.
  - injection E as -> E.
    apply not_elem_of_cons in Ha as [_ Ha]. apply not_elem_of_cons in Hb as [_ Hb].
    by destruct (IH _ _ _ E Ha Hb) as [-> ->].
Qed.

Lemma removeAll_directive d rest :
  Directive d ->
  removeAll generationDirective (d ++ rest)
  = removeAll generationDirective rest.
Proof.
  intros Hd.
  assert (directiveLength (d ++ rest) = Some (length d)) as Hl
    by (apply directiveLength_Some; eauto).
  rewrite <- matchHere_generationDirective in Hl.
  destruct (Directive_body d Hd) as (x & body & -> & _ & _).
  change ((x :: body ++ [93%N]) ++ rest) with (x :: (body ++ [93%N]) ++ rest) in *.
  rewrite removeAll_cons.
  destruct (matchHere generationDirective (x :: (body ++ [93%N]) ++ rest))
    as [[n c]|]; [|done].
  simpl in Hl. injection Hl as ->.
  change (x :: (body ++ [93%N]) ++ rest) with ((x :: body ++ [93%N]) ++ rest).
  cbn [length]. change (S (length (body ++ [93%N])))
    with (length (x :: body ++ [93%N])).
  by rewrite drop_app_length.
Qed.

Lemma removeAll_covers pre : forall d rest,
  Directive d ->
  exists kept,
    sublist kept pre
    /\ removeAll generationDirective (pre ++ d ++ rest)
       = kept ++ removeAll generationDirective rest.
Proof.
  induction pre as [pre IH] using (induction_ltof1 _ (@length N)).
  unfold ltof in IH. intros d rest Hd.
  destruct pre as [|x pre].
  { exists []. split; [done|]. simpl. by apply removeAll_directive. }
  change ((x :: pre) ++ d ++ rest) with (x :: (pre ++ d ++ rest)).
  rewrite removeAll_cons.
  pose proof (matchHere_generationDirective (x :: pre ++ d ++ rest)) as Hm.
  assert (Hkeep : exists kept, sublist kept (x :: pre)
            /\ x :: removeAll generationDirective (pre ++ d ++ rest)
               = kept ++ removeAll generationDirective rest).
  { destruct (IH pre ltac:(simpl; lia) d rest Hd) as (kept & Hsub & ->).
    exists (x :: kept). split; [by constructor|done]. }
  destruct (matchHere generationDirective (x :: pre ++ d ++ rest))
    as [[[|n] c]|]; [done| |done].
  symmetry in Hm. apply directiveLength_Some in Hm as (D & rest0 & Ht & HD & Hn).
  simpl in Hn. rewrite Hn, Ht, drop_app_length.
  destruct (Directive_body D HD) as (y & B & -> & Hy & HB).
  destruct (Directive_body d Hd) as (z & b & -> & Hz & Hb).
  simpl in Ht. rewrite <- !app_assoc in Ht. simpl in Ht.
  change ((x :: pre) ++ (z :: b) ++ 93%N :: rest = (y :: B) ++ 93%N :: rest0)
    in Ht.
  apply app_eq_inv in Ht as [(k & Hp & Hk)|(k & Hp & Hk)].
  - (* the region ends inside [pre] *)
    destruct k as [|h k].
    { simpl in Hk. injection Hk as Hz' _. by symmetry in Hz'. }
    simpl in Hk. injection Hk as <- ->.
    destruct (IH k) with (d := z :: b ++ [93%N]) (rest := rest)
      as (kept & Hsub & Hr); [|done|].
    { rewrite Hp, length_app. simpl. lia. }
    exists kept. split.
    + rewrite Hp. apply sublist_inserts_l. by apply sublist_cons.
    + rewrite <- Hr. simpl. by rewrite <- app_assoc.
  - (* the region runs into the directive *)
    assert (93%N ∉ k) as Hk93.
    { intros H. apply HB. rewrite Hp. apply elem_of_app. by right. }
    destruct (first_unit_unique _ _ _ _ _ Hk Hb Hk93) as [_ ->].
    exists []. split; [apply sublist_nil_l|done].
Qed.

(** X5: what asks for an image is never shown: the text that
    [imageDirective] finds in a reply is a generation directive, and the
    global replacement leaves it out, keeping of the text before it only
    units of that text, and going on with the text after it. *)
Theorem image_directive_is_stripped t f :
  exec imageDirective t = Some f ->
  Directive (matched f)
  /\ exists kept,
       sublist kept (before f)
       /\ removeAll generationDirective t
          = kept ++ removeAll generationDirective (after f).
Proof.
  intros He. apply execFrom_Some in He as (skipped & Hb & Ht & Hm & _).
  simpl in Hb. subst skipped.
  assert (Directive (matched f)) as Hd.
  { apply (f_equal (fmap fst)) in Hm. rewrite matchHere_imageDirective_length in Hm.
    destruct (startsWith _ _); [|done]. simpl in Hm.
    apply directiveLength_Some in Hm as (d & rest & Hs & Hd & Hn).
    apply app_inj_1 in Hs as [-> _]; done. }
  split; [done|]. rewrite Ht. by apply removeAll_covers.
Qed.

Lemma image_directive_is_stripped_witness :
  Directive (u "[GENERATE_IMAGE: a cat]").
Proof.
  apply (image_directive_is_stripped (u "Look: [GENERATE_IMAGE: a cat] there")
           (Found (u "Look: ") (u "[GENERATE_IMAGE: a cat]") (u " there")
              [(1, u "a cat")])).
  reflexivity.
Defined.

(** ** The history given to the chat backend *)

Lemma list_two_more {A} (l prior : list A) (a : A) :
  length l = length prior + 2 ->
  (forall i x, prior !! i = Some x -> l !! i = Some x) ->
  l !! length prior = Some a ->
  exists p, l = prior ++ [a; p] /\ l !! (length prior + 1) = Some p.
Proof.
  intros Hlen Hprior Ha.
  destruct (lookup_lt_is_Some_2 l (length prior + 1)) as [p Hp]; [lia|].
  exists p. split; [|done].
  apply list_eq. intros i.
  destruct (decide (i < length prior)) as [Hi|Hi].
  - rewrite lookup_app_l by done.
    destruct (lookup_lt_is_Some_2 prior i Hi) as [x Hx].
    by rewrite Hx, (Hprior _ _ Hx).
  - rewrite lookup_app_r by lia.
    destruct (decide (i = length prior)) as [->|Hi'].
    { by rewrite Nat.sub_diag. }
    destruct (decide (i = length prior + 1)) as [->|Hi''].
    { replace (length prior + 1 - length prior) with 1 by lia. done. }
    rewrite lookup_ge_None_2 by lia.
    replace (i - length prior) with (S (S (i - length prior - 2))) by lia.
    done.
Qed.

Lemma currentBot_send w s : currentBot (send w s).1 = currentBot s.
Proof.
  destruct (sendRefused s) eqn:Hr.
  - unfold send. by rewrite Hr.
  - by destruct (send_shape w s Hr) as (msgs & busy & ->).
Qed.

(** X6: a send whose stream is rejected, and the history that a new chat
    session is given afterwards: the text the user sent is a turn of it,
    unless it is empty or holds the quota mark; the quota message that
    took the place of the reply is left out, and the connection message
    is a turn of the model. *)
Theorem failed_reply_in_history w s b e :
  sendRefused s = false ->
  rejected w = Some e ->
  currentBot s = Some b ->
  nowUser w <> (nowBot w + 1)%Z ->
  Forall (fun m => Message.id m <> toString (nowBot w + 1)) (messages s) ->
  chatHistory <$> chatSession (openChatSession (send w s).1)
  = (fun before =>
       before
       ++ (if bool_decide (input s = []) || includes quotaMark (input s)
           then [] else [(Role.user, input s)])
       ++ (if bool_decide (message e = Some (u "SYSTEM_BUSY"))
           then [] else [(Role.model, connectionError)]))
    <$> (chatHistory <$> chatSession (openChatSession s)).
Proof.
  intros Hr Hj Hb Hne Hids.
  unfold openChatSession. rewrite currentBot_send, Hb. cbn.
  do 2 f_equal.
  assert (exists p,
            messages (send w s).1
            = messages s
              ++ [userMessage (nowUser w) (dateUser w) (input s) (attachments s); p]
            /\ Message.id p = toString (nowBot w + 1)
            /\ Message.role p = Role.model
            /\ Message.text p
               = if bool_decide (message e = Some (u "SYSTEM_BUSY"))
                 then quotaExceeded else connectionError)
    as (p & -> & Hid & Hrole & Htext).
  { assert (Hlen : length (messages (send w s).1) = length (messages s) + 2).
    { unfold send. rewrite Hr.
      destruct (sendRefused_false_session s Hr) as [session ->].
      cbn zeta. rewrite Hj. cbn [fst snd].
      rewrite messages_setIsLoading, sendFailed_length, onChunk_length.
      cbn [snd]. rewrite sendBegin_messages, length_app. simpl. lia. }
    destruct (list_two_more (messages (send w s).1) (messages s)
                (userMessage (nowUser w) (dateUser w) (input s) (attachments s))
                Hlen) as (p & Hl & Hp).
    - intros i x Hx. apply send_others; [| |done].
      + rewrite sendBegin_messages. by apply lookup_app_l_Some.
      + rewrite Forall_forall in Hids. apply Hids.
        by eapply list_elem_of_lookup_2.
    - apply send_others; [| |done].
      + rewrite sendBegin_messages, lookup_app_r by lia.
        by rewrite Nat.sub_diag.
      + simpl. intros E. by apply toString_inj in E.
    - exists p. split; [done|].
      revert Hp. unfold send. rewrite Hr.
      destruct (sendRefused_false_session s Hr) as [session ->].
      cbn zeta. rewrite Hj. cbn [fst snd]. rewrite messages_setIsLoading.
      intros Hp.
      destruct (onChunk_placeholder (toString (nowBot w + 1)) (chunks w)
                  ([], sendBegin w s) (length (messages s) + 1)
                  (placeholder (toString (nowBot w + 1)) (dateBot w)))
        as (m' & Hm' & Hid' & Hrole' & _ & _); [|done|done|].
      { cbn [snd]. rewrite sendBegin_messages, lookup_app_r by lia.
        by replace (length (messages s) + 1 - length (messages s)) with 1 by lia. }
      destruct (sendFailed_placeholder (toString (nowBot w + 1)) e _ _ _ Hm' Hid')
        as (m'' & Hm'' & Hid'' & Hrole'' & Htext'').
      rewrite Hp in Hm''. injection Hm'' as <-.
      split_and!; [done| |done]. by rewrite Hrole'', Hrole'. }
  rewrite List.filter_app, List.map_app. f_equal.
  cbn [filter List.filter map List.map userMessage Message.id Message.text
       Message.role].
  rewrite Hid, Htext.
  rewrite !(bool_decide_eq_false_2 (toString _ = u "init"))
    by apply toString_not_init.
  cbn [negb andb].
  assert (includes quotaMark quotaExceeded = true) as Hq by reflexivity.
  assert (includes quotaMark connectionError = false) as Hc by reflexivity.
  assert (bool_decide (quotaExceeded = []) = false) as Hq' by reflexivity.
  assert (bool_decide (connectionError = []) = false) as Hc' by reflexivity.
  destruct (bool_decide (input s = [])), (includes quotaMark (input s)),
    (bool_decide (message e = Some (u "SYSTEM_BUSY")));
    rewrite ?Hq, ?Hc, ?Hq', ?Hc'; cbn [negb andb orb app List.map];
    rewrite ?Hrole, ?Htext; reflexivity.
Qed.

Lemma failed_reply_in_history_witness :
  chatHistory
  <$> chatSession
        (openChatSession
           (send (sampleOutside [u "par"] (Some (Throw None)))
              (sampleState (u "hi"))).1)
  = Some [(Role.user, u "hi"); (Role.model, connectionError)].
Proof.
  etransitivity;
    [apply (failed_reply_in_history
              (sampleOutside [u "par"] (Some (Throw None)))
              (sampleState (u "hi")) sampleBot (Throw None));
       [reflexivity|reflexivity|reflexivity|discriminate|constructor]
    | reflexivity].
Defined.

(** ** The stored model and notes *)

Lemma model_key_not_pano_key i j : MODEL_STORAGE_KEY i <> PANO_STORAGE_KEY j.
Proof.
  unfold MODEL_STORAGE_KEY, PANO_STORAGE_KEY. intros E.
  apply (f_equal (take 11)) in E. vm_compute in E. discriminate E.
Qed.

Lemma MODEL_STORAGE_KEY_inj i j :
  MODEL_STORAGE_KEY i = MODEL_STORAGE_KEY j -> interpolate i = interpolate j.
Proof. unfold MODEL_STORAGE_KEY. apply app_inv_head. Qed.

Lemma PANO_STORAGE_KEY_inj i j :
  PANO_STORAGE_KEY i = PANO_STORAGE_KEY j -> interpolate i = interpolate j.
Proof. unfold PANO_STORAGE_KEY. apply app_inv_head. Qed.

Local Ltac keys_differ :=
  let E := fresh in
  intros E;
  first [ by apply model_key_not_pano_key in E
        | by apply chat_key_not_model_key in E
        | by apply chat_key_not_pano_key in E
        | symmetry in E;
          first [ by apply model_key_not_pano_key in E
                | by apply chat_key_not_model_key in E
                | by apply chat_key_not_pano_key in E ] ].

Section Settings.

Context `{Codec}.

Lemma rehydrate_settings date s b :
  currentBot s = Some b ->
  id (rehydrate date s) = id s
  /\ localStorage (rehydrate date s) = localStorage s
  /\ selectedModel (rehydrate date s)
     = default (selectedModel s)
         (getSaved (localStorage s) (MODEL_STORAGE_KEY (id s)))
  /\ panoNotes (rehydrate date s)
     = match getSaved (localStorage s) (PANO_STORAGE_KEY (id s)) with
       | Some saved => default (panoNotes s) (parseNotes saved)
       | None => panoNotes s
       end.
Proof.
  intros Hb. unfold rehydrate. rewrite Hb. cbn zeta.
  set (s1 := match getSaved _ (CHAT_STORAGE_KEY _) with
             | Some savedChat => _ | None => _ end).
  assert (H1 : id s1 = id s /\ localStorage s1 = localStorage s
               /\ selectedModel s1 = selectedModel s
               /\ panoNotes s1 = panoNotes s).
  { unfold s1. destruct (getSaved _ _); [destruct (parseMessages _)|]; done. }
  destruct H1 as (Hi1 & Hl1 & Hm1 & Hn1).
  rewrite Hl1, Hi1.
  destruct (getSaved (localStorage s) (PANO_STORAGE_KEY (id s))) as [saved|];
    [destruct (parseNotes saved)|];
    cbn [localStorage setPanoNotes id]; rewrite ?Hl1, ?Hi1;
    destruct (getSaved (localStorage s) (MODEL_STORAGE_KEY (id s)));
    by rewrite <- ?Hm1, <- ?Hn1.
Qed.

Lemma persistSettings_shape s x i :
  id s = Some (x :: i) ->
  persistSettings s
  = withStorage
      (fun storage =>
         <[PANO_STORAGE_KEY (id s) := stringifyNotes (panoNotes s)]>
           (<[MODEL_STORAGE_KEY (id s) := selectedModel s]> storage))
      s.
Proof.
  intros Hid. unfold persistSettings. destruct s. simpl in Hid |- *.
  by rewrite Hid.
Qed.

(** X7: the model and the notes that [persistSettings] stores for a bot are
    what a reload finds: the initializer of the model gives the selected
    model back, or its default when the selection is the empty string,
    and the effect that reloads leaves the selection as it is; the entry
    of the notes holds the notes; no chat history changes, and neither
    does the model or the notes entry of a bot with another identifier. *)
Theorem settings_survive_reload s x i date :
  id s = Some (x :: i) ->
  let storage := localStorage (persistSettings s) in
  initialModel storage (id s)
    = match selectedModel s with
      | [] => u "gemini-3-pro-preview"
      | _ :: _ => selectedModel s
      end
  /\ selectedModel (rehydrate date (persistSettings s)) = selectedModel s
  /\ storage !! PANO_STORAGE_KEY (id s) = Some (stringifyNotes (panoNotes s))
  /\ (forall j, initialMessages storage j = initialMessages (localStorage s) j)
  /\ (forall j, interpolate j <> x :: i ->
        initialModel storage j = initialModel (localStorage s) j
        /\ storage !! PANO_STORAGE_KEY j
           = localStorage s !! PANO_STORAGE_KEY j).
Proof.
  intros Hid storage.
  assert (Hst : storage
                = <[PANO_STORAGE_KEY (id s) := stringifyNotes (panoNotes s)]>
                    (<[MODEL_STORAGE_KEY (id s) := selectedModel s]>
                       (localStorage s))).
  { unfold storage. by rewrite (persistSettings_shape s x i Hid). }
  assert (Hmodel : storage !! MODEL_STORAGE_KEY (id s) = Some (selectedModel s)).
  { rewrite Hst, lookup_insert_ne by keys_differ. apply lookup_insert_eq. }
  split_and!.
  - unfold initialModel, getSaved. rewrite Hmodel. by destruct (selectedModel s).
  - destruct (currentBot (persistSettings s)) as [b|] eqn:Hb.
    + destruct (rehydrate_settings date _ b Hb) as (_ & _ & -> & _).
      fold storage.
      replace (id (persistSettings s)) with (id s)
        by (by rewrite (persistSettings_shape s x i Hid)).
      replace (selectedModel (persistSettings s)) with (selectedModel s)
        by (by rewrite (persistSettings_shape s x i Hid)).
      unfold getSaved. rewrite Hmodel. by destruct (selectedModel s).
    + unfold rehydrate. rewrite Hb.
      by rewrite (persistSettings_shape s x i Hid).
  - rewrite Hst. apply lookup_insert_eq.
  - intros j. unfold initialMessages, getSaved.
    rewrite Hst, !lookup_insert_ne; [done| |].
    + keys_differ.
    + keys_differ.
  - intros j Hj. rewrite Hid in Hst. split.
    + unfold initialModel, getSaved. rewrite Hst, !lookup_insert_ne; [done| |].
      * intros E. apply MODEL_STORAGE_KEY_inj in E. by symmetry in E.
      * keys_differ.
    + rewrite Hst, lookup_insert_ne, lookup_insert_ne; [done| |].
      * keys_differ.
      * intros E. apply PANO_STORAGE_KEY_inj in E. by symmetry in E.
Qed.

(** X8: moving on to a bot for which no notes and no model are stored: the
    effect that reloads leaves the notes and the model of the bot that
    was shown before, and the next run of [persistSettings] stores them as
    those of the new bot. *)
Theorem notes_follow_to_the_next_bot s x j b date :
  currentBot (navigate (Some (x :: j)) s) = Some b ->
  getSaved (localStorage s) (PANO_STORAGE_KEY (Some (x :: j))) = None ->
  getSaved (localStorage s) (MODEL_STORAGE_KEY (Some (x :: j))) = None ->
  let s' := steps s [Navigate (Some (x :: j)); Rehydrate date; PersistSettings] in
  panoNotes s' = panoNotes s
  /\ selectedModel s' = selectedModel s
  /\ localStorage s' !! PANO_STORAGE_KEY (Some (x :: j))
     = Some (stringifyNotes (panoNotes s))
  /\ localStorage s' !! MODEL_STORAGE_KEY (Some (x :: j))
     = Some (selectedModel s).
Proof.
  intros Hb Hp Hm. unfold steps. cbn [foldl step].
  set (s0 := navigate (Some (x :: j)) s) in *.
  assert (Hr : id (rehydrate date s0) = Some (x :: j)
               /\ panoNotes (rehydrate date s0) = panoNotes s
               /\ selectedModel (rehydrate date s0) = selectedModel s
               /\ localStorage (rehydrate date s0) = localStorage s).
  { destruct (rehydrate_settings date s0 b Hb) as (Hi & Hl & Hmo & Hn).
    change (id s0) with (Some (x :: j)) in *.
    change (localStorage s0) with (localStorage s) in *.
    rewrite Hm in Hmo. rewrite Hp in Hn. done. }
  destruct Hr as (Hi & Hn & Hmo & Hl).
  unfold persistSettings. rewrite Hi. cbn. rewrite Hi, Hn, Hmo, Hl.
  split_and!; [done|done|apply lookup_insert_eq|].
  rewrite lookup_insert_ne by keys_differ.
  apply lookup_insert_eq.
Qed.

End Settings.

Lemma settings_survive_reload_witness :
  @initialModel
    (localStorage
       (@persistSettings opaqueCodec (setSelectedModel (u "m1") (sampleState []))))
    (Some (u "b1"))
  = u "m1".
Proof.
  apply (@settings_survive_reload opaqueCodec
           (setSelectedModel (u "m1") (sampleState [])) 98%N (u "1") 0%Z).
  reflexivity.
Defined.

Lemma notes_follow_witness :
  localStorage
    (@steps opaqueCodec
       (setPanoNotes
          (fun _ => [PanoNote.Make (u "1") (u "mine") 0 (Some Source.user)])
          (MkState (Some (u "b1"))
             [sampleBot; Bot.Make (u "b2") (u "Other") false] [] [] [] false
             None None (u "m1") false false files [] [] ∅))
       [Navigate (Some (u "b2")); Rehydrate 0; PersistSettings])
    !! PANO_STORAGE_KEY (Some (u "b2"))
  = Some (u "[...]").
Proof.
  apply (@notes_follow_to_the_next_bot opaqueCodec
           (setPanoNotes
              (fun _ => [PanoNote.Make (u "1") (u "mine") 0 (Some Source.user)])
              (MkState (Some (u "b1"))
                 [sampleBot; Bot.Make (u "b2") (u "Other") false] [] [] [] false
                 None None (u "m1") false false files [] [] ∅))
           98%N (u "2") (Bot.Make (u "b2") (u "Other") false) 0%Z);
    reflexivity.
Defined.

(** ** Inline markup *)

Lemma skipWhile_app_stop (p : N -> bool) a x rest :
  forallb p a = true -> p x = false ->
  skipWhile p (a ++ x :: rest) = x :: rest.
Proof.
  intros Ha Hx. induction a as [|y a IH]; simpl in *.
  - by rewrite Hx.
  - apply andb_prop in Ha as [-> Ha]. by apply IH.
Qed.

Lemma not_elem_forallb (c : N) (a : jsstring) :
  c ∉ a -> forallb (fun y => negb (y =? c)%N) a = true.
Proof.
  induction a as [|y a IH]; [done|]. intros [Hy Ha]%not_elem_of_cons. simpl.
  rewrite IH by done. by destruct (N.eqb_spec y c).
Qed.

Lemma includes_app p pre rest : includes p (pre ++ p ++ rest) = true.
Proof.
  induction pre as [|x pre IH]; simpl.
  - destruct (p ++ rest) eqn:E; simpl;
      rewrite <- ?E, startsWith_app; done.
  - rewrite IH. apply orb_true_r.
Qed.

Lemma exec_at_head r s n c :
  matchHere r s = Some (n, c) ->
  exec r s = Some (Found [] (take n s) (drop n s) c).
Proof. intros E. unfold exec. destruct s; cbn [execFrom]; by rewrite E. Qed.

Lemma matchHere_markdownLink label url rest :
  label <> [] -> 93%N ∉ label -> url <> [] -> 41%N ∉ url ->
  matchHere markdownLink (u "[" ++ label ++ u "](" ++ url ++ u ")" ++ rest)
  = Some (length (u "[" ++ label ++ u "](" ++ url ++ u ")"),
          [(2, url); (1, label)]).
Proof.
  intros Hl Hl93 Hu Hu41.
  destruct label as [|l0 label]; [done|]. destruct url as [|u0 url]; [done|].
  apply not_elem_of_cons in Hl93 as [Hl0 Hl93].
  apply not_elem_of_cons in Hu41 as [Hu0 Hu41].
  unfold matchHere, markdownLink, Some1, chr.
  change (u "[" ++ (l0 :: label) ++ u "](" ++ (u0 :: url) ++ u ")" ++ rest)
    with (91%N :: l0 :: label ++ 93%N :: 40%N :: u0 :: url ++ 41%N :: rest).
  cbn [run]. change (N_of_ascii "[" =? 91)%N with true. cbn iota.
  destruct (N.eqb_spec l0 93) as [|_]; [done|]. cbn [negb].
  rewrite many_whole.
  2:{ intros x s Hx _. rewrite run_lit.
      change (u "](") with [93%N; 40%N]. cbn [startsWith].
      destruct (N.eqb_spec 93 x) as [<-|]; [done|done]. }
  rewrite (skipWhile_app_stop _ label 93 _) by (by apply not_elem_forallb || done).
  rewrite run_lit. change (u "](") with [93%N; 40%N].
  cbn [startsWith N.eqb Pos.eqb andb length drop].
  destruct (N.eqb_spec u0 41) as [|_]; [done|]. cbn [negb].
  rewrite many_whole.
  2:{ intros x s Hx E. destruct (N.eqb_spec (N_of_ascii ")") x) as [<-|]; done. }
  rewrite (skipWhile_app_stop _ url 41 _) by (by apply not_elem_forallb || done).
  change (N_of_ascii ")" =? 41)%N with true. cbn iota.
  f_equal. f_equal.
  - cbn [length]. rewrite !length_app. cbn [length]. rewrite !length_app.
    cbn [length]. change (length (u "[")) with 1.
    change (length (u "](")) with 2. change (length (u ")")) with 1. lia.
  - f_equal; [f_equal|do 2 f_equal].
    + change (u0 :: url ++ 41%N :: rest) with ((u0 :: url) ++ 41%N :: rest).
      apply take_app_length'. simpl. rewrite !length_app. simpl. lia.
    + change (l0 :: label ++ 93%N :: 40%N :: u0 :: url ++ 41%N :: rest)
        with ((l0 :: label) ++ 93%N :: 40%N :: u0 :: url ++ 41%N :: rest).
      apply take_app_length'. simpl. rewrite !length_app. simpl.
      rewrite !length_app. simpl. lia.
Qed.

(** X9: a part that opens with a markdown link is shown as that link: the
    label is the text between the brackets and the target the text
    between the parentheses, whatever follows. *)
Theorem markdown_link_is_rendered label url rest :
  label <> [] -> 93%N ∉ label -> url <> [] -> 41%N ∉ url ->
  renderSpan (u "[" ++ label ++ u "](" ++ url ++ u ")" ++ rest)
  = Some (Link url label).
Proof.
  intros Hl Hl93 Hu Hu41.
  pose proof (matchHere_markdownLink label url rest Hl Hl93 Hu Hu41) as Hm.
  set (part := u "[" ++ label ++ u "](" ++ url ++ u ")" ++ rest) in *.
  assert (Hi : includes (u "](") part = true).
  { unfold part. rewrite (app_assoc (u "[") label). apply includes_app. }
  unfold renderSpan.
  change part with (91%N :: label ++ u "](" ++ url ++ u ")" ++ rest) at 1 2 3 4.
  change (startsWith (u "**") (91%N :: label ++ u "](" ++ url ++ u ")" ++ rest))
    with false.
  change (startsWith (u "*") (91%N :: label ++ u "](" ++ url ++ u ")" ++ rest))
    with false.
  change (startsWith (u "[") (91%N :: label ++ u "](" ++ url ++ u ")" ++ rest))
    with true.
  cbn [andb]. fold part. rewrite Hi.
  by rewrite (exec_at_head _ _ _ _ Hm).
Qed.

Lemma markdown_link_is_rendered_witness :
  renderSpan (u "[docs](www.example.com) and more")
  = Some (Link (u "www.example.com") (u "docs")).
Proof.
  apply (markdown_link_is_rendered (u "docs") (u "www.example.com")
           (u " and more")); [discriminate|not_in_literal|discriminate|
                              not_in_literal].
Defined.

Lemma Matches_Cat_inv r1 r2 a rest :
  Matches (Cat r1 r2) a rest ->
  exists a1 a2, a = a1 ++ a2 /\ Matches r1 a1 (a2 ++ rest) /\ Matches r2 a2 rest.
Proof. inversion 1; subst; eauto. Qed.

Lemma Matches_Or_inv r1 r2 a rest :
  Matches (Or r1 r2) a rest -> Matches r1 a rest \/ Matches r2 a rest.
Proof. inversion 1; subst; eauto. Qed.

Lemma Matches_Group_inv i r a rest : Matches (Group i r) a rest -> Matches r a rest.
Proof. by inversion 1; subst. Qed.

Lemma Matches_chr c a rest : Matches (chr c) a rest -> a = [N_of_ascii c].
Proof.
  unfold chr. inversion 1 as [|p x rest' Hx| | | | | | | | | |]; subst.
  by apply N.eqb_eq in Hx as <-.
Qed.

(** What [combinedRegex] matches opens with an asterisk, with a bracket,
    with [http] or with [www.]. *)
Lemma combinedRegex_opening a rest :
  Matches combinedRegex a rest ->
  exists t, a = 42%N :: t \/ a = 91%N :: t \/ a = u "http" ++ t
            \/ a = u "www." ++ t.
Proof.
  unfold combinedRegex. intros H%Matches_Group_inv.
  apply Matches_Or_inv in H as [H|H].
  { apply Matches_Cat_inv in H as (a1 & a2 & -> & H1 & _).
    apply (Matches_lit "**") in H1 as ->. exists (42%N :: a2). by left. }
  apply Matches_Or_inv in H as [H|H].
  { apply Matches_Cat_inv in H as (a1 & a2 & -> & H1 & _).
    apply Matches_chr in H1 as ->. exists a2. by left. }
  apply Matches_Or_inv in H as [H|H].
  { apply Matches_Cat_inv in H as (a1 & a2 & -> & H1 & _).
    apply Matches_chr in H1 as ->. exists a2. right. by left. }
  apply Matches_Cat_inv in H as (a1 & a2 & -> & H1 & _).
  apply Matches_Or_inv in H1 as [H1|H1].
  - apply Matches_Cat_inv in H1 as (b1 & b2 & -> & H1 & _).
    apply (Matches_lit "http") in H1 as ->. exists (b2 ++ a2).
    right. right. left. by rewrite <- app_assoc.
  - apply (Matches_lit "www.") in H1 as ->. exists a2. by do 3 right.
Qed.

Lemma combinedRegex_not_empty s c : matchHere combinedRegex s <> Some (0, c).
Proof.
  intros E. apply matchHere_Some in E as (a & rest & -> & Hm & Hn).
  destruct a; [|done].
  apply combinedRegex_opening in Hm as [t [H|[H|[H|H]]]]; discriminate H.
Qed.

Lemma includes_false_startsWith p s :
  includes p s = false -> startsWith p s = false.
Proof. destruct s; simpl; by intros [-> _]%orb_false_elim. Qed.

Lemma exec_combinedRegex_plain s :
  42%N ∉ s -> 91%N ∉ s ->
  includes (u "http") s = false -> includes (u "www.") s = false ->
  exec combinedRegex s = None.
Proof.
  intros H42 H91 Hh Hw.
  destruct (exec combinedRegex s) as [f|] eqn:E; [|done]. exfalso.
  assert (is_Some (exec combinedRegex s)) as Hs by (by rewrite E).
  apply exec_is_Some in Hs as (pre & a & rest & -> & Hm).
  apply combinedRegex_opening in Hm as [t [-> | [-> | [-> | ->]]]].
  - apply H42. apply elem_of_app. right. left.
  - apply H91. apply elem_of_app. right. left.
  - rewrite <- app_assoc, includes_app in Hh. done.
  - rewrite <- app_assoc, includes_app in Hw. done.
Qed.

(** X10: a line without markup is shown as it is: a line that holds no
    asterisk, no opening bracket, and neither [http] nor [www.], and that
    does not open with the mark of a heading, gives one span of plain
    text that is the line. *)
Theorem plain_line_is_verbatim line :
  line <> [] ->
  startsWith (u "#") line = false ->
  42%N ∉ line -> 91%N ∉ line ->
  includes (u "http") line = false -> includes (u "www.") line = false ->
  renderLine line = MkLine (u "mb-1.5 block") [Plain line].
Proof.
  intros Hne Hhead H42 H91 Hh Hw.
  destruct line as [|x line]; [done|].
  unfold renderLine.
  assert (startsWith (u "### ") (x :: line) = false
          /\ startsWith (u "## ") (x :: line) = false
          /\ startsWith (u "# ") (x :: line) = false) as (-> & -> & ->).
  { change (u "#") with [35%N] in Hhead. change (u "### ") with (35%N :: u "## ").
    change (u "## ") with (35%N :: u "# ").
    change (u "# ") with (35%N :: u " ").
    cbn [startsWith] in *. apply andb_false_iff in Hhead as [->|Hhead]; done. }
  cbn [fst snd]. f_equal.
  unfold split. rewrite splitFrom_exec by apply combinedRegex_not_empty.
  rewrite exec_combinedRegex_plain by done.
  cbn [rev app omap list_omap].
  unfold renderSpan.
  assert (startsWith (u "**") (x :: line) = false
          /\ startsWith (u "*") (x :: line) = false
          /\ startsWith (u "[") (x :: line) = false) as (-> & -> & ->).
  { apply not_elem_of_cons in H42 as [H42 _].
    apply not_elem_of_cons in H91 as [H91 _].
    change (u "**") with [42%N; 42%N]. change (u "*") with [42%N].
    change (u "[") with [91%N]. cbn [startsWith].
    destruct (N.eqb_spec 42 x), (N.eqb_spec 91 x); done. }
  rewrite (includes_false_startsWith _ _ Hh), (includes_false_startsWith _ _ Hw).
  reflexivity.
Qed.

Lemma plain_line_is_verbatim_witness :
  renderLine (u "Good day, all.")
  = MkLine (u "mb-1.5 block") [Plain (u "Good day, all.")].
Proof.
  apply plain_line_is_verbatim;
    [discriminate|reflexivity|not_in_literal|not_in_literal|reflexivity
    |reflexivity].
Defined.

(** ** Links and clicks *)

(** X11: a bare address is shown with the address as its label and with a
    target that opens with [http]; a plain click with the main button on
    it puts up that same target for confirmation, and a click with a
    modifier key or another button is left to the browser. *)
Theorem bare_link_confirms_its_target part href label e :
  renderSpan part = Some (BareLink href label) ->
  label = part
  /\ startsWith (u "http") href = true
  /\ handleLinkClick e href
     = if bool_decide (button e = 0%Z) && negb (ctrlKey e) && negb (metaKey e)
          && negb (shiftKey e) && negb (altKey e)
       then Some href else None.
Proof.
  unfold renderSpan. destruct part as [|x part]; [done|].
  destruct (_ && _); [done|]. destruct (_ && _); [done|].
  destruct (_ && _); [by destruct (exec _ _)|].
  destruct (startsWith (u "www.") (x :: part)) eqn:Hw.
  - rewrite orb_true_r. intros [= <- <-]. split_and!; [done|done|].
    unfold handleLinkClick. by destruct (_ && _).
  - rewrite orb_false_r.
    destruct (startsWith (u "http") (x :: part)) eqn:Hh; [|done].
    intros [= <- <-]. split_and!; [done|done|].
    unfold handleLinkClick. rewrite Hw. done.
Qed.

Lemma bare_link_confirms_its_target_witness :
  handleLinkClick (MkClick 0 false false false false)
    (u "https://www.example.com")
  = Some (u "https://www.example.com").
Proof.
  apply (bare_link_confirms_its_target (u "www.example.com")
           (u "https://www.example.com") (u "www.example.com")
           (MkClick 0 false false false false)).
  reflexivity.
Defined.

(** ** Attachments *)

Lemma omap_imap_skip {A} (l : list A) : forall i k,
  omap (M := list) (fun kept => kept)
    (imap (fun idx a => if bool_decide (k + idx = i) then None else Some a) l)
  = if bool_decide (k <= i) then take (i - k) l ++ drop (S (i - k)) l else l.
Proof.
  induction l as [|x l IH]; intros i k.
  - cbn [imap omap list_omap]. destruct (bool_decide _); [|done].
    by rewrite take_nil, drop_nil.
  - rewrite imap_cons. cbn [omap list_omap].
    rewrite (imap_ext _ (fun idx a =>
               if bool_decide (S k + idx = i) then None else Some a)).
    2:{ intros j y _. simpl. by replace (k + S j) with (S (k + j)) by lia. }
    rewrite (IH i (S k)).
    destruct (decide (k + 0 = i)) as [E|E].
    + rewrite bool_decide_eq_true_2 by done.
      rewrite bool_decide_eq_false_2 by lia.
      rewrite bool_decide_eq_true_2 by lia.
      by replace (i - k) with 0 by lia.
    + rewrite (bool_decide_eq_false_2 (k + 0 = i)) by done.
      destruct (decide (k <= i)) as [Hle|Hle].
      * rewrite bool_decide_eq_true_2 by lia.
        rewrite (bool_decide_eq_true_2 (k <= i)) by lia.
        replace (i - k) with (S (i - S k)) by lia. done.
      * rewrite bool_decide_eq_false_2 by lia.
        by rewrite (bool_decide_eq_false_2 (k <= i)) by lia.
Qed.

(** X12: the button on the preview of an attachment takes that attachment out
    of the list and leaves the others in their order; for an index past
    the end nothing changes. *)
Theorem removeAttachment_takes_one_out i s :
  attachments (removeAttachment i s)
    = take i (attachments s) ++ drop (S i) (attachments s)
  /\ (forall a, attachments s !! i = Some a ->
        length (attachments (removeAttachment i s)) + 1
        = length (attachments s))
  /\ (length (attachments s) <= i -> removeAttachment i s = s).
Proof.
  assert (E : attachments (removeAttachment i s)
              = take i (attachments s) ++ drop (S i) (attachments s)).
  { unfold removeAttachment. cbn [attachments setAttachments].
    pose proof (omap_imap_skip (attachments s) i 0) as Ho.
    rewrite bool_decide_eq_true_2 in Ho by lia.
    by rewrite Nat.sub_0_r in Ho. }
  split_and!; [done| |].
  - intros a Ha. apply lookup_lt_Some in Ha.
    rewrite E, length_app, length_take, length_drop. lia.
  - intros Hi. unfold removeAttachment.
    change (omap _ _) with (attachments (removeAttachment i s)).
    rewrite E, take_ge, drop_ge, app_nil_r by lia. by destruct s.
Qed.

Lemma removeAttachment_witness :
  length
    (attachments
       (removeAttachment 0
          (setAttachments
             [Attachment.Make (u "a.png") (u "blob:a") (u "QQ==") (u "image/png")]
             (sampleState []))))
  + 1
  = 1.
Proof.
  eapply (removeAttachment_takes_one_out 0
            (setAttachments
               [Attachment.Make (u "a.png") (u "blob:a") (u "QQ==")
                  (u "image/png")]
               (sampleState []))).
  reflexivity.
Defined.

(** ** Expanding and collapsing code blocks *)

Lemma digits_no_hyphen d : 45%N ∉ u (DecimalString.NilEmpty.string_of_uint d).
Proof.
  induction d; simpl; rewrite ?u_cons; try apply not_elem_of_nil;
    (apply not_elem_of_cons; split; [discriminate|done]).
Qed.

Lemma toString_no_hyphen i : 45%N ∉ toString (Z.of_nat i).
Proof.
  unfold toString. destruct i as [|i]; [not_in_literal|].
  simpl. unfold NilZero.string_of_uint.
  destruct (Pos.to_uint _); try apply digits_no_hyphen. not_in_literal.
Qed.

Lemma blockIdOf_inj m i m' i' :
  blockIdOf m i = blockIdOf m' i' -> m = m' /\ i = i'.
Proof.
  unfold blockIdOf. change (u "-") with [45%N]. intros E.
  apply (f_equal (@rev N)) in E.
  rewrite !rev_app_distr in E. simpl in E. rewrite <- !app_assoc in E.
  simpl in E.
  apply first_unit_unique in E as [E1 E2].
  - apply (f_equal (@rev N)) in E1, E2. rewrite !rev_involutive in E1, E2.
    split; [done|]. apply toString_inj in E1. lia.
  - intros Hin. apply list_elem_of_In, in_rev, list_elem_of_In in Hin.
    by apply toString_no_hyphen in Hin.
  - intros Hin. apply list_elem_of_In, in_rev, list_elem_of_In in Hin.
    by apply toString_no_hyphen in Hin.
Qed.

(** X13: a click on the header of a block changes the state of that block and
    of no other: the identifier of a block tells its message and its
    index, so every other block of every message is rendered as before;
    the block itself shows its code when it did not and hides it when it
    did, and a second click undoes the first. *)
Theorem toggleBlock_flips_one_block m i prev :
  let next := toggleBlock (blockIdOf m i) prev in
  (forall m' i' part,
     (m', i') <> (m, i) ->
     renderPart (elements next) m' i' part
     = renderPart (elements prev) m' i' part)
  /\ (forall part,
        renderPart (elements next) m i part
        = match renderPart (elements prev) m i part with
          | CodeBlock b label (Some _) => CodeBlock b label None
          | CodeBlock _ _ None => renderPart [blockIdOf m i] m i part
          | Formatted lines => Formatted lines
          end)
  /\ toggleBlock (blockIdOf m i) next = prev.
Proof.
  intros next.
  assert (Hin : forall b, b ∈ next <-> ((b ∈ prev /\ b <> blockIdOf m i)
                                     \/ ((b ∉ prev) /\ b = blockIdOf m i))).
  { intros b. unfold next, toggleBlock.
    destruct (decide (blockIdOf m i ∈ prev)) as [Hp|Hp].
    - rewrite bool_decide_eq_true_2 by done.
      rewrite elem_of_difference, elem_of_singleton. split.
      + intros [? ?]. by left.
      + intros [[? ?]|[? ->]]; done.
    - rewrite bool_decide_eq_false_2 by done.
      rewrite elem_of_union, elem_of_singleton. split.
      + intros [?| ->]; [left|by right]. split; [done|]. by intros ->.
      + intros [[? _]|[_ ?]]; [by left|by right]. }
  split_and!.
  - intros m' i' part Hne. unfold renderPart.
    destruct (exec codeBlock part); [|done]. cbn zeta. f_equal.
    fold (blockIdOf m' i').
    assert (blockIdOf m' i' <> blockIdOf m i) as Hb.
    { intros E. apply blockIdOf_inj in E as [-> ->]. done. }
    destruct (decide (blockIdOf m' i' ∈ prev)) as [Hp|Hp].
    + rewrite !bool_decide_eq_true_2; [done| |]; rewrite elem_of_elements;
        [done|]. apply Hin. by left.
    + rewrite !bool_decide_eq_false_2; [done| |]; rewrite elem_of_elements;
        [done|]. rewrite Hin. intros [[? _]|[_ ?]]; done.
  - intros part. unfold renderPart.
    destruct (exec codeBlock part) as [f|]; [|done]. cbn zeta.
    fold (blockIdOf m i).
    destruct (decide (blockIdOf m i ∈ prev)) as [Hp|Hp].
    + rewrite (bool_decide_eq_true_2 (blockIdOf m i ∈ elements prev))
        by (by rewrite elem_of_elements).
      rewrite (bool_decide_eq_false_2 (blockIdOf m i ∈ elements next)); [done|].
      rewrite elem_of_elements, Hin. intros [[_ ?]|[? _]]; done.
    + rewrite (bool_decide_eq_false_2 (blockIdOf m i ∈ elements prev))
        by (by rewrite elem_of_elements).
      rewrite (bool_decide_eq_true_2 (blockIdOf m i ∈ elements next))
        by (rewrite elem_of_elements, Hin; by right).
      by rewrite (bool_decide_eq_true_2 (blockIdOf m i ∈ [blockIdOf m i]))
        by left.
  - apply set_eq. intros b.
    assert (Hin2 : b ∈ toggleBlock (blockIdOf m i) next
                   <-> ((b ∈ next /\ b <> blockIdOf m i)
                        \/ ((b ∉ next) /\ b = blockIdOf m i))).
    { unfold toggleBlock at 1.
      destruct (decide (blockIdOf m i ∈ next)) as [Hp|Hp].
      - rewrite bool_decide_eq_true_2 by done.
        rewrite elem_of_difference, elem_of_singleton. split.
        + intros [? ?]. by left.
        + intros [[? ?]|[? ->]]; done.
      - rewrite bool_decide_eq_false_2 by done.
        rewrite elem_of_union, elem_of_singleton. split.
        + intros [?| ->]; [left|by right]. split; [done|]. by intros ->.
        + intros [[? _]|[_ ?]]; [by left|by right]. }
    rewrite Hin2, !Hin.
    destruct (decide (b = blockIdOf m i)) as [Hb|Hb];
      destruct (decide (b ∈ prev)); tauto.
Qed.

Lemma toggleBlock_witness :
  renderPart (elements (toggleBlock (blockIdOf (u "7") 1) ∅)) (u "7") 3
    (u "```js" ++ [10%N] ++ u "x```")
  = renderPart (elements (∅ : gset jsstring)) (u "7") 3
      (u "```js" ++ [10%N] ++ u "x```").
Proof.
  apply (toggleBlock_flips_one_block (u "7") 1 ∅).
  intros E. discriminate E.
Defined.

(** ** The gallery *)

Lemma generatedImages_app l1 l2 :
  generatedImages (l1 ++ l2) = generatedImages l2 ++ generatedImages l1.
Proof.
  unfold generatedImages.
  by rewrite List.filter_app, List.map_app, rev_app_distr.
Qed.

Lemma generatedImages_map f l :
  (forall m, Message.id (f m) = Message.id m
             /\ Message.type (f m) = Message.type m
             /\ Message.mediaUrl (f m) = Message.mediaUrl m
             /\ Message.timestamp (f m) = Message.timestamp m) ->
  generatedImages (List.map f l) = generatedImages l.
Proof.
  intros Hf. unfold generatedImages. f_equal.
  induction l as [|m l IH]; [done|]. cbn [List.map List.filter].
  destruct (Hf m) as (Hi & Ht & Hu & Hd). rewrite Ht, Hu.
  destruct (_ && _); cbn [List.map]; rewrite ?Hi, ?Hu, ?Hd, IH; done.
Qed.

Lemma generatedImages_onChunk b cs : forall acc,
  generatedImages (messages (foldl (onChunk b) acc cs).2)
  = generatedImages (messages acc.2).
Proof.
  induction cs as [|c cs IH]; intros acc; [done|].
  cbn [foldl]. rewrite IH. unfold onChunk. cbn [snd messages setMessages].
  apply generatedImages_map. intros m. by destruct (bool_decide _).
Qed.

Lemma generatedImages_sendFailed b e s :
  generatedImages (messages (sendFailed b e s)) = generatedImages (messages s).
Proof.
  unfold sendFailed. cbn [messages setMessages].
  apply generatedImages_map. intros m. by destruct (bool_decide _).
Qed.

(** X14: the gallery after a send, newest first: the image that was
    generated, if one was and its address is not empty; then the first
    attachment of the user, if it is an image with a preview; then what
    the gallery held before.  Streaming and failing add nothing to it and
    take nothing from it. *)
Theorem gallery_after_send w s :
  sendRefused s = false ->
  generatedImages (messages (send w s).1)
  = match rejected w, exec imageDirective (assembled (chunks w)),
          currentBot s, generated w with
    | None, Some _, Some b, inr ((_ :: _) as url) =>
      if Bot.hasImageGen b
      then [GalleryImage.Make (toString (nowImage w)) url (dateImage w)]
      else []
    | _, _, _, _ => []
    end
    ++ match head (attachments s) with
       | Some a =>
         match Attachment.preview a with
         | _ :: _ =>
           if startsWith (u "image") (Attachment.type a)
           then [GalleryImage.Make (toString (nowUser w)) (Attachment.preview a)
                   (dateUser w)]
           else []
         | [] => []
         end
       | None => []
       end
    ++ generatedImages (messages s).
Proof.
  intros Hr.
  assert (Hbegin : generatedImages (messages (sendBegin w s))
            = match head (attachments s) with
              | Some a =>
                match Attachment.preview a with
                | _ :: _ =>
                  if startsWith (u "image") (Attachment.type a)
                  then [GalleryImage.Make (toString (nowUser w))
                          (Attachment.preview a) (dateUser w)]
                  else []
                | [] => []
                end
              | None => []
              end ++ generatedImages (messages s)).
  { rewrite sendBegin_messages, generatedImages_app. f_equal.
    unfold generatedImages, userMessage, placeholder.
    cbn [List.filter Message.type Message.mediaUrl].
    destruct (head (attachments s)) as [a|]; [|done]. cbn [fmap option_fmap option_map].
    destruct (Attachment.preview a) eqn:Ep; cbn [shown].
    - by destruct (startsWith _ _).
    - destruct (startsWith _ _); [|done]. cbn.
      rewrite (bool_decide_eq_true_2 (Some MediaType.image = Some MediaType.image))
        by done.
      by rewrite andb_false_r. }
  unfold send. rewrite Hr.
  destruct (sendRefused_false_session s Hr) as [session ->]. cbn zeta.
  pose proof (generatedImages_onChunk (toString (nowBot w + 1)) (chunks w)
                ([], sendBegin w s)) as Hg.
  pose proof (onChunk_currentBot (toString (nowBot w + 1)) (chunks w)
                ([], sendBegin w s)) as Hc.
  pose proof (onChunk_fullText (toString (nowBot w + 1)) (chunks w)
                ([], sendBegin w s)) as Ht.
  set (st := foldl _ _ _) in *. cbn [fst snd app] in *.
  rewrite Hbegin in Hg.
  destruct (rejected w) as [e|]; cbn [fst snd]; rewrite messages_setIsLoading.
  { by rewrite generatedImages_sendFailed. }
  unfold afterStream. rewrite Ht, Hc.
  change (currentBot (sendBegin w s)) with (currentBot s).
  destruct (exec imageDirective (assembled (chunks w))); [|done].
  destruct (currentBot s) as [b|];
    [|destruct (generated w) as [|[|]]; exact Hg].
  destruct (Bot.hasImageGen b);
    [|destruct (generated w) as [|[|]]; exact Hg].
  destruct (generated w) as [e|url]; cbn [fst].
  - rewrite generatedImages_sendFailed. exact Hg.
  - cbn [messages setIsGeneratingMedia setMessages].
    rewrite generatedImages_app, Hg. f_equal.
    unfold generatedImages, imageMessage.
    cbn [List.filter Message.type Message.mediaUrl].
    rewrite (bool_decide_eq_true_2 (Some MediaType.image = Some MediaType.image))
      by done.
    by destruct url.
Qed.

Lemma gallery_after_send_witness :
  generatedImages
    (messages
       (send (MkOutside 1000 1000 1000 1000
                [(u "[GENERATE_IMAGE: a cat]", None)] None (inr (u "blob:1"))
                5000 5000)
          (sampleState (u "draw"))).1)
  = [GalleryImage.Make (u "5000") (u "blob:1") 5000].
Proof.
  etransitivity;
    [apply (gallery_after_send
              (MkOutside 1000 1000 1000 1000
                 [(u "[GENERATE_IMAGE: a cat]", None)] None (inr (u "blob:1"))
                 5000 5000)
              (sampleState (u "draw"))); reflexivity
    | reflexivity].
Defined.

(** ** Artifacts *)

Lemma includes_ticks_of_pair t : HasFencePair t -> includes ticks t = true.
Proof. intros (a & b & c & ->). apply includes_app. Qed.

Lemma currentFiles_step_plain files part :
  ~ HasFencePair part ->
  match exec codeBlock part with
  | Some found =>
    assign files
      (propertyKey
         (getFilenameFromCode (trim (default [] (capture 2 (groups found))))
            (toLowerCase (default [] (capture 1 (groups found))))))
      (trim (default [] (capture 2 (groups found))))
  | None => files
  end = files.
Proof.
  intros Hn. destruct (exec codeBlock part) eqn:E; [|done].
  exfalso. apply Hn, exec_codeBlock. by rewrite E.
Qed.

Lemma size_assign files k v : size (assign files k v) <= S (size files).
Proof.
  unfold assign. destruct (bool_decide _); [lia|].
  destruct (files !! k) eqn:E.
  - rewrite map_size_insert_Some by done. lia.
  - rewrite map_size_insert_None by done. lia.
Qed.

Lemma currentFiles_parts parts :
  FencedPieces parts ->
  forall files,
    2 * size
          (foldl
             (fun files part =>
                match exec codeBlock part with
                | Some found =>
                  let lang := toLowerCase (default [] (capture 1 (groups found))) in
                  let content := trim (default [] (capture 2 (groups found))) in
                  let fileName := getFilenameFromCode content lang in
                  assign files (propertyKey fileName) content
                | None => files
                end) files parts) + 1
    <= 2 * size files + length parts.
Proof.
  induction 1 as [t Ht|gap f parts Hgap Hf _ IH]; intros files.
  - cbn [foldl]. cbn zeta. rewrite currentFiles_step_plain by done. simpl. lia.
  - cbn [foldl]. cbn zeta. rewrite (currentFiles_step_plain files gap) by done.
    etransitivity; [apply IH|].
    destruct (exec codeBlock f); cbn [length]; [|lia].
    pose proof (size_assign files
      (propertyKey
         (getFilenameFromCode (trim (default [] (capture 2 (groups f0))))
            (toLowerCase (default [] (capture 1 (groups f0))))))
      (trim (default [] (capture 2 (groups f0))))). lia.
Qed.

Lemma currentFiles_fenced t : currentFiles t <> ∅ -> HasFencePair t.
Proof.
  intros Hne. destruct (split_FencedPieces t) as [Hp Hc].
  unfold currentFiles in Hne.
  destruct Hp as [t0 Ht0|gap f parts Hgap Hf Hp].
  - simpl in Hc. rewrite app_nil_r in Hc. subst t0.
    cbn [foldl] in Hne. cbn zeta in Hne.
    by rewrite currentFiles_step_plain in Hne.
  - destruct Hf as (body & -> & _). exists gap, body, (concat parts).
    rewrite <- Hc. simpl. by rewrite <- !app_assoc.
Qed.

Lemma foldl_addGroup msgs : forall groups,
  foldl addGroup groups msgs
  = groups
    ++ imap
         (fun k m =>
            ProjectGroup.Make (Message.id m)
              (u "Artifact #" ++ toString (Z.of_nat (length groups + k) + 1))
              (currentFiles (Message.text m)) (Message.timestamp m))
         (filter
            (fun m => Message.role m = Role.model
                      /\ currentFiles (Message.text m) <> ∅)
            msgs).
Proof.
  induction msgs as [|m msgs IH]; intros groups.
  - simpl. by rewrite app_nil_r.
  - cbn [foldl]. rewrite IH.
    destruct (decide (Message.role m = Role.model
                      /\ currentFiles (Message.text m) <> ∅)) as [[Hr Hf]|Hn].
    + assert (addGroup groups m
              = groups
                ++ [ProjectGroup.Make (Message.id m)
                      (u "Artifact #"
                       ++ toString (Z.of_nat (length groups) + 1))
                      (currentFiles (Message.text m)) (Message.timestamp m)])
        as ->.
      { unfold addGroup. rewrite bool_decide_eq_true_2 by done.
        change (u "```") with ticks.
        rewrite includes_ticks_of_pair by (by apply currentFiles_fenced).
        cbn [andb]. cbn zeta. by rewrite bool_decide_eq_false_2 by done. }
      rewrite filter_cons_True by done.
      rewrite imap_cons, <- app_assoc. cbn [app]. f_equal. f_equal.
      * by rewrite Nat.add_0_r.
      * apply imap_ext. intros k x _. cbn. rewrite length_app. cbn [length].
        do 4 f_equal. lia.
    + assert (addGroup groups m = groups) as ->.
      { unfold addGroup.
        destruct (bool_decide (Message.role m = Role.model)) eqn:Er; [|done].
        apply bool_decide_eq_true_1 in Er.
        destruct (includes (u "```") (Message.text m)) eqn:Ei; [|done].
        cbn [andb]. cbn zeta.
        destruct (bool_decide (currentFiles (Message.text m) = ∅)) eqn:Ef;
          [done|].
        apply bool_decide_eq_false_1 in Ef. exfalso. by apply Hn. }
      by rewrite filter_cons_False by done.
Qed.

(** X15: the artifact groups, read from the oldest: one for each reply of the
    model that gives at least one file, in the order of the replies, with
    the identifier and the time of the reply and the title 'Artifact #n',
    [n] counting the groups from 1.  A reply gives files only if its text
    holds a pair of fences, and never more files than it has fenced
    regions. *)
Theorem artifact_groups_follow_the_replies msgs :
  rev (projectGroups msgs)
  = imap
      (fun k m =>
         ProjectGroup.Make (Message.id m)
           (u "Artifact #" ++ toString (Z.of_nat k + 1))
           (currentFiles (Message.text m)) (Message.timestamp m))
      (filter
         (fun m => Message.role m = Role.model
                   /\ currentFiles (Message.text m) <> ∅)
         msgs)
  /\ (forall t, currentFiles t <> ∅ -> HasFencePair t)
  /\ (forall t,
        2 * size (currentFiles t) + 1 <= length (split fencedRegion t)).
Proof.
  split_and!.
  - unfold projectGroups. rewrite rev_involutive, foldl_addGroup. done.
  - apply currentFiles_fenced.
  - intros t. destruct (split_FencedPieces t) as [Hp _].
    pose proof (currentFiles_parts _ Hp ∅) as Hs.
    rewrite map_size_empty in Hs. exact Hs.
Qed.

Lemma artifact_groups_witness : HasFencePair (Message.text sampleReply).
Proof.
  apply (artifact_groups_follow_the_replies []).
  intros E. apply (f_equal size) in E. vm_compute in E. discriminate E.
Defined.

(** ** Attachments on their way to the backend *)

Lemma splitOn_no_sep sep s : sep ∉ s -> splitOn sep s = [s].
Proof.
  induction s as [|c s IH]; [done|]. intros [Hc Hs]%not_elem_of_cons.
  cbn [splitOn]. destruct (N.eqb_spec c sep) as [->|_]; [done|].
  by rewrite IH.
Qed.

Lemma splitOn_app_sep sep a b :
  sep ∉ a -> splitOn sep (a ++ sep :: b) = a :: splitOn sep b.
Proof.
  induction a as [|c a IH]; intros Ha.
  - cbn [app splitOn]. by rewrite N.eqb_refl.
  - apply not_elem_of_cons in Ha as [Hc Ha]. cbn [app splitOn].
    destruct (N.eqb_spec c sep) as [->|_]; [done|]. by rewrite IH.
Qed.

(** X16: what is read from a file as a data URL reaches the chat backend: the
    payload of the attachment is what follows the comma of the URL; a
    form that holds an attachment is sent whatever its input, and the
    request carries the input, or 'Analiz et.' when the input is the
    empty string, with the payload and the type of every attachment, in
    the order in which their reads ended.  A result without a comma has
    no payload. *)
Theorem attachment_reaches_the_backend w s session header payload
    file preview type :
  44%N ∉ header -> 44%N ∉ payload ->
  chatSession s = Some session -> isLoading s = false ->
  dataUrlPayload (header ++ u "," ++ payload) = Some payload
  /\ (let s' := setAttachments
                  (attachments s ++ [Attachment.Make file preview payload type])
                  s in
      head (send w s').2
      = Some
          (SendMessage session
             (Parts match input s with [] => u "Analiz et." | _ :: _ => input s end
                    (List.map (fun a => (Attachment.base64 a, Attachment.type a))
                              (attachments s)
                     ++ [(payload, type)]))))
  /\ forall result, 44%N ∉ result -> dataUrlPayload result = None.
Proof.
  intros Hh Hp Hs Hl. split_and!.
  - unfold dataUrlPayload. change (u "," ++ payload) with (44%N :: payload).
    rewrite splitOn_app_sep, splitOn_no_sep by done. done.
  - intros s'.
    assert (Hr : sendRefused s' = false).
    { unfold sendRefused, s'. cbn [attachments setAttachments input chatSession
                                   isLoading].
      rewrite Hs, Hl, length_app. cbn [length].
      rewrite (bool_decide_eq_false_2 (_ = 0)) by lia.
      by rewrite andb_false_r. }
    unfold send. rewrite Hr.
    change (chatSession s') with (chatSession s). rewrite Hs. cbn zeta.
    cbn [snd head]. do 2 f_equal.
    unfold buildPayload, s'. cbn [attachments setAttachments input].
    destruct (attachments s ++ _) eqn:E.
    { by apply app_eq_nil in E as [_ ?]. }
    rewrite <- E. by rewrite List.map_app.
  - intros result Hn. unfold dataUrlPayload. by rewrite splitOn_no_sep.
Qed.

Lemma attachment_reaches_the_backend_witness :
  dataUrlPayload (u "data:image/png;base64" ++ u "," ++ u "QUJD")
  = Some (u "QUJD").
Proof.
  apply (attachment_reaches_the_backend (sampleOutside [] None) (sampleState [])
           sampleSession (u "data:image/png;base64") (u "QUJD") (u "a.png")
           (u "blob:a") (u "image/png"));
    [not_in_literal|not_in_literal|reflexivity|reflexivity].
Defined.

(** ** Dictation and the send button *)

Lemma trim_app_not_blank a b : trim b <> [] -> trim (a ++ b) <> [].
Proof.
  intros Hb E. apply Hb. apply trim_nil_spaces. apply trim_nil_spaces in E.
  rewrite forallb_app in E. by apply andb_prop in E as [_ ?].
Qed.

(** X17: the send button and the guard of [send] agree: whenever the button
    is disabled, [send], which the Enter key calls without asking the
    button, does nothing; and when the button is enabled [send] refuses
    only for want of a chat session.  A transcript that is not blank,
    added by the speech recognition while no send is in flight, enables
    the button, and what is then sent is the input so far, a space if
    there was any input, and the transcript. *)
Theorem dictation_enables_the_send_button w s transcript :
  (sendDisabled s = true -> send w s = (s, []))
  /\ (sendDisabled s = false ->
      sendRefused s = bool_decide (chatSession s = None))
  /\ (trim transcript <> [] -> isLoading s = false ->
      sendDisabled (onSpeechResult transcript s) = false
      /\ (chatSession s <> None ->
          messages (sendBegin w (onSpeechResult transcript s))
            !! length (messages s)
          = Some (userMessage (nowUser w) (dateUser w)
                    (input s
                     ++ match input s with [] => [] | _ :: _ => u " " end
                     ++ transcript)
                    (attachments s)))).
Proof.
  split_and!.
  - intros Hd. unfold send, sendRefused. unfold sendDisabled in Hd.
    apply orb_true_iff in Hd as [-> | ->]; [by rewrite !orb_true_r|done].
  - intros Hd. unfold sendRefused. unfold sendDisabled in Hd.
    apply orb_false_iff in Hd as [-> ->]. by rewrite orb_false_r.
  - intros Ht Hl.
    assert (Hd : sendDisabled (onSpeechResult transcript s) = false).
    { unfold sendDisabled, onSpeechResult.
      cbn [isLoading input setInput attachments]. rewrite Hl.
      rewrite (bool_decide_eq_false_2 (trim _ = [])); [done|].
      rewrite app_assoc. by apply trim_app_not_blank. }
    split; [done|]. intros Hs.
    rewrite sendBegin_messages.
    change (messages (onSpeechResult transcript s)) with (messages s).
    rewrite lookup_app_r by lia. by rewrite Nat.sub_diag.
Qed.

Lemma dictation_witness :
  sendDisabled (onSpeechResult (u "hello") (sampleState (u "well"))) = false.
Proof.
  apply (dictation_enables_the_send_button (sampleOutside [] None)
           (sampleState (u "well")) (u "hello")); [discriminate|reflexivity].
Defined.

(** ** File names *)

Lemma directiveAt_not_empty l name : directiveAt l = Some name -> name <> [].
Proof.
  unfold directiveAt. destruct (startsWithI _ _); [|done].
  destruct (startsWithI _ _); [|done].
  destruct (dropSpaces _) as [|x l3]; [done|].
  destruct (nameUnit x); [|done]. by intros [= <-].
Qed.

Lemma directiveIn_not_empty l name : directiveIn l = Some name -> name <> [].
Proof.
  induction l as [|x l IH]; cbn [directiveIn].
  - destruct (directiveAt []) eqn:E; [|done]. intros [= <-].
    by apply directiveAt_not_empty in E.
  - destruct (directiveAt (x :: l)) eqn:E; [|done]. intros [= <-].
    by apply directiveAt_not_empty in E.
Qed.

(** X18: a code block always has a name: [getFilenameFromCode] never gives
    [undefined] nor the empty string, whatever the code and the tag; what
    it gives that is not a string is the property of [Object.prototype]
    that the tag, in lower case, names.  So the key under which the panel
    files a block is never empty. *)
Theorem file_name_is_never_missing code lang :
  match getFilenameFromCode code lang with
  | Str name => name <> []
  | Inherited p => p = toLowerCase lang /\ p ∈ objectPrototype
  | Undefined => False
  end
  /\ propertyKey (getFilenameFromCode code lang) <> [].
Proof.
  assert (H1 : match getFilenameFromCode code lang with
               | Str name => name <> []
               | Inherited p => p = toLowerCase lang /\ p ∈ objectPrototype
               | Undefined => False
               end).
  { rewrite getFilenameFromCode_spec.
    destruct (directiveIn _) as [name|] eqn:E.
    { by apply directiveIn_not_empty in E. }
    cbn zeta. unfold getProperty.
    destruct (ownProperty extMap (toLowerCase lang)) as [v|] eqn:Eo.
    - destruct v; cbn [truthy]; [|done].
      change (u "file." ++ ?x) with (102%N :: u "ile." ++ x). done.
    - destruct (bool_decide (toLowerCase lang ∈ objectPrototype)) eqn:Ep;
        cbn [truthy].
      + apply bool_decide_eq_true_1 in Ep. done.
      + change (u "file." ++ ?x) with (102%N :: u "ile." ++ x). done. }
  split; [done|].
  destruct (getFilenameFromCode code lang) as [name| |p]; [done|done|].
  unfold propertyKey. destruct (bool_decide (p = u "__proto__")); [done|].
  change (u "function " ++ ?x) with (102%N :: u "unction " ++ x). done.
Qed.

(** ** Pinned chats *)

Lemma pinned_key_not_chat_key i : PINNED_KEY <> CHAT_STORAGE_KEY i.
Proof.
  unfold PINNED_KEY, CHAT_STORAGE_KEY. intros E.
  apply (f_equal (take 11)) in E. vm_compute in E. discriminate E.
Qed.

Lemma pinned_key_not_model_key i : PINNED_KEY <> MODEL_STORAGE_KEY i.
Proof.
  unfold PINNED_KEY, MODEL_STORAGE_KEY. intros E.
  apply (f_equal (take 11)) in E. vm_compute in E. discriminate E.
Qed.

Lemma pinned_key_not_pano_key i : PINNED_KEY <> PANO_STORAGE_KEY i.
Proof.
  unfold PINNED_KEY, PANO_STORAGE_KEY. intros E.
  apply (f_equal (take 11)) in E. vm_compute in E. discriminate E.
Qed.

Section PinnedChats.

Variable JSON_stringify : JSON.json -> jsstring.

(** X19: pinning a chat: the list that is stored opens with the new entry,
    whose identifier is the clock reading, goes on with the entries that
    were stored, in their order, and holds ten entries at most; no chat
    history, model or notes entry of any bot changes, and neither do the
    messages on the screen.  With nothing stored the list is the new
    entry alone; a stored text that does not parse makes the handler
    throw. *)
Theorem pinning_keeps_ten_entries now clockTime iso s :
  (forall s',
     handlePinChat JSON_stringify now clockTime iso s = Some s' ->
     exists item old,
       (spread
          <$> JSON.parse (default (u "[]") (getSaved (localStorage s) PINNED_KEY)))
       = Some (Some old)
       /\ (exists fields,
             item = JSON.Object ((u "id", JSON.String (toString now)) :: fields))
       /\ localStorage s' !! PINNED_KEY
          = Some (JSON_stringify (JSON.Array (item :: take 9 old)))
       /\ length (item :: take 9 old) <= 10
       /\ (forall k, k <> PINNED_KEY -> localStorage s' !! k = localStorage s !! k)
       /\ (forall i, localStorage s' !! CHAT_STORAGE_KEY i
                     = localStorage s !! CHAT_STORAGE_KEY i
                     /\ localStorage s' !! MODEL_STORAGE_KEY i
                        = localStorage s !! MODEL_STORAGE_KEY i
                     /\ localStorage s' !! PANO_STORAGE_KEY i
                        = localStorage s !! PANO_STORAGE_KEY i)
       /\ messages s' = messages s)
  /\ (getSaved (localStorage s) PINNED_KEY = None ->
      exists s' item,
        handlePinChat JSON_stringify now clockTime iso s = Some s'
        /\ localStorage s' !! PINNED_KEY
           = Some (JSON_stringify (JSON.Array [item])))
  /\ (forall saved,
        getSaved (localStorage s) PINNED_KEY = Some saved ->
        JSON.parse saved = None ->
        handlePinChat JSON_stringify now clockTime iso s = None).
Proof.
  split_and!.
  - intros s'. unfold handlePinChat.
    destruct (JSON.parse _) as [globalPinned|]; [|done].
    destruct (spread globalPinned) as [old|] eqn:Eo; [|done].
    intros [= <-]. eexists _, old. split_and!.
    + cbn. by rewrite Eo.
    + eexists. reflexivity.
    + cbn [localStorage withStorage take]. apply lookup_insert_eq.
    + cbn [length]. rewrite length_take. lia.
    + intros k Hk. cbn [localStorage withStorage]. by apply lookup_insert_ne.
    + intros i. cbn [localStorage withStorage].
      rewrite !lookup_insert_ne; [done| | |].
      * apply pinned_key_not_pano_key.
      * apply pinned_key_not_model_key.
      * apply pinned_key_not_chat_key.
    + done.
  - intros Hn. unfold handlePinChat. rewrite Hn. cbn [default].
    assert (JSON.parse (u "[]") = Some (JSON.Array [])) as -> by reflexivity.
    cbn [spread]. eexists _, _. split; [reflexivity|].
    cbn [localStorage withStorage take]. apply lookup_insert_eq.
  - intros saved Hs Hp. unfold handlePinChat. rewrite Hs.
    change (default (u "[]") (Some saved)) with saved. by rewrite Hp.
Qed.

End PinnedChats.

Lemma pinning_witness :
  exists s' item,
    handlePinChat (fun _ => u "[...]") 1000 (u "10:30") (u "2026") (sampleState [])
    = Some s'
    /\ localStorage s' !! PINNED_KEY
       = Some ((fun _ => u "[...]") (JSON.Array [item])).
Proof.
  apply (pinning_keeps_ten_entries (fun _ => u "[...]") 1000 (u "10:30")
           (u "2026") (sampleState [])).
  reflexivity.
Defined.

(** ** Citations *)

Lemma onChunk_citations b cs : forall acc i m,
  messages acc.2 !! i = Some m ->
  Message.id m = b ->
  exists m', messages (foldl (onChunk b) acc cs).2 !! i = Some m'
    /\ Message.id m' = b
    /\ Message.groundingChunks m'
       = match last (omap snd cs) with
         | Some grounding => Some grounding
         | None => Message.groundingChunks m
         end.
Proof.
  induction cs as [|c cs IH]; intros acc i m Hi Hb.
  - exists m. by split_and!.
  - cbn [foldl].
    destruct (IH (onChunk b acc c) i
                (Message.Make (Message.id m) (Message.role m) (acc.1 ++ c.1)
                   (Message.timestamp m) (Message.mediaUrl m) (Message.type m)
                   (match c.2 with
                    | Some grounding => Some grounding
                    | None => Message.groundingChunks m
                    end)))
      as (m' & Hm' & Hid & Hg); [|done|].
    { unfold onChunk. cbn [snd messages setMessages].
      rewrite list_lookup_fmap, Hi. cbn.
      by rewrite bool_decide_eq_true_2. }
    exists m'. split_and!; [done|done|]. rewrite Hg.
    cbn [Message.groundingChunks omap list_omap].
    destruct c as [t [g|]]; cbn [snd]; [|done].
    rewrite last_cons. by destruct (last (omap snd cs)).
Qed.

(** X20: the citations of a reply while it streams: those that came with the
    latest fragment that brought a list of them, an empty list included;
    the lists of earlier fragments are replaced, not added to, and before
    any list has come the reply has none. *)
Theorem citations_are_replaced w s n :
  let received := take n (chunks w) in
  exists m,
    messages
      (foldl (onChunk (toString (nowBot w + 1))) ([], sendBegin w s) received).2
      !! S (length (messages s))
    = Some m
    /\ Message.id m = toString (nowBot w + 1)
    /\ Message.groundingChunks m = Some (default [] (last (omap snd received))).
Proof.
  intros received.
  destruct (onChunk_citations (toString (nowBot w + 1)) received
              ([], sendBegin w s) (S (length (messages s)))
              (placeholder (toString (nowBot w + 1)) (dateBot w)))
    as (m & Hm & Hid & Hg); [|done|].
  { cbn [snd]. rewrite sendBegin_messages, lookup_app_r by lia.
    by replace (S (length (messages s)) - length (messages s)) with 1 by lia. }
  exists m. split_and!; [done|done|]. rewrite Hg.
  by destruct (last (omap snd received)).
Qed.

(** ** One send at a time *)

Section InFlight.

Context `{Codec}.

Lemma isLoading_rehydrate date s : isLoading (rehydrate date s) = isLoading s.
Proof.
  unfold rehydrate. destruct (currentBot s); [|done]. cbn zeta.
  destruct (getSaved (localStorage s) (CHAT_STORAGE_KEY (id s))) as [c|];
    [destruct (parseMessages c)|];
    cbn [localStorage id setMessages];
    (destruct (getSaved (localStorage s) (PANO_STORAGE_KEY (id s))) as [p|];
     [destruct (parseNotes p)|]);
    cbn [localStorage id setPanoNotes setMessages];
    destruct (getSaved (localStorage s) (MODEL_STORAGE_KEY (id s)));
    reflexivity.
Qed.

Lemma isLoading_step s e :
  isLoading s = true -> e <> Settled -> isLoading (step s e) = true.
Proof.
  intros Hl He. destruct e; cbn [step]; try done.
  - by rewrite isLoading_rehydrate.
  - unfold openChatSession. by destruct (currentBot s).
  - unfold persistHistory. destruct (messages s); [done|]. by destruct writable.
  - unfold persistSettings. by destruct (id s) as [[|]|].
  - unfold handleSaveToPano. by destruct (cleanText t).
  - unfold handleManualNoteSave. by destruct (trim (manualNoteText s)).
  - by destruct (sendRefused s).
Qed.

(** X21: while a send is in flight no other send starts: from the moment a
    send is accepted until its [finally] clause runs, whatever else
    happens to the component, the loading flag is up, the send button is
    disabled, and a further call of [send] changes nothing and asks the
    backend for nothing. *)
Theorem one_send_in_flight s w evs w' :
  sendRefused s = false ->
  Forall (fun e => e <> Settled) evs ->
  let s' := steps (step s (SendBegin w)) evs in
  isLoading s' = true
  /\ sendDisabled s' = true
  /\ step s' (SendBegin w') = s'
  /\ send w' s' = (s', []).
Proof.
  intros Hr Hevs s'.
  assert (Hl : isLoading s' = true).
  { unfold s', steps. cbn [step]. rewrite Hr.
    assert (isLoading (sendBegin w s) = true) as H0 by done.
    revert H0. generalize (sendBegin w s).
    induction Hevs as [|e evs He _ IH]; intros s0 H0; [done|].
    cbn [foldl]. apply IH. by apply isLoading_step. }
  assert (Hr' : sendRefused s' = true).
  { unfold sendRefused. rewrite Hl. apply orb_true_r. }
  split_and!; [done| | |].
  - unfold sendDisabled. by rewrite Hl.
  - cbn [step]. by rewrite Hr'.
  - unfold send. by rewrite Hr'.
Qed.

End InFlight.

Lemma one_send_in_flight_witness :
  isLoading
    (@steps opaqueCodec
       (@step opaqueCodec (sampleState (u "hi")) (SendBegin (sampleOutside [] None)))
       [TypeInput (u "again"); Chunk (u "1001") [] (u "ok", None); ConfirmReset])
  = true.
Proof.
  apply (@one_send_in_flight opaqueCodec (sampleState (u "hi"))
           (sampleOutside [] None)
           [TypeInput (u "again"); Chunk (u "1001") [] (u "ok", None);
            ConfirmReset]
           (sampleOutside [] None)); [reflexivity|].
  repeat constructor; discriminate.
Defined.

(** ** Bold and italic *)

Lemma run_Or_l r1 r2 s c k res :
  run r1 s c k = Some res -> run (Or r1 r2) s c k = Some res.
Proof. intros E. cbn [run]. by rewrite E. Qed.

Lemma run_Or_r r1 r2 s c k :
  run r1 s c k = None -> run (Or r1 r2) s c k = run r2 s c k.
Proof. intros E. cbn [run]. by rewrite E. Qed.

Lemma run_Group i r s c k :
  run (Group i r) s c k
  = run r s c (fun s1 c1 => k s1 ((i, take (length s - length s1) s) :: c1)).
Proof. reflexivity. Qed.

Lemma includes_false_drop p s i :
  includes p s = false -> includes p (drop i s) = false.
Proof.
  revert s. induction i as [|i IH]; intros s Hs; [by rewrite drop_0|].
  destruct s as [|x s]; [done|]. cbn [drop]. apply IH.
  simpl in Hs. by apply orb_false_elim in Hs as [_ ?].
Qed.

(** No match of [combinedRegex] starts inside a text without markup that
    is followed by an asterisk or by nothing. *)
Lemma no_match_in_unmarked pre tail i :
  unmarked pre -> i < length pre ->
  tail = [] \/ (exists t, tail = 42%N :: t) ->
  matchHere combinedRegex (drop i (pre ++ tail)) = None.
Proof.
  intros (H42 & H91 & Hh & Hw) Hi Htail.
  destruct (matchHere combinedRegex (drop i (pre ++ tail))) as [[n c]|] eqn:E;
    [|done].
  exfalso. apply matchHere_Some in E as (a & rest & Hs & Hm & _).
  rewrite drop_app_le in Hs by lia.
  destruct (drop i pre) as [|y q] eqn:Ed.
  { apply (f_equal length) in Ed. rewrite length_drop in Ed. simpl in Ed. lia. }
  assert (Hy : y ∈ pre).
  { rewrite <- (take_drop i pre), Ed. apply elem_of_app. right. left. }
  assert (Hq : forall z, z ∈ q -> z ∈ pre).
  { intros z Hz. rewrite <- (take_drop i pre), Ed. apply elem_of_app. right.
    by right. }
  pose proof (includes_false_drop _ _ i Hh) as Hh'.
  pose proof (includes_false_drop _ _ i Hw) as Hw'.
  rewrite Ed in Hh', Hw'.
  assert (Hstar : forall a0 b0 c0 d0 k,
            (y :: q) ++ tail = [a0; b0; c0; d0] ++ k ->
            a0 <> 42%N -> b0 <> 42%N -> c0 <> 42%N -> d0 <> 42%N ->
            startsWith [a0; b0; c0; d0] (y :: q) = true).
  { intros a0 b0 c0 d0 k Hk Ha Hb Hc Hd.
    destruct Htail as [->|[t ->]].
    - rewrite app_nil_r in Hk. rewrite Hk. apply startsWith_app.
    - destruct q as [|q1 [|q2 [|q3 q]]]; simpl in Hk; injection Hk; intros;
        subst; try congruence.
      cbn [startsWith]. by rewrite !N.eqb_refl. }
  apply combinedRegex_opening in Hm as [t [-> | [-> | [-> | ->]]]].
  - injection Hs as -> _. done.
  - injection Hs as -> _. done.
  - rewrite <- app_assoc in Hs.
    assert (startsWith (u "http") (y :: q) = true) as Hst
      by (by apply (Hstar _ _ _ _ _ Hs)).
    apply includes_false_startsWith in Hh'. congruence.
  - rewrite <- app_assoc in Hs.
    assert (startsWith (u "www.") (y :: q) = true) as Hst
      by (by apply (Hstar _ _ _ _ _ Hs)).
    apply includes_false_startsWith in Hw'. congruence.
Qed.

Lemma renderSpan_unmarked t : unmarked t -> omap renderSpan [t] = plainSpan t.
Proof.
  intros (H42 & H91 & Hh & Hw). destruct t as [|x t]; [done|].
  cbn [omap list_omap plainSpan]. unfold renderSpan.
  assert (startsWith (u "**") (x :: t) = false
          /\ startsWith (u "*") (x :: t) = false
          /\ startsWith (u "[") (x :: t) = false) as (-> & -> & ->).
  { apply not_elem_of_cons in H42 as [H42 _].
    apply not_elem_of_cons in H91 as [H91 _].
    change (u "**") with [42%N; 42%N]. change (u "*") with [42%N].
    change (u "[") with [91%N]. cbn [startsWith].
    destruct (N.eqb_spec 42 x), (N.eqb_spec 91 x); done. }
  rewrite (includes_false_startsWith _ _ Hh), (includes_false_startsWith _ _ Hw).
  reflexivity.
Qed.

Lemma unmarked_exec t : unmarked t -> exec combinedRegex t = None.
Proof. intros (? & ? & ? & ?). by apply exec_combinedRegex_plain. Qed.

(** A line made of one match between two texts without markup splits
    into the three of them. *)
Lemma split_one_match pre m post c :
  unmarked pre -> unmarked post ->
  (exists t, m = 42%N :: t) ->
  matchHere combinedRegex (m ++ post) = Some (length m, c) ->
  split combinedRegex (pre ++ m ++ post) = [pre; m; post].
Proof.
  intros Hpre Hpost [t ->] Hm.
  assert (split combinedRegex (pre ++ (42%N :: t) ++ post)
          = splitFrom combinedRegex 0 [] (pre ++ (42%N :: t) ++ post)) as ->.
  { by destruct pre. }
  rewrite splitFrom_exec by apply combinedRegex_not_empty.
  unfold exec. rewrite execFrom_skip.
  2:{ intros i Hi. apply no_match_in_unmarked; [done|done|].
      right. by exists (t ++ post). }
  rewrite app_nil_r.
  change (((42%N :: t) ++ post)) with (42%N :: (t ++ post)) in *.
  cbn [execFrom]. rewrite Hm. cbn [before matched after].
  rewrite rev_involutive.
  change (42%N :: t ++ post) with ((42%N :: t) ++ post).
  rewrite take_app_length, drop_app_length.
  cbn [rev app]. do 2 f_equal.
  rewrite splitFrom_exec by apply combinedRegex_not_empty.
  by rewrite unmarked_exec.
Qed.

Lemma few_dot_until_star (k : cont) c x rest res :
  42%N ∉ x -> forallb dot x = true ->
  (forall i, i < length x -> k (drop i (x ++ rest)) c = None) ->
  k rest c = Some res ->
  few dot (x ++ rest) c k = Some res.
Proof.
  intros _ Hdot Hnone Hk. rewrite few_first by done. by apply few_head.
Qed.

Lemma head_not_star x rest i y q :
  42%N ∉ x -> i < length x -> drop i (x ++ rest) = y :: q -> y <> 42%N.
Proof.
  intros Hx Hi Hd Hy. subst y. apply Hx.
  rewrite drop_app_le in Hd by lia.
  destruct (drop i x) as [|z w] eqn:Ez.
  { apply (f_equal length) in Ez. rewrite length_drop in Ez. simpl in Ez. lia. }
  injection Hd as -> _.
  rewrite <- (take_drop i x), Ez. apply elem_of_app. right. left.
Qed.

Lemma matchHere_bold x post :
  42%N ∉ x -> forallb dot x = true ->
  matchHere combinedRegex ((u "**" ++ x ++ u "**") ++ post)
  = Some (length (u "**" ++ x ++ u "**"), [(1, u "**" ++ x ++ u "**")]).
Proof.
  intros Hx Hdot. unfold matchHere, combinedRegex.
  set (s := (u "**" ++ x ++ u "**") ++ post).
  rewrite run_Group. erewrite run_Or_l.
  2:{ cbn [run]. rewrite run_lit.
      assert (startsWith (u "**") s = true) as ->
        by (unfold s; rewrite <- !app_assoc; apply startsWith_app).
      assert (drop (length (u "**")) s = x ++ u "**" ++ post) as ->
        by (unfold s; rewrite <- !app_assoc; apply drop_app_length).
      apply few_dot_until_star; [done|done| |].
      - intros i Hi. rewrite run_lit.
        destruct (drop i (x ++ u "**" ++ post)) as [|y q] eqn:Ed; [done|].
        pose proof (head_not_star _ _ _ _ _ Hx Hi Ed) as Hy.
        change (u "**") with [42%N; 42%N]. cbn [startsWith].
        destruct (N.eqb_spec 42 y); [congruence|done].
      - rewrite run_lit, startsWith_app, drop_app_length. reflexivity. }
  unfold s. rewrite !length_app. f_equal. f_equal.
  - change (length (u "**")) with 2. lia.
  - do 2 f_equal. rewrite <- !length_app.
    replace (length ((u "**" ++ x ++ u "**") ++ post) - length post)
      with (length (u "**" ++ x ++ u "**")) by (rewrite !length_app; lia).
    apply take_app_length.
Qed.

Lemma matchHere_italic x post :
  x <> [] -> 42%N ∉ x -> forallb dot x = true ->
  matchHere combinedRegex ((u "*" ++ x ++ u "*") ++ post)
  = Some (length (u "*" ++ x ++ u "*"), [(1, u "*" ++ x ++ u "*")]).
Proof.
  intros Hne Hx Hdot. unfold matchHere, combinedRegex.
  set (s := (u "*" ++ x ++ u "*") ++ post).
  rewrite run_Group, run_Or_r.
  2:{ cbn [run]. rewrite run_lit. unfold s.
      destruct x as [|x0 x]; [done|]. apply not_elem_of_cons in Hx as [Hx0 _].
      change (u "**") with [42%N; 42%N].
      change ((u "*" ++ (x0 :: x) ++ u "*") ++ post)
        with (42%N :: x0 :: (x ++ u "*") ++ post).
      cbn [startsWith]. destruct (N.eqb_spec 42 x0); [congruence|done]. }
  erewrite run_Or_l.
  2:{ cbn [run]. unfold chr.
      assert (Es : s = 42%N :: x ++ u "*" ++ post)
        by (unfold s; by rewrite <- !app_assoc).
      rewrite Es at 1.
      rewrite run_Class_cons. change (N_of_ascii "*" =? 42)%N with true.
      cbn iota.
      apply few_dot_until_star; [done|done| |].
      - intros i Hi.
        destruct (drop i (x ++ u "*" ++ post)) as [|y q] eqn:Ed; [done|].
        pose proof (head_not_star _ _ _ _ _ Hx Hi Ed) as Hy.
        rewrite run_Class_cons.
        destruct (N.eqb_spec (N_of_ascii "*") y) as [E|]; [|done].
        by rewrite <- E in Hy.
      - change (u "*" ++ post) with (42%N :: post). rewrite run_Class_cons.
        change (N_of_ascii "*" =? 42)%N with true. reflexivity. }
  unfold s. rewrite !length_app. f_equal. f_equal.
  - change (length (u "*")) with 1. lia.
  - do 2 f_equal. rewrite <- !length_app.
    replace (length ((u "*" ++ x ++ u "*") ++ post) - length post)
      with (length (u "*" ++ x ++ u "*")) by (rewrite !length_app; lia).
    apply take_app_length.
Qed.

Lemma renderSpan_bold x : renderSpan (u "**" ++ x ++ u "**") = Some (Strong x).
Proof.
  unfold renderSpan.
  change (u "**" ++ x ++ u "**") with (42%N :: 42%N :: x ++ u "**") at 1.
  cbn iota.
  rewrite startsWith_app. unfold endsWith.
  rewrite !rev_app_distr, <- app_assoc, startsWith_app. cbn [andb].
  unfold sliceBoth. f_equal. f_equal.
  change (drop 2 (u "**" ++ x ++ u "**")) with (x ++ u "**").
  rewrite !length_app. change (length (u "**")) with 2.
  replace (2 + (length x + 2) - 2 - 2) with (length x) by lia.
  apply take_app_length.
Qed.

Lemma renderSpan_italic x :
  x <> [] -> 42%N ∉ x -> renderSpan (u "*" ++ x ++ u "*") = Some (Em x).
Proof.
  intros Hne Hx. destruct x as [|x0 x]; [done|].
  apply not_elem_of_cons in Hx as [Hx0 _].
  unfold renderSpan.
  change (u "*" ++ (x0 :: x) ++ u "*") with (42%N :: x0 :: x ++ u "*") at 1.
  cbn iota.
  assert (startsWith (u "**") (u "*" ++ (x0 :: x) ++ u "*") = false) as ->.
  { change (u "**") with [42%N; 42%N].
    change (u "*" ++ (x0 :: x) ++ u "*") with (42%N :: x0 :: x ++ u "*").
    cbn [startsWith]. destruct (N.eqb_spec 42 x0); [congruence|done]. }
  cbn [andb]. rewrite startsWith_app. unfold endsWith.
  rewrite !rev_app_distr, <- app_assoc, startsWith_app. cbn [andb].
  unfold sliceBoth. f_equal. f_equal.
  change (drop 1 (u "*" ++ (x0 :: x) ++ u "*")) with ((x0 :: x) ++ u "*").
  rewrite !length_app. change (length (u "*")) with 1.
  replace (1 + (length (x0 :: x) + 1) - 1 - 1) with (length (x0 :: x)) by lia.
  apply take_app_length.
Qed.

Lemma not_heading pre tail :
  startsWith (u "#") pre = false -> (exists t, tail = 42%N :: t) ->
  startsWith (u "### ") (pre ++ tail) = false
  /\ startsWith (u "## ") (pre ++ tail) = false
  /\ startsWith (u "# ") (pre ++ tail) = false.
Proof.
  intros Hp [t ->].
  change (u "### ") with (35%N :: u "## ").
  change (u "## ") with (35%N :: u "# ").
  change (u "# ") with (35%N :: u " ").
  change (u "#") with [35%N] in Hp.
  destruct pre as [|y pre]; cbn [app startsWith] in *; [done|].
  apply andb_false_iff in Hp as [->|Hp]; done.
Qed.

(** X22: bold and italic text inside a line: text between two pairs of
    asterisks is shown in bold, text between two single asterisks in
    italics, in both cases without the asterisks, and the text without
    markup before and after is shown as it is. *)
Theorem emphasis_is_rendered pre x post :
  unmarked pre -> unmarked post ->
  startsWith (u "#") pre = false ->
  42%N ∉ x -> forallb dot x = true ->
  renderLine (pre ++ (u "**" ++ x ++ u "**") ++ post)
    = MkLine (u "mb-1.5 block") (plainSpan pre ++ [Strong x] ++ plainSpan post)
  /\ (x <> [] ->
      renderLine (pre ++ (u "*" ++ x ++ u "*") ++ post)
      = MkLine (u "mb-1.5 block") (plainSpan pre ++ [Em x] ++ plainSpan post)).
Proof.
  intros Hpre Hpost Hhead Hx Hdot. split.
  - unfold renderLine.
    destruct (not_heading pre ((u "**" ++ x ++ u "**") ++ post) Hhead)
      as (-> & -> & ->).
    { by exists (42%N :: (x ++ u "**") ++ post). }
    cbn [fst snd]. f_equal.
    rewrite (split_one_match pre (u "**" ++ x ++ u "**") post
               [(1, u "**" ++ x ++ u "**")] Hpre Hpost);
      [|by exists (42%N :: x ++ u "**")|by apply matchHere_bold].
    change [pre; u "**" ++ x ++ u "**"; post]
      with ([pre] ++ [u "**" ++ x ++ u "**"] ++ [post]).
    rewrite !omap_app.
    rewrite (renderSpan_unmarked pre), (renderSpan_unmarked post) by done.
    cbn [omap list_omap]. by rewrite renderSpan_bold.
  - intros Hne. unfold renderLine.
    destruct (not_heading pre ((u "*" ++ x ++ u "*") ++ post) Hhead)
      as (-> & -> & ->).
    { by exists ((x ++ u "*") ++ post). }
    cbn [fst snd]. f_equal.
    rewrite (split_one_match pre (u "*" ++ x ++ u "*") post
               [(1, u "*" ++ x ++ u "*")] Hpre Hpost);
      [|by exists (x ++ u "*")|by apply matchHere_italic].
    change [pre; u "*" ++ x ++ u "*"; post]
      with ([pre] ++ [u "*" ++ x ++ u "*"] ++ [post]).
    rewrite !omap_app.
    rewrite (renderSpan_unmarked pre), (renderSpan_unmarked post) by done.
    cbn [omap list_omap]. by rewrite renderSpan_italic.
Qed.

Lemma emphasis_is_rendered_witness :
  renderLine (u "say " ++ (u "**" ++ u "hi" ++ u "**") ++ u " now")
  = MkLine (u "mb-1.5 block")
      (plainSpan (u "say ") ++ [Strong (u "hi")] ++ plainSpan (u " now")).
Proof.
  apply (emphasis_is_rendered (u "say ") (u "hi") (u " now"));
    [split_and!; [not_in_literal|not_in_literal|reflexivity|reflexivity]
    |split_and!; [not_in_literal|not_in_literal|reflexivity|reflexivity]
    |reflexivity|not_in_literal|reflexivity].
Defined.

(** ** Headings *)

Lemma split_unmarked t :
  unmarked t -> omap renderSpan (split combinedRegex t) = plainSpan t.
Proof.
  intros Ht. destruct t as [|x t].
  - unfold split.
    destruct (matchHere combinedRegex []) as [[n c]|] eqn:E; [|done].
    apply matchHere_Some in E as (a & rest & Hs & Hm & ->).
    symmetry in Hs. apply app_eq_nil in Hs as [-> ->].
    apply combinedRegex_opening in Hm as [t [H|[H|[H|H]]]]; discriminate H.
  - unfold split. rewrite splitFrom_exec by apply combinedRegex_not_empty.
    rewrite unmarked_exec by done. cbn [rev app].
    by apply renderSpan_unmarked.
Qed.

Lemma unmarked_hashes content :
  unmarked content -> unmarked (u "#### " ++ content).
Proof.
  intros (H42 & H91 & Hh & Hw).
  change (u "#### " ++ content)
    with (35%N :: 35%N :: 35%N :: 35%N :: 32%N :: content).
  split_and!.
  - rewrite !not_elem_of_cons. by split_and!.
  - rewrite !not_elem_of_cons. by split_and!.
  - change (u "http") with (104%N :: u "ttp") in *. cbn [includes startsWith].
    rewrite Hh. reflexivity.
  - change (u "www.") with (119%N :: u "ww.") in *. cbn [includes startsWith].
    rewrite Hw. reflexivity.
Qed.

(** X23: headings: a line that opens with one, two or three hash marks and a
    space is shown without them, in the style of its level; four hash
    marks make no heading, and the line is shown as it is. *)
Theorem heading_levels content :
  unmarked content ->
  renderLine (u "# " ++ content)
    = MkLine (u "mb-1.5 block" ++ u " font-black text-black text-lg mb-3")
        (plainSpan content)
  /\ renderLine (u "## " ++ content)
     = MkLine (u "mb-1.5 block"
               ++ u " font-extrabold text-black border-b border-zinc-50 pb-1 mb-2")
         (plainSpan content)
  /\ renderLine (u "### " ++ content)
     = MkLine (u "mb-1.5 block" ++ u " font-bold text-black") (plainSpan content)
  /\ renderLine (u "#### " ++ content)
     = MkLine (u "mb-1.5 block") [Plain (u "#### " ++ content)].
Proof.
  intros Hc. split_and!.
  - unfold renderLine.
    change (startsWith (u "### ") (u "# " ++ content)) with false.
    change (startsWith (u "## ") (u "# " ++ content)) with false.
    rewrite startsWith_app. cbn [fst snd].
    change (drop 2 (u "# " ++ content)) with content.
    by rewrite split_unmarked.
  - unfold renderLine.
    change (startsWith (u "### ") (u "## " ++ content)) with false.
    rewrite startsWith_app. cbn [fst snd].
    change (drop 3 (u "## " ++ content)) with content.
    by rewrite split_unmarked.
  - unfold renderLine. rewrite startsWith_app. cbn [fst snd].
    change (drop 4 (u "### " ++ content)) with content.
    by rewrite split_unmarked.
  - unfold renderLine.
    change (startsWith (u "### ") (u "#### " ++ content)) with false.
    change (startsWith (u "## ") (u "#### " ++ content)) with false.
    change (startsWith (u "# ") (u "#### " ++ content)) with false.
    cbn [fst snd]. by rewrite split_unmarked by (by apply unmarked_hashes).
Qed.

Lemma heading_levels_witness :
  renderLine (u "## " ++ u "Plan")
  = MkLine (u "mb-1.5 block"
            ++ u " font-extrabold text-black border-b border-zinc-50 pb-1 mb-2")
      (plainSpan (u "Plan")).
Proof.
  apply (heading_levels (u "Plan")).
  split_and!; [not_in_literal|not_in_literal|reflexivity|reflexivity].
Defined.

(** ** The form after a send *)

Section FormAfterSend.

Context `{Codec}.





End FormAfterSend.


(** ** Fenced regions as code blocks *)

Lemma many_greedy p (k : cont) c s r :
  k (skipWhile p s) c = Some r -> many p s c k = Some r.
Proof.
  induction s as [|x s IH]; [done|]. cbn [many skipWhile].
  destruct (p x); [|done]. intros E. by rewrite (IH E).
Qed.

Lemma indexOf_first t s n :
  indexOf t s = Some n -> forall i, i < n -> startsWith t (drop i s) = false.
Proof.
  revert n. induction s as [|x s IH]; intros n Hn i Hi.
  - cbn [indexOf] in Hn. destruct (startsWith t []); [|done].
    injection Hn as <-. lia.
  - cbn [indexOf] in Hn. destruct (startsWith t (x :: s)) eqn:E.
    { injection Hn as <-. lia. }
    destruct (indexOf t s) as [m|] eqn:Em; [|done]. injection Hn as <-.
    destruct i as [|i]; [done|]. cbn [drop]. apply (IH m); [done|lia].
Qed.

Lemma skipWhile_app_keep (p : N -> bool) a x rest :
  p x = false -> skipWhile p (a ++ x :: rest) = skipWhile p a ++ x :: rest.
Proof.
  intros Hx. induction a as [|y a IH]; cbn [app skipWhile].
  - by rewrite Hx.
  - by destruct (p y).
Qed.

Lemma forallb_anyUnit s : forallb anyUnit s = true.
Proof. by induction s. Qed.

Lemma not_line_feed (y : N) (r : jsstring) :
  10%N <> y ->
  match y :: r with
  | 10%N :: code => code
  | code => code
  end = y :: r.
Proof.
  intros Hy. destruct y as [|p]; [done|].
  do 4 (try destruct p as [p|p|]); done.
Qed.

Lemma run_Cat r1 r2 s c k :
  run (Cat r1 r2) s c k = run r1 s c (fun s1 c1 => run r2 s1 c1 k).
Proof. reflexivity. Qed.

Lemma run_Maybe r s c k :
  run (Maybe r) s c k
  = match run r s c k with
    | Some res => Some res
    | None => k s c
    end.
Proof. reflexivity. Qed.

Lemma run_Many p s c k : run (Many p) s c k = many p s c k.
Proof. reflexivity. Qed.

Lemma run_Few p s c k : run (Few p) s c k = few p s c k.
Proof. reflexivity. Qed.

(** The code of a fence, followed by its closing fence. *)
Lemma code_then_ticks (c : captures) pre code :
  indexOf ticks ((pre ++ code) ++ ticks) = Some (length (pre ++ code)) ->
  run (Cat (Group 2 (Few anyUnit)) (lit "```")) (code ++ ticks) c
    (fun s5 c5 => Some (s5, c5))
  = Some ([], (2, code) :: c).
Proof.
  intros Hfirst. rewrite run_Cat, run_Group, run_Few.
  rewrite few_first; [|apply forallb_anyUnit|].
  - apply few_head. rewrite run_lit.
    change (startsWith (u "```") ticks) with true. cbn iota.
    change (drop (length (u "```")) ticks) with (@nil N).
    rewrite length_app.
    replace (length code + length ticks - length ticks) with (length code) by lia.
    by rewrite take_app_length.
  - intros i Hi. rewrite run_lit. change (u "```") with ticks.
    pose proof (indexOf_first _ _ _ Hfirst (length pre + i)) as Hn.
    rewrite <- app_assoc, drop_app_add' in Hn by done.
    rewrite Hn; [done|]. rewrite length_app. lia.
Qed.

(** The line feed and the code, from what is left after the tag. *)
Lemma rest_of_fence (c : captures) body :
  indexOf ticks (body ++ ticks) = Some (length body) ->
  run (Cat (Maybe (Class (N.eqb 10)))
         (Cat (Group 2 (Few anyUnit)) (lit "```")))
    (skipWhile isWord body ++ ticks) c (fun s5 c5 => Some (s5, c5))
  = Some ([], (2, fenceCode body) :: c).
Proof.
  intros Hfirst. rewrite run_Cat, run_Maybe. unfold fenceCode.
  pose proof (take_skipWhile isWord body) as Hb.
  destruct (skipWhile isWord body) as [|y r] eqn:Er.
  - cbn [app]. change ticks with (96%N :: 96%N :: [96%N]) at 1.
    rewrite run_Class_cons. change (10 =? 96)%N with false. cbn iota.
    change (96%N :: 96%N :: [96%N]) with ([] ++ ticks).
    apply (code_then_ticks c body []). by rewrite app_nil_r.
  - change ((y :: r) ++ ticks) with (y :: (r ++ ticks)).
    rewrite run_Class_cons.
    destruct (N.eqb_spec 10 y) as [<-|Hy].
    + rewrite (code_then_ticks c (takeWhile isWord body ++ [10%N]) r).
      * done.
      * replace ((takeWhile isWord body ++ [10%N]) ++ r) with body
          by (by rewrite <- app_assoc).
        done.
    + change (y :: r ++ ticks) with ((y :: r) ++ ticks).
      rewrite (code_then_ticks c (takeWhile isWord body) (y :: r)).
      * by rewrite not_line_feed.
      * by rewrite Hb.
Qed.

Lemma matchHere_codeBlock_fence body :
  indexOf ticks (body ++ ticks) = Some (length body) ->
  matchHere codeBlock (ticks ++ body ++ ticks)
  = Some (length (ticks ++ body ++ ticks),
          (2, fenceCode body)
          :: match fenceTag body with [] => [] | _ :: _ => [(1, fenceTag body)] end).
Proof.
  intros Hfirst. unfold matchHere.
  assert (Hrun : run codeBlock (ticks ++ body ++ ticks) []
                   (fun s1 c1 => Some (s1, c1))
                 = Some ([], (2, fenceCode body)
                             :: match fenceTag body with
                                | [] => []
                                | _ :: _ => [(1, fenceTag body)]
                                end)).
  2:{ rewrite Hrun. by rewrite Nat.sub_0_r. }
  unfold codeBlock. rewrite run_Cat, run_lit. change (u "```") with ticks.
  rewrite startsWith_app, drop_app_length.
  rewrite run_Cat, run_Maybe, run_Group. unfold Some1, fenceTag.
  rewrite run_Cat.
  pose proof (take_skipWhile isWord body) as Hb.
  destruct body as [|x body'] eqn:Eb.
  { cbn [app takeWhile]. change ticks with (96%N :: 96%N :: [96%N]) at 1.
    rewrite run_Class_cons. change (isWord 96) with false. cbn iota.
    exact (rest_of_fence [] [] Hfirst). }
  rewrite <- Eb in *.
  rewrite Eb at 1. change ((x :: body') ++ ticks) with (x :: (body' ++ ticks)).
  rewrite run_Class_cons.
  destruct (isWord x) eqn:Hx.
  - (* a tag *)
    assert (Hsk : skipWhile isWord (body' ++ ticks)
                  = skipWhile isWord body ++ ticks).
    { change ticks with (96%N :: 96%N :: [96%N]) at 1.
      rewrite skipWhile_app_keep by done.
      rewrite Eb. cbn [skipWhile]. by rewrite Hx. }
    rewrite run_Many.
    erewrite many_greedy.
    2:{ cbn beta. rewrite Hsk. by apply rest_of_fence. }
    assert (take (length (body ++ ticks)
                  - length (skipWhile isWord body ++ ticks)) (body ++ ticks)
            = takeWhile isWord body) as ->.
    { rewrite <- Hb at 1 3. rewrite <- app_assoc.
      apply take_app_length'. rewrite !length_app. lia. }
    destruct (takeWhile isWord body) eqn:Et; [|done].
    rewrite Eb in Et. cbn [takeWhile] in Et. by rewrite Hx in Et.
  - (* no tag *)
    assert (takeWhile isWord body = []) as ->
      by (rewrite Eb; cbn [takeWhile]; by rewrite Hx).
    assert (body = skipWhile isWord body) as Hs
      by (rewrite Eb; cbn [skipWhile]; by rewrite Hx).
    rewrite Hs at 1. by apply rest_of_fence.
Qed.

Lemma renderPart_fence expandedBlocks msgId i body :
  indexOf ticks (body ++ ticks) = Some (length body) ->
  renderPart expandedBlocks msgId i (ticks ++ body ++ ticks)
  = CodeBlock (blockIdOf msgId i)
      (getFilenameFromCode (fenceCode body)
         match fenceTag body with [] => u "code" | _ :: _ => fenceTag body end)
      (if bool_decide (blockIdOf msgId i ∈ expandedBlocks)
       then Some (trim (fenceCode body)) else None).
Proof.
  intros Hfirst. unfold renderPart.
  rewrite (exec_at_head _ _ _ _ (matchHere_codeBlock_fence body Hfirst)).
  cbn [groups capture Nat.eqb]. fold (blockIdOf msgId i).
  destruct (fenceTag body); reflexivity.
Qed.

Lemma renderLine_unmarked line :
  unmarked line -> startsWith (u "#") line = false ->
  renderLine line = MkLine (u "mb-1.5 block") (plainSpan line).
Proof.
  intros Hl Hhead. unfold renderLine.
  assert (startsWith (u "### ") line = false
          /\ startsWith (u "## ") line = false
          /\ startsWith (u "# ") line = false) as (-> & -> & ->).
  { change (u "#") with [35%N] in Hhead.
    change (u "### ") with (35%N :: u "## ").
    change (u "## ") with (35%N :: u "# ").
    change (u "# ") with (35%N :: u " ").
    destruct line as [|y line]; cbn [startsWith] in *; [done|].
    apply andb_false_iff in Hhead as [->|Hhead]; done. }
  cbn [fst snd]. by rewrite split_unmarked.
Qed.

Lemma formatted_lines part :
  exists lines,
    Formatted (renderFormattedLines part) = Formatted lines
    /\ length lines = length (splitOn 10 part)
    /\ forall j line,
         splitOn 10 part !! j = Some line ->
         lines !! j = Some (renderLine line)
         /\ (unmarked line -> startsWith (u "#") line = false ->
             lines !! j = Some (MkLine (u "mb-1.5 block") (plainSpan line))).
Proof.
  exists (renderLine <$> splitOn 10 part). split_and!.
  - done.
  - by rewrite length_fmap.
  - intros j line Hj. rewrite list_lookup_fmap, Hj. split; [done|].
    intros Hl Hh. cbn. by rewrite renderLine_unmarked.
Qed.

(** X24: what [renderMessageContent] shows follows the fences of the
    text.  The pending mark is shown exactly for a model message without
    text while a send is in flight.  Otherwise there is one block per part
    of the cleaned text; the parts add up to the cleaned text and
    alternate, starting and ending with a piece that holds no pair of
    fences, with between each two of them a region from an opening fence
    to the first fence after it.  A piece is shown as formatted lines, one
    per line of the piece, a line without markup as it is.  A region is
    shown as a code block: its identifier is that of the message and the
    index of the part, its label what [getFilenameFromCode] gives for the
    code and the tag of the region ('code' without a tag), and its code,
    trimmed, is shown when the block is expanded.  So what follows the
    last fenced region, a lone opening fence included, is shown as
    formatted lines, and a text without a pair of fences is shown as
    formatted lines only. *)
Theorem rendering_follows_fences (isLoading : bool)
  (expandedBlocks : list jsstring) (msg : Message) :
  let clean := cleanText (Message.text msg) in
  let parts := split fencedRegion clean in
  (renderMessageContent isLoading expandedBlocks msg = Pending
   <-> Message.text msg = [] /\ isLoading = true
       /\ Message.role msg = Role.model)
  /\ (renderMessageContent isLoading expandedBlocks msg <> Pending ->
      exists blocks,
        renderMessageContent isLoading expandedBlocks msg
        = Content
            (if bool_decide (Message.role msg = Role.user)
             then shown (Message.mediaUrl msg) else None)
            blocks
            (if bool_decide (Message.role msg = Role.model)
                && bool_decide (Message.type msg = Some MediaType.image)
             then shown (Message.mediaUrl msg) else None)
        /\ concat parts = clean
        /\ length blocks = length parts
        /\ (exists n, length parts = 2 * n + 1)
        /\ (forall i part, parts !! i = Some part ->
              (Nat.even i = true ->
                 ~ HasFencePair part
                 /\ exists lines,
                      blocks !! i = Some (Formatted lines)
                      /\ length lines = length (splitOn 10 part)
                      /\ forall j line,
                           splitOn 10 part !! j = Some line ->
                           lines !! j = Some (renderLine line)
                           /\ (unmarked line ->
                               startsWith (u "#") line = false ->
                               lines !! j
                               = Some (MkLine (u "mb-1.5 block")
                                         (plainSpan line))))
              /\ (Nat.odd i = true ->
                    exists body,
                      part = ticks ++ body ++ ticks
                      /\ indexOf ticks (body ++ ticks) = Some (length body)
                      /\ blocks !! i
                         = Some
                             (CodeBlock (blockIdOf (Message.id msg) i)
                                (getFilenameFromCode (fenceCode body)
                                   match fenceTag body with
                                   | [] => u "code"
                                   | _ :: _ => fenceTag body
                                   end)
                                (if bool_decide
                                      (blockIdOf (Message.id msg) i
                                       ∈ expandedBlocks)
                                 then Some (trim (fenceCode body))
                                 else None))))
        /\ (exists tail,
              last parts = Some tail
              /\ ~ HasFencePair tail
              /\ last blocks
                 = Some (Formatted (List.map renderLine (splitOn 10 tail))))
        /\ (~ HasFencePair clean ->
              blocks = [Formatted (List.map renderLine (splitOn 10 clean))])).
Proof.
  intros clean parts.
  assert (Hpending :
            renderMessageContent isLoading expandedBlocks msg = Pending
            <-> Message.text msg = [] /\ isLoading = true
                /\ Message.role msg = Role.model).
  { unfold renderMessageContent. split.
    - destruct (bool_decide (Message.text msg = [])) eqn:Et; [|done].
      destruct isLoading; [|done].
      destruct (bool_decide (Message.role msg = Role.model)) eqn:Er; [|done].
      intros _. apply bool_decide_eq_true_1 in Et, Er. done.
    - intros (Ht & -> & Hr).
      by rewrite (bool_decide_eq_true_2 _ Ht), (bool_decide_eq_true_2 _ Hr). }
  split; [exact Hpending|]. intros Hnot.
  assert (renderMessageContent isLoading expandedBlocks msg
          = Content
              (if bool_decide (Message.role msg = Role.user)
               then shown (Message.mediaUrl msg) else None)
              (imap (renderPart expandedBlocks (Message.id msg)) parts)
              (if bool_decide (Message.role msg = Role.model)
                  && bool_decide (Message.type msg = Some MediaType.image)
               then shown (Message.mediaUrl msg) else None)) as Hr.
  { revert Hnot. unfold renderMessageContent. by destruct (_ && _ && _). }
  destruct (split_FencedPieces clean) as [Hpieces Hconcat].
  fold parts in Hpieces, Hconcat.
  destruct (FencedPieces_lookup _ Hpieces) as [Hodd Hlookup].
  eexists. split; [exact Hr|].
  split; [done|]. split; [by rewrite length_imap|]. split; [done|].
  split; [|split].
  - intros i part Hi. destruct (Hlookup i part Hi) as [Heven Hodd'].
    rewrite list_lookup_imap, Hi. cbn [fmap option_fmap option_map]. split.
    + intros He. split; [by apply Heven|].
      rewrite renderPart_plain by by apply Heven.
      destruct (formatted_lines part) as (lines & -> & Hlen & Hlines).
      by exists lines.
    + intros Ho. destruct (Hodd' Ho) as (body & -> & Hfirst).
      exists body. split; [done|]. split; [done|].
      by rewrite renderPart_fence.
  - destruct Hodd as [n Hn].
    destruct (lookup_lt_is_Some_2 parts (2 * n)) as [tail Htail]; [lia|].
    assert (Nat.even (2 * n) = true) as Heven
      by (rewrite Nat.even_mul; done).
    destruct (Hlookup _ _ Htail) as [Hplain _]. specialize (Hplain Heven).
    exists tail. rewrite !last_lookup, length_imap, Hn.
    replace (Init.Nat.pred (2 * n + 1)) with (2 * n) by lia.
    split; [done|]. split; [done|].
    rewrite list_lookup_imap, Htail. cbn [fmap option_fmap option_map].
    by rewrite renderPart_plain.
  - intros Hno.
    assert (parts = [clean]) as ->.
    { inversion Hpieces as [t Ht Heq|gap f rest Hgap Hf Hrest Heq].
      - rewrite <- Heq in Hconcat. simpl in Hconcat.
        rewrite app_nil_r in Hconcat. by subst.
      - rewrite <- Heq in Hconcat. simpl in Hconcat. destruct Hno.
        destruct (Fence_HasFencePair _ Hf) as (a & b & c & ->).
        exists (gap ++ a), b, (c ++ concat rest). rewrite <- Hconcat.
        by rewrite <- !app_assoc. }
    cbn [imap]. by rewrite renderPart_plain.
Qed.

Lemma rendering_follows_fences_witness :
  exists blocks,
    renderMessageContent false [] sampleReply = Content None blocks None
    /\ blocks !! 1 = Some (CodeBlock (u "7-1") (Str (u "script.js")) None)
    /\ blocks !! 2 = Some (Formatted [MkLine (u "mb-1.5 block") [Plain (u "b```c")]]).
Proof.
  destruct (rendering_follows_fences false [] sampleReply) as [_ H].
  destruct H as (blocks & Hr & _ & _ & _ & Hparts & _ & _).
  { vm_compute. discriminate. }
  exists blocks. split; [exact Hr|]. split.
  - destruct (Hparts 1 (u "```js" ++ [10%N] ++ u "x```")) as [_ Hodd];
      [by vm_compute|].
    destruct (Hodd eq_refl) as (body & Hb & _ & ->).
    assert (body = u "js" ++ [10%N] ++ u "x") as ->.
    { change (u "```js" ++ [10%N] ++ u "x```")
        with (ticks ++ (u "js" ++ [10%N] ++ u "x") ++ ticks) in Hb.
      apply app_inv_head, app_inv_tail in Hb. by symmetry. }
    by vm_compute.
  - destruct (Hparts 2 (u "b```c")) as [Heven _]; [by vm_compute|].
    destruct (Heven eq_refl) as (_ & lines & -> & Hlen & Hlines).
    destruct lines as [|l [|l' ls]]; [done| |done].
    destruct (Hlines 0 (u "b```c") eq_refl) as [_ Hl].
    assert (unmarked (u "b```c")) as Hu
      by (split_and!; [not_in_literal|not_in_literal|reflexivity|reflexivity]).
    specialize (Hl Hu eq_refl). cbn in Hl. by injection Hl as ->.
Defined.
